(** * Flowrate unit converter (flowrates.py): a shallow embedding and its properties

    Python [float] is IEEE-754 binary64, embedded as Rocq's primitive [float].
    Python [str] is a sequence of Unicode code points, embedded as [list N].
    Exceptions are values of [result]; the Streamlit calls that show something
    are recorded as a list of [ui_event]s, in the order they are emitted. *)

From Stdlib Require Import ZArith NArith List String Ascii Bool Lia Floats Reals Lra.
Import ListNotations.

Set Warnings "-inexact-float".

(** ** Python strings *)

Definition char := N.
Definition str := list char.

Definition lit (s : string) : str := map N_of_ascii (list_ascii_of_string s).

Definition char_eqb (a b : char) : bool := N.eqb a b.

Fixpoint str_eqb (a b : str) : bool :=
  match a, b with
  | [], [] => true
  | x :: a', y :: b' => char_eqb x y && str_eqb a' b'
  | _, _ => false
  end.

(** U+00B5 MICRO SIGN, the first character of "µL/min" and "µL/h". *)
Definition micro : char := 181%N.

(** ** Exceptions *)

Inductive exn := KeyError | ZeroDivisionError | ValueError.

Inductive result (A : Type) :=
| Ok (a : A)
| Raise (e : exn).
Arguments Ok {A} a.
Arguments Raise {A} e.

Definition bind {A B} (r : result A) (k : A -> result B) : result B :=
  match r with
  | Ok a => k a
  | Raise e => Raise e
  end.

Notation "x <- c ;; k" := (bind c (fun x => k))
  (at level 61, c at next level, right associativity).

Fixpoint mapM {A B} (f : A -> result B) (l : list A) : result (list B) :=
  match l with
  | [] => Ok []
  | a :: l' => b <- f a ;; bs <- mapM f l' ;; Ok (b :: bs)
  end.

Definition is_ok {A} (r : result A) : bool :=
  match r with Ok _ => true | Raise _ => false end.

(** ** Python float arithmetic

    [x * y] never raises; [x / y] raises [ZeroDivisionError] exactly when the
    divisor compares equal to zero (which covers [-0.0]). *)

Module PyFloat.

Definition mul (x y : float) : result float := Ok (x * y)%float.

Definition truediv (x y : float) : result float :=
  if (y =? 0)%float then Raise ZeroDivisionError else Ok (x / y)%float.

(** A finite double is an integer multiple of 2^-1074. [units x] is that
    integer; it is 0 on the values that are not finite. *)
Definition units (x : float) : Z :=
  match Prim2SF x with
  | S754_finite s m e => (if s then -1 else 1) * (Z.pos m * 2 ^ (e + 1074))
  | _ => 0
  end.

(** [isclose_rel x y]: [y] is within [1e-9] of [x], relative to [x], as an
    exact comparison of the two values (both finite). *)
Definition isclose_rel (x y : float) : bool :=
  is_finite x && is_finite y &&
  (Z.abs (units y - units x) * 10 ^ 9 <=? Z.abs (units x))%Z.

End PyFloat.

(** ** Unit definitions (base = L/min) *)

Record unit_fns := { to_base : float -> result float; from_base : float -> result float }.

Definition UNITS : list (str * unit_fns) :=
  [ (lit "L/min",
     {| to_base := fun x => Ok x;
        from_base := fun x => Ok x |});
    (lit "mL/min",
     {| to_base := fun x => PyFloat.truediv x 1000.0;
        from_base := fun x => PyFloat.mul x 1000.0 |});
    (micro :: lit "L/min",
     {| to_base := fun x => PyFloat.mul x 1e-6;
        from_base := fun x => PyFloat.truediv x 1e-6 |});
    (lit "uL/min",
     {| to_base := fun x => PyFloat.mul x 1e-6;
        from_base := fun x => PyFloat.truediv x 1e-6 |});
    (lit "nL/min",
     {| to_base := fun x => PyFloat.mul x 1e-9;
        from_base := fun x => PyFloat.truediv x 1e-9 |});
    (lit "L/h",
     {| to_base := fun x => PyFloat.truediv x 60.0;
        from_base := fun x => PyFloat.mul x 60.0 |});
    (lit "mL/h",
     {| to_base := fun x => y <- PyFloat.truediv x 1000.0 ;; PyFloat.truediv y 60.0;
        from_base := fun x => y <- PyFloat.mul x 60.0 ;; PyFloat.mul y 1000.0 |});
    (micro :: lit "L/h",
     {| to_base := fun x => y <- PyFloat.mul x 1e-6 ;; PyFloat.truediv y 60.0;
        from_base := fun x => y <- PyFloat.mul x 60.0 ;; PyFloat.truediv y 1e-6 |});
    (lit "uL/h",
     {| to_base := fun x => y <- PyFloat.mul x 1e-6 ;; PyFloat.truediv y 60.0;
        from_base := fun x => y <- PyFloat.mul x 60.0 ;; PyFloat.truediv y 1e-6 |}) ].

(** Preferred display order *)
Definition DISPLAY_UNITS : list str :=
  [ lit "L/min"; lit "mL/min"; micro :: lit "L/min"; lit "nL/min";
    lit "L/h"; lit "mL/h"; micro :: lit "L/h" ].

(** Normalize aliases to display symbols *)
Definition ALIAS : list (str * str) :=
  [ (lit "uL/min", micro :: lit "L/min"); (lit "uL/h", micro :: lit "L/h") ].

(** ** Dictionaries: [d[k]] and [d.get(k, default)] *)

Fixpoint dict_find {V} (d : list (str * V)) (k : str) : option V :=
  match d with
  | [] => None
  | (k', v) :: d' => if str_eqb k' k then Some v else dict_find d' k
  end.

Definition getitem {V} (d : list (str * V)) (k : str) : result V :=
  match dict_find d k with
  | Some v => Ok v
  | None => Raise KeyError
  end.

Definition dict_get {V} (d : list (str * V)) (k : str) (default : V) : V :=
  match dict_find d k with
  | Some v => v
  | None => default
  end.

(** The keys of [UNITS]: the registry. *)
Definition registry : list str := map fst UNITS.

(** ** Sidebar options, read by [fmt] *)

Record FormatConfig := {
  decimals : nat;          (* slider, 0..8 *)
  sci_for_large : bool;    (* checkbox *)
  thresh : nat             (* integer number_input, 1..12 *)
}.

(** ** Number formatting: the format specs [.{p}f] and [.{p}e]

    CPython renders the exact value of the double, rounded half-to-even to the
    requested number of digits. *)

Module Fmt.

Definition digit (n : Z) : char := Z.to_N (48 + n mod 10).

(** The last [w] decimal digits of [n], most significant first. *)
Fixpoint digits_fixed (w : nat) (n : Z) : str :=
  match w with
  | O => []
  | S w' => digits_fixed w' (n / 10) ++ [digit n]
  end.

Fixpoint ndigits (fuel : nat) (n : Z) : nat :=
  match fuel with
  | O => 1
  | S f => if (n <? 10)%Z then 1 else S (ndigits f (n / 10))
  end.

(** How many decimal digits [n >= 0] has (one for 0). *)
Definition num_digits (n : Z) : nat := ndigits (Z.to_nat (Z.log2 n)) n.

Definition digits_of (n : Z) : str := digits_fixed (num_digits n) n.

Definition round_half_even (n d : Z) : Z :=
  let q := (n / d)%Z in
  match (2 * (n mod d) ?= d)%Z with
  | Lt => q
  | Gt => (q + 1)%Z
  | Eq => if Z.even q then q else (q + 1)%Z
  end.

(** [m * 2^e] as a fraction. *)
Definition ratio (m : positive) (e : Z) : Z * Z :=
  if (0 <=? e)%Z then (Z.pos m * 2 ^ e, 1)%Z else (Z.pos m, 2 ^ (- e))%Z.

Definition sign (s : bool) : str := if s then lit "-" else [].

Definition frac (p : nat) (r : Z) : str :=
  match p with
  | O => []
  | _ => lit "." ++ digits_fixed p r
  end.

(** [f"{x:.{p}f}"] *)
Definition format_f (p : nat) (x : float) : str :=
  match Prim2SF x with
  | S754_nan => lit "nan"
  | S754_infinity s => sign s ++ lit "inf"
  | S754_zero s => sign s ++ lit "0" ++ frac p 0
  | S754_finite s m e =>
      let '(n, d) := ratio m e in
      let r := round_half_even (n * 10 ^ Z.of_nat p) d in
      sign s ++ digits_of (r / 10 ^ Z.of_nat p) ++ frac p (r mod 10 ^ Z.of_nat p)
  end.

(** The decimal exponent [k] of [n/d > 0]: [10^k <= n/d < 10^(k+1)]. *)
Definition dec_exponent (n d : Z) : Z :=
  let w := Z.of_nat (num_digits d) in
  (Z.of_nat (num_digits (n * 10 ^ w / d)) - 1 - w)%Z.

(** [n/d * 10^j], rounded. *)
Definition scaled (n d j : Z) : Z :=
  if (0 <=? j)%Z then round_half_even (n * 10 ^ j) d
  else round_half_even n (d * 10 ^ (- j)).

Definition exponent_text (k : Z) : str :=
  (if (k <? 0)%Z then lit "-" else lit "+") ++
  (if (Z.abs k <? 10)%Z then digits_fixed 2 (Z.abs k) else digits_of (Z.abs k)).

Definition mantissa_text (p : nat) (r : Z) : str :=
  digits_fixed 1 (r / 10 ^ Z.of_nat p) ++ frac p (r mod 10 ^ Z.of_nat p).

(** [f"{x:.{p}e}"] *)
Definition format_e (p : nat) (x : float) : str :=
  match Prim2SF x with
  | S754_nan => lit "nan"
  | S754_infinity s => sign s ++ lit "inf"
  | S754_zero s => sign s ++ mantissa_text p 0 ++ lit "e+00"
  | S754_finite s m e =>
      let '(n, d) := ratio m e in
      let k := dec_exponent n d in
      let r := scaled n d (Z.of_nat p - k) in
      let '(r, k) := if (10 ^ Z.of_nat (S p) <=? r)%Z then (r / 10, k + 1)%Z else (r, k) in
      sign s ++ mantissa_text p r ++ lit "e" ++ exponent_text k
  end.

End Fmt.

(** The Python int [10**t], and the float [10**(-t)] (computed by C [pow],
    taken here as the correctly rounded quotient). *)
Definition int_pow10 (t : nat) : Z := 10 ^ Z.of_nat t.

Definition float_pow10_neg (t : nat) : float :=
  SF2Prim (SF64div (S754_finite false 1 0) (S754_finite false (Z.to_pos (int_pow10 t)) 0)).

(** [x > n] for a float [x] and an int [n]: Python compares the exact values. *)
Definition float_gt_int (x : float) (n : Z) : bool :=
  match Prim2SF x with
  | S754_nan => false
  | S754_infinity s => negb s
  | _ => (n * 2 ^ 1074 <? PyFloat.units x)%Z
  end.

(** [pd.isna] on a float *)
Definition isna (x : float) : bool := is_nan x.

(** [abs(x) > 10**thresh or (x != 0 and abs(x) < 10**(-thresh))] *)
Definition outside_threshold (t : nat) (x : float) : bool :=
  float_gt_int (abs x) (int_pow10 t) ||
  (negb (x =? 0)%float && (abs x <? float_pow10_neg t)%float).

Definition use_sci (cfg : FormatConfig) (x : float) : bool :=
  sci_for_large cfg && outside_threshold (thresh cfg) x.

Definition fmt (cfg : FormatConfig) (x : float) : str :=
  if isna x then lit ""
  else if use_sci cfg x then Fmt.format_e (decimals cfg) x
  else Fmt.format_f (decimals cfg) x.

(** ** Single value conversion *)

Record row := { Unit : str; Value : float; Formatted : str }.

(** The loop over [DISPLAY_UNITS] that appends one row per output unit. *)
Fixpoint single_rows (cfg : FormatConfig) (base : float) (units : list str)
    (rows : list row) : result (list row) :=
  match units with
  | [] => Ok rows
  | out_unit :: rest =>
      u <- getitem UNITS out_unit ;;
      converted <- from_base u base ;;
      single_rows cfg base rest
        (rows ++ [ {| Unit := out_unit; Value := converted; Formatted := fmt cfg converted |} ])
  end.

(** What the single-value block shows: the [st.markdown] text and the rows of
    [df_single]. *)
Record single_view := { input_markdown : str; df_single : list row }.

Definition convert_single (cfg : FormatConfig) (value : float) (in_unit : str)
    : result single_view :=
  let display_in_unit := dict_get ALIAS in_unit in_unit in
  u <- getitem UNITS in_unit ;;
  base <- to_base u value ;;
  rows <- single_rows cfg base DISPLAY_UNITS [] ;;
  Ok {| input_markdown := lit "**Input:** " ++ fmt cfg value ++ lit " " ++ display_in_unit;
        df_single := rows |}.

(** ** Text helpers of the batch block *)

(** [str.isspace] on one character. *)
Definition is_space (c : char) : bool :=
  ((9 <=? c) && (c <=? 13) || (28 <=? c) && (c <=? 32) || (c =? 133) || (c =? 160)
   || (c =? 5760) || (8192 <=? c) && (c <=? 8202) || (c =? 8232) || (c =? 8233)
   || (c =? 8239) || (c =? 8287) || (c =? 12288))%N.

Fixpoint lstrip (s : str) : str :=
  match s with
  | c :: s' => if is_space c then lstrip s' else s
  | [] => []
  end.

Definition rstrip (s : str) : str := rev (lstrip (rev s)).

(** [s.strip()] *)
Definition strip (s : str) : str := rstrip (lstrip s).

(** [s.replace(",", "")] *)
Definition remove_commas (s : str) : str := filter (fun c => negb (c =? 44)%N) s.

(** The line boundaries of [str.splitlines], "\r" apart (it may start "\r\n"). *)
Definition is_linebreak (c : char) : bool :=
  ((c =? 10) || (c =? 11) || (c =? 12) || (c =? 28) || (c =? 29) || (c =? 30)
   || (c =? 133) || (c =? 8232) || (c =? 8233))%N.

Fixpoint splitlines_from (s : str) (cur : str) : list str :=
  match s with
  | [] => match cur with [] => [] | _ => [cur] end
  | c :: s' =>
      if (c =? 13)%N then
        match s' with
        | c' :: s'' => if (c' =? 10)%N then cur :: splitlines_from s'' []
                       else cur :: splitlines_from s' []
        | [] => cur :: splitlines_from s' []
        end
      else if is_linebreak c then cur :: splitlines_from s' []
      else splitlines_from s' (cur ++ [c])
  end.

(** [s.splitlines()] *)
Definition splitlines (s : str) : list str := splitlines_from s [].

(** ** [float(s)] on a string

    Grammar (case-insensitive, surrounding whitespace ignored):
    [sign? (inf | infinity | nan | number exponent?)], where a digit part is
    digits with single underscores between them. A digit is any Unicode
    decimal digit, read as the ASCII digit of the same value. The value is the
    decimal number rounded to the nearest double, ties to even. [None] stands
    for [ValueError]. *)

Module FloatParse.

(** The whitespace [float] ignores around the number: the ASCII characters
    tab to carriage return and space, and the non-ASCII Unicode spaces (which
    CPython first turns into spaces). The separators U+001C..U+001F, which
    [str.strip] removes, are not among them. *)
Definition float_space (c : char) : bool :=
  ((9 <=? c) && (c <=? 13) || (c =? 32) || (127 <=? c) && is_space c)%N.

Fixpoint ltrim (s : str) : str :=
  match s with
  | c :: s' => if float_space c then ltrim s' else s
  | [] => []
  end.

Definition trim (s : str) : str := rev (ltrim (rev (ltrim s))).

(** An ASCII digit. *)
Definition is_digit (c : char) : bool := ((48 <=? c) && (c <=? 57))%N.

(** The code points of the digits zero of Unicode 14.0; the digits one to nine
    of the same script follow each of them. *)
Definition digit_zeros : list N :=
  [ 48; 1632; 1776; 1984; 2406; 2534; 2662; 2790; 2918; 3046; 3174; 3302; 3430;
    3558; 3664; 3792; 3872; 4160; 4240; 6112; 6160; 6470; 6608; 6784; 6800; 6992;
    7088; 7232; 7248; 42528; 43216; 43264; 43472; 43504; 43600; 44016; 65296;
    66720; 68912; 69734; 69872; 69942; 70096; 70384; 70736; 70864; 71248; 71360;
    71472; 71904; 72016; 72784; 73040; 73120; 92768; 92864; 93008; 120782;
    120792; 120802; 120812; 120822; 123200; 123632; 125264; 130032 ]%N.

Definition digit_value (c : char) : option Z :=
  match find (fun z => (z <=? c) && (c <? z + 10))%N digit_zeros with
  | Some z => Some (Z.of_N (c - z))
  | None => None
  end.

Definition is_decimal (c : char) : bool :=
  match digit_value c with Some _ => true | None => false end.

Definition lower (c : char) : char :=
  if ((65 <=? c) && (c <=? 90))%N then (c + 32)%N else c.

(** Digits after the first one of a digit part; returns the digits read and
    the rest of the input. *)
Fixpoint digits_tail (s : str) (acc : str) : str * str :=
  match s with
  | c :: s' =>
      if is_decimal c then digits_tail s' (acc ++ [c])
      else if (c =? 95)%N then
        match s' with
        | c' :: s'' => if is_decimal c' then digits_tail s'' (acc ++ [c']) else (acc, s)
        | [] => (acc, s)
        end
      else (acc, s)
  | [] => (acc, [])
  end.

Definition digitpart (s : str) : option (str * str) :=
  match s with
  | c :: s' => if is_decimal c then Some (digits_tail s' [c]) else None
  | [] => None
  end.

Definition int_of_digits (ds : str) : Z :=
  fold_left (fun acc c => (10 * acc + match digit_value c with Some d => d | None => 0 end)%Z)
            ds 0%Z.

(** An optional sign: [true] for "-". *)
Definition take_sign (s : str) : bool * str :=
  match s with
  | c :: s' => if (c =? 45)%N then (true, s')
               else if (c =? 43)%N then (false, s') else (false, s)
  | [] => (false, [])
  end.

(** [number]: the digits before and after the point, and the rest. *)
Definition number (s : str) : option (str * str * str) :=
  match digitpart s with
  | Some (ip, rest) =>
      match rest with
      | c :: rest' =>
          if (c =? 46)%N then
            match digitpart rest' with
            | Some (fp, rest'') => Some (ip, fp, rest'')
            | None => Some (ip, [], rest')
            end
          else Some (ip, [], rest)
      | [] => Some (ip, [], [])
      end
  | None =>
      match s with
      | c :: s' =>
          if (c =? 46)%N then
            match digitpart s' with
            | Some (fp, rest) => Some ([], fp, rest)
            | None => None
            end
          else None
      | [] => None
      end
  end.

(** [exponent?] up to the end of the input. *)
Definition exponent (s : str) : option Z :=
  match s with
  | [] => Some 0%Z
  | c :: s' =>
      if (lower c =? 101)%N then
        let '(neg, s'') := take_sign s' in
        match digitpart s'' with
        | Some (ds, []) => Some (if neg then - int_of_digits ds else int_of_digits ds)%Z
        | _ => None
        end
      else None
  end.

(** [n/d], signed, rounded to the nearest double. *)
Definition round_quotient (neg : bool) (n d : positive) : float :=
  SF2Prim (SF64div (S754_finite neg n 0) (S754_finite false d 0)).

(** [m * 10^e10] as a double; out-of-range exponents give infinity or zero
    without building the power. *)
Definition decimal_value (neg : bool) (m e10 : Z) : float :=
  match m with
  | Z.pos pm =>
      let mag := (Z.of_nat (Fmt.num_digits m) + e10)%Z in
      if (400 <? mag)%Z then (if neg then neg_infinity else infinity)
      else if (mag <? -400)%Z then (if neg then neg_zero else zero)
      else if (0 <=? e10)%Z then round_quotient neg (pm * Z.to_pos (10 ^ e10)) 1
      else round_quotient neg pm (Z.to_pos (10 ^ (- e10)))
  | _ => if neg then neg_zero else zero
  end.

Definition py_float (text : str) : option float :=
  let '(neg, s) := take_sign (trim text) in
  let word := map lower s in
  if str_eqb word (lit "inf") || str_eqb word (lit "infinity") then
    Some (if neg then neg_infinity else infinity)
  else if str_eqb word (lit "nan") then Some nan
  else
    match number s with
    | Some (ip, fp, rest) =>
        match exponent rest with
        | Some x =>
            Some (decimal_value neg (int_of_digits (ip ++ fp)) (x - Z.of_nat (List.length fp)))
        | None => None
        end
    | None => None
    end.

End FloatParse.

(** ** Data frames and CSV export *)

Inductive cell :=
| CFloat (x : float)
| CStr (s : str).

(** A column-oriented table: the [data] dict and the frame built from it keep
    the insertion order of the column names. *)
Definition frame := list (str * list cell).

(** [data[k] = v] *)
Fixpoint dict_set {V} (d : list (str * V)) (k : str) (v : V) : list (str * V) :=
  match d with
  | [] => [(k, v)]
  | (k', v') :: d' => if str_eqb k' k then (k, v) :: d' else (k', v') :: dict_set d' k v
  end.

(** [df[cols]] *)
Definition select (df : frame) (cols : list str) : result frame :=
  mapM (fun c => v <- getitem df c ;; Ok (c, v)) cols.

Definition columns (df : frame) : list str := map fst df.

Definition hd_cell (c : list cell) : cell :=
  match c with x :: _ => x | [] => CStr [] end.

(** The rows of a frame whose columns all have [n] cells. *)
Fixpoint frame_rows (n : nat) (df : frame) : list (list cell) :=
  match n with
  | O => []
  | S n' => map (fun col => hd_cell (snd col)) df
            :: frame_rows n' (map (fun col => (fst col, tl (snd col))) df)
  end.

Definition frame_height (df : frame) : nat :=
  match df with
  | [] => 0
  | (_, c) :: _ => List.length c
  end.

Fixpoint join (sep : str) (l : list str) : str :=
  match l with
  | [] => []
  | [x] => x
  | x :: l' => x ++ sep ++ join sep l'
  end.

Section BatchBlock.

(** How pandas writes a float that is not NaN (the shortest text that reads
    back as the same double); the export properties do not depend on it. *)
Variable float_repr : float -> str.

Definition cell_text (c : cell) : str :=
  match c with
  | CFloat x => if isna x then [] else float_repr x
  | CStr s => s
  end.

(** Minimal quoting: a field with a comma, a double quote, or a line break in
    it is put between double quotes, its double quotes doubled. *)
Definition needs_quote (s : str) : bool :=
  existsb (fun c => (c =? 44) || (c =? 34) || (c =? 10) || (c =? 13))%N s.

Definition quote_field (s : str) : str :=
  if needs_quote s
  then [34%N] ++ flat_map (fun c => if (c =? 34)%N then [34%N; 34%N] else [c]) s ++ [34%N]
  else s.

(** The records of the export: the header, then one record per row. *)
Definition csv_records (df : frame) : list (list str) :=
  columns df :: map (map cell_text) (frame_rows (frame_height df) df).

Definition csv_line (fields : list str) : str :=
  join (lit ",") (map quote_field fields) ++ [10%N].

(** [df.to_csv(index=False)] *)
Definition to_csv (df : frame) : str := flat_map csv_line (csv_records df).

(** ** Batch conversion *)

Inductive ui_event :=
| Warning (i : Z) (line : str)
    (* st.warning(f"Line {i} is not a number: {line!r} — skipping it.") *)
| Dataframe (df : frame)
| DownloadButton (data : str)
| Info (msg : str).

(** The loop over [enumerate(raw.splitlines(), start=1)]: [values] and the
    warnings shown so far are threaded through. *)
Fixpoint parse_lines (lines : list str) (i : Z) (values : list float)
    (out : list ui_event) : list float * list ui_event :=
  match lines with
  | [] => (values, out)
  | line :: rest =>
      let s := remove_commas (strip line) in
      if str_eqb s [] then parse_lines rest (i + 1) values out
      else
        match FloatParse.py_float s with
        | Some v => parse_lines rest (i + 1) (values ++ [v]) out
        | None => parse_lines rest (i + 1) values (out ++ [Warning i line])
        end
  end.

Definition fmt_name (u : str) : str := u ++ lit " (fmt)".

(** The loop over [DISPLAY_UNITS] that adds two columns per output unit. *)
Fixpoint add_columns (cfg : FormatConfig) (base_vals : list float) (units : list str)
    (data : frame) : result frame :=
  match units with
  | [] => Ok data
  | out_unit :: rest =>
      conv <- mapM (fun b => u <- getitem UNITS out_unit ;; from_base u b) base_vals ;;
      let data := dict_set data out_unit (map CFloat conv) in
      let data := dict_set data (fmt_name out_unit) (map (fun x => CStr (fmt cfg x)) conv) in
      add_columns cfg base_vals rest data
  end.

Definition build_df_batch (cfg : FormatConfig) (values : list float) (batch_unit : str)
    : result frame :=
  let data := [ (lit "Input", map CFloat values);
                (lit "Input Unit",
                 repeat (CStr (dict_get ALIAS batch_unit batch_unit)) (List.length values)) ] in
  base_vals <- mapM (fun v => u <- getitem UNITS batch_unit ;; to_base u v) values ;;
  add_columns cfg base_vals DISPLAY_UNITS data.

Definition show_cols : list str :=
  [lit "Input"; lit "Input Unit"] ++ map fmt_name DISPLAY_UNITS.

(** The batch block: everything it shows, in order, and how it ends. The CSV
    handed to the download button is the text of [df_batch.to_csv(index=False)]
    (its UTF-8 encoding is left implicit). An exception leaves the warnings
    already shown on the page. *)
Definition convert_batch (cfg : FormatConfig) (raw : str) (batch_unit : str)
    : list ui_event * result unit :=
  match strip raw with
  | [] => ([], Ok tt)
  | _ =>
      let '(values, out) := parse_lines (splitlines raw) 1 [] [] in
      match values with
      | [] => (out ++ [Info (lit "No valid numeric lines found.")], Ok tt)
      | _ =>
          match build_df_batch cfg values batch_unit with
          | Ok df_batch =>
              match select df_batch show_cols with
              | Ok view =>
                  let csv := to_csv df_batch in
                  (out ++ [Dataframe view; DownloadButton csv], Ok tt)
              | Raise e => (out, Raise e)
              end
          | Raise e => (out, Raise e)
          end
      end
  end.

End BatchBlock.

(** * Specification vocabulary *)

(** ** The registry, as pure functions *)

(** On the units of the registry the conversions are these pure functions. *)
Definition to_base_fn (k : str) (x : float) : float :=
  match getitem UNITS k with
  | Ok u => match to_base u x with Ok y => y | Raise _ => nan end
  | Raise _ => nan
  end.

Definition from_base_fn (k : str) (x : float) : float :=
  match getitem UNITS k with
  | Ok u => match from_base u x with Ok y => y | Raise _ => nan end
  | Raise _ => nan
  end.

(** Source unit to base, base to output unit. *)
Definition converted (in_unit out_unit : str) (v : float) : float :=
  from_base_fn out_unit (to_base_fn in_unit v).

(** ** The shape of formatted text *)

Definition all_digits (s : str) : Prop := Forall (fun c => FloatParse.is_digit c = true) s.

Definition point_and (p : nat) (fp : str) : str :=
  match p with O => [] | _ => lit "." ++ fp end.

(** Fixed-point text: an optional "-", the integer digits, and, when [p > 0],
    a point followed by exactly [p] digits. *)
Definition fixed_point_shape (p : nat) (s : str) : Prop :=
  exists sg ip fp,
    s = Fmt.sign sg ++ ip ++ point_and p fp /\
    ip <> [] /\ all_digits ip /\ all_digits fp /\ List.length fp = p.

(** Scientific text: an optional "-", one digit, [p] more digits after a point
    when [p > 0], then "e", a sign and at least two exponent digits. *)
Definition scientific_shape (p : nat) (s : str) : Prop :=
  exists sg d fp es ex,
    s = Fmt.sign sg ++ [d] ++ point_and p fp ++ lit "e" ++ [es] ++ ex /\
    FloatParse.is_digit d = true /\ all_digits fp /\ List.length fp = p /\
    (es = 43%N \/ es = 45%N) /\ all_digits ex /\ 2 <= List.length ex.

Definition cfg_default : FormatConfig := {| decimals := 3; sci_for_large := true; thresh := 6 |}.

(** ** The lines of a batch *)

Definition blank (s : str) : Prop := Forall (fun c => is_space c = true) s.

(** What the loop looks at: the trimmed line without its commas. *)
Definition cleaned (line : str) : str := remove_commas (strip line).

(** The value a line contributes, if any. *)
Definition line_value (line : str) : option float :=
  if str_eqb (cleaned line) [] then None else FloatParse.py_float (cleaned line).

(** The line is not empty once cleaned, and [float] rejects it. *)
Definition fails (line : str) : bool :=
  negb (str_eqb (cleaned line) []) &&
  match FloatParse.py_float (cleaned line) with None => true | Some _ => false end.

Fixpoint enumerate_from {A} (i : Z) (l : list A) : list (Z * A) :=
  match l with
  | [] => []
  | a :: l' => (i, a) :: enumerate_from (i + 1) l'
  end.

Definition warnings_from (i : Z) (lines : list str) : list ui_event :=
  map (fun p => Warning (fst p) (snd p))
      (filter (fun p => fails (snd p)) (enumerate_from i lines)).

(** One warning per failing line, with its 1-based number and raw text. *)
Definition expected_warnings (lines : list str) : list ui_event := warnings_from 1 lines.

(** The values of the lines that parse, in line order. *)
Definition expected_values (lines : list str) : list float :=
  flat_map (fun line => match line_value line with Some v => [v] | None => [] end) lines.

Definition is_warning (e : ui_event) : bool :=
  match e with Warning _ _ => true | _ => false end.

(** ** The batch table and its export *)

(** A frame given by its columns as functions of the input value. *)
Definition fill (cols : list (str * (float -> cell))) (values : list float) : frame :=
  map (fun c => (fst c, map (snd c) values)) cols.

Definition unit_columns (cfg : FormatConfig) (batch_unit : str) (units : list str)
    : list (str * (float -> cell)) :=
  flat_map (fun u => [ (u, fun v => CFloat (converted batch_unit u v));
                       (fmt_name u, fun v => CStr (fmt cfg (converted batch_unit u v))) ])
           units.

Definition input_columns (batch_unit : str) : list (str * (float -> cell)) :=
  [ (lit "Input", CFloat);
    (lit "Input Unit", fun _ => CStr (dict_get ALIAS batch_unit batch_unit)) ].

(** The columns of [df_batch]. *)
Definition batch_columns (cfg : FormatConfig) (batch_unit : str) :=
  input_columns batch_unit ++ unit_columns cfg batch_unit DISPLAY_UNITS.

(** The columns of the table on the page, [df_batch[show_cols]]. *)
Definition shown_columns (cfg : FormatConfig) (batch_unit : str) :=
  input_columns batch_unit ++
  map (fun u => (fmt_name u, fun v => CStr (fmt cfg (converted batch_unit u v)))) DISPLAY_UNITS.

Fixpoint nodupb (l : list str) : bool :=
  match l with
  | [] => true
  | x :: l' => negb (existsb (str_eqb x) l') && nodupb l'
  end.

(** The batch block on a unit of the registry, in closed form. *)
Definition batch_outcome (float_repr : float -> str) (cfg : FormatConfig) (raw batch_unit : str)
    : list ui_event * result unit :=
  let lines := splitlines raw in
  match strip raw with
  | [] => ([], Ok tt)
  | _ =>
      match expected_values lines with
      | [] => (expected_warnings lines ++ [Info (lit "No valid numeric lines found.")], Ok tt)
      | values =>
          (expected_warnings lines ++
           [ Dataframe (fill (shown_columns cfg batch_unit) values);
             DownloadButton (to_csv float_repr (fill (batch_columns cfg batch_unit) values)) ],
           Ok tt)
      end
  end.

(** A concrete float writer for the closed examples: 17 significant digits. *)
Definition float_repr_17 (x : float) : str := Fmt.format_e 16 x.

(** The text "1\nabc\n2". *)
Definition raw_1_abc_2 : str := lit "1" ++ [10%N] ++ lit "abc" ++ [10%N] ++ lit "2".

(** The text before the first line feed. *)
Fixpoint first_line (s : str) : str :=
  match s with
  | [] => []
  | c :: s' => if (c =? 10)%N then [] else c :: first_line s'
  end.

(** The header of the exported file: the two input columns, then for every
    display unit its numeric column and its formatted column. *)
Definition export_header : list str :=
  [lit "Input"; lit "Input Unit"] ++ flat_map (fun u => [u; fmt_name u]) DISPLAY_UNITS.

Definition export_header_text : str :=
  lit "Input,Input Unit,L/min,L/min (fmt),mL/min,mL/min (fmt),"
  ++ [micro] ++ lit "L/min," ++ [micro] ++ lit "L/min (fmt),nL/min,nL/min (fmt),"
  ++ lit "L/h,L/h (fmt),mL/h,mL/h (fmt),"
  ++ [micro] ++ lit "L/h," ++ [micro] ++ lit "L/h (fmt)".

(** The record of one input value. *)
Definition export_row (float_repr : float -> str) (cfg : FormatConfig) (batch_unit : str)
    (v : float) : list str :=
  map (fun col => cell_text float_repr (snd col v)) (batch_columns cfg batch_unit).

(** ** Floats as real numbers *)

Section FloatValues.

Local Open Scope Z_scope.

Definition fexp64 := fexp prec emax.

(** The two shifts and the rounding of [binary_round_aux], spelled out. *)
Record rounding_steps (mx ex : Z) (lx : location) := {
  r_n1 : Z; r_m0 : Z; r_m1 : Z; r_n2 : Z; r_m2 : Z;
  n1_eq : r_n1 = Z.max 0 (fexp64 (Zdigits2 mx + ex) - ex);
  m0_eq : r_m0 = mx / 2 ^ r_n1;
  m1_range : r_m1 = r_m0 \/ r_m1 = r_m0 + 1;
  n2_eq : r_n2 = Z.max 0 (fexp64 (Zdigits2 r_m1 + (ex + r_n1)) - (ex + r_n1));
  m2_eq : r_m2 = r_m1 / 2 ^ r_n2
}.

Local Open Scope R_scope.

Definition pow2 (e : Z) : R := powerRZ 2 e.

(** The real number a float stands for (0 for what is not finite). *)
Definition SF2R (f : spec_float) : R :=
  match f with
  | S754_finite s m e => (if s then -1 else 1) * (IZR (Z.pos m) * pow2 e)
  | _ => 0
  end.

Definition F2R (x : float) : R := SF2R (Prim2SF x).

(** A positive normal double. *)
Definition pos_normal (x : float) : Prop :=
  exists m e, Prim2SF x = S754_finite false m e /\ (2 ^ 52 <= Z.pos m)%Z.

(** The relative error of one correctly rounded operation, generously: 2^-52. *)
Definition delta : R := / 4503599627370496.

(** [v] is within the relative error [delta] of the float value [r]. *)
Definition within (r v : R) : Prop := r * (1 - delta) <= v <= r * (1 + delta).

(** Within [1e-9] of [x], relative to [x]. *)
Definition close_to (x y : R) : Prop :=
  x * (1 - / 1000000000) <= y <= x * (1 + / 1000000000).

(** The round trip of one unit: [f] to the base, [g] back. *)
Definition roundtrip_ok (f g : float -> float) : Prop :=
  forall x,
    is_finite x = true ->
    (x =? 0)%float = true \/ (0x1p-1022 <=? f x)%float = true ->
    is_finite (g (f x)) = true ->
    PyFloat.isclose_rel x (g (f x)) = true.

End FloatValues.

(** ** The unit select boxes and the alias table *)

(** The options of the two unit select boxes. *)
Definition selectbox_options : list str := DISPLAY_UNITS ++ [lit "uL/min"; lit "uL/h"].

(** The rows of the single-value table for [value] (none when the block
    raises). *)
Definition single_table (cfg : FormatConfig) (value : float) (in_unit : str) : list row :=
  match convert_single cfg value in_unit with
  | Ok view => df_single view
  | Raise _ => []
  end.

(** ** Lines and line endings *)

(** The line is empty once cleaned: the loop passes over it. *)
Definition skipped (line : str) : bool := str_eqb (cleaned line) [].

(** A character that ends a line for [splitlines]. *)
Definition breaks (c : char) : bool := is_linebreak c || (c =? 13)%N.

(** A line of text: no character of it ends a line. *)
Definition one_line (l : str) : Prop := Forall (fun c => breaks c = false) l.

(** The lines [ls], each followed by the line ending [sep]. *)
Definition unlines (sep : str) (ls : list str) : str := flat_map (fun l => l ++ sep) ls.

Definition LF : str := [10%N].
Definition CRLF : str := [13%N; 10%N].
Definition CR : str := [13%N].

Definition line_ending (sep : str) : Prop := sep = LF \/ sep = CRLF \/ sep = CR.

(** The characters [float] can accept somewhere in its argument: whitespace,
    decimal digits, the signs, the point, the underscore, and the letters of
    "e", "inf", "infinity" and "nan" in either case. *)
Definition number_alphabet (c : char) : bool :=
  FloatParse.float_space c || FloatParse.is_decimal c
  || existsb (N.eqb c) (lit "+-._")
  || existsb (N.eqb (FloatParse.lower c)) (lit "einftya").

Definition in_alphabet (s : str) : Prop := Forall (fun c => number_alphabet c = true) s.

(** ** Signs and kinds of floats *)

(** The sign bit of a float that is not NaN. There is a single NaN here, so
    the sign of a NaN is not represented; [signbit] is only used on values
    that are not NaN (on NaN it is [false]). *)
Definition signbit (x : float) : bool :=
  match Prim2SF x with
  | S754_zero s | S754_infinity s | S754_finite s _ _ => s
  | S754_nan => false
  end.

(** How a result relates to the operand it was scaled from: NaN, infinities
    and zeros are kept as they are, a finite value keeps its sign. *)
Definition scaled_from (a r : spec_float) : Prop :=
  match a with
  | S754_nan => r = S754_nan
  | S754_infinity s => r = S754_infinity s
  | S754_zero s => r = S754_zero s
  | S754_finite s _ _ =>
      r = S754_zero s \/ r = S754_infinity s \/ exists m e, r = S754_finite s m e
  end.

Definition positive_finite (c : float) : Prop :=
  exists mc ec, Prim2SF c = S754_finite false mc ec.

(** A number that is not zero: finite and non-zero, or infinite. *)
Definition nonzero_number (f : spec_float) : Prop :=
  match f with
  | S754_infinity _ | S754_finite _ _ _ => True
  | _ => False
  end.

(** ** The text of a formatted number *)

Definition starts_with_minus (s : str) : bool :=
  match s with c :: _ => (c =? 45)%N | [] => false end.

Definition starts_digit (s : str) : Prop :=
  match s with c :: _ => FloatParse.is_digit c = true | [] => False end.

(** The characters of a formatted number. *)
Definition number_char (c : char) : bool :=
  (FloatParse.is_digit c || (c =? 45) || (c =? 43) || (c =? 46) || (c =? 101)
   || (c =? 105) || (c =? 110) || (c =? 102))%N.

Definition number_text (s : str) : Prop := Forall (fun c => number_char c = true) s.

(** What may follow a run of digits: the end, a point or an "e". *)
Definition ends_digits (rest : str) : Prop :=
  match rest with
  | [] => True
  | c :: _ => c = 46%N \/ c = 101%N
  end.

(** The exponent part of a formatted number: nothing, or "e", a sign and
    digits. *)
Definition exponent_part (E : str) : Prop :=
  E = [] \/ exists es ex, E = [101%N; es] ++ ex /\ (es = 43%N \/ es = 45%N) /\
                          all_digits ex /\ ex <> [].

(** The digits of a text, read as one integer. *)
Definition shown_digits (s : str) : Z :=
  FloatParse.int_of_digits (filter FloatParse.is_digit s).

(** ** The exported file *)

(** How many times [c] occurs in [s]. *)
Definition occurrences (c : char) (s : str) : nat := count_occ N.eq_dec s c.

(** A field that [to_csv] writes as it is. *)
Definition plain_field (s : str) : Prop := needs_quote s = false.

(** ** Decimal values *)

Section DecimalValues.

Local Open Scope R_scope.

Definition pow10 (k : Z) : R := powerRZ 10 k.

(** The number written by the digits [ds] with the last digit worth [10^k]. *)
Definition shown_value (ds : str) (k : Z) : R := IZR (FloatParse.int_of_digits ds) * pow10 k.

(** A factor at most one half. *)
Definition small_factor (c : float) : Prop :=
  exists mc ec, Prim2SF c = S754_finite false mc ec /\
                (ec <= 0)%Z /\ IZR (Z.pos mc) * pow2 ec <= / 2.

(** A factor at least two. *)
Definition large_factor (c : float) : Prop :=
  exists mc ec, Prim2SF c = S754_finite false mc ec /\
                (1 <= Zdigits2 (Z.pos mc) + ec)%Z /\ 2 <= IZR (Z.pos mc) * pow2 ec.

(** What one of each unit is in L/min, as the decimal constants of [UNITS]
    read exactly. *)
Definition exact_factors : list (str * R) :=
  [ (lit "L/min", 1); (lit "mL/min", / 1000); (micro :: lit "L/min", / 1000000);
    (lit "uL/min", / 1000000); (lit "nL/min", / 1000000000);
    (lit "L/h", / 60); (lit "mL/h", / 60000); (micro :: lit "L/h", / 60000000);
    (lit "uL/h", / 60000000) ].

Definition base_factor (k : str) : R := dict_get exact_factors k 0.

(** [v] is within the relative error [tol] of [r]. *)
Definition within_rel (tol r v : R) : Prop := r * (1 - tol) <= v <= r * (1 + tol).

End DecimalValues.

(** * Properties *)

(** ** Strings and the error monad *)

Lemma str_eqb_eq (a b : str) : str_eqb a b = true <-> a = b.
Proof.
  revert b; induction a as [|x a IH]; intros [|y b]; simpl; split; try congruence; try easy.
  - intros H. apply andb_true_iff in H as [H1 H2].
    apply N.eqb_eq in H1. apply IH in H2. congruence.
  - intros H. injection H as -> ->. apply andb_true_iff. split.
    + apply N.eqb_refl.
    + now apply IH.
Qed.

Lemma str_eqb_refl (a : str) : str_eqb a a = true.
Proof. now apply str_eqb_eq. Qed.

Lemma str_eqb_nil (a : str) : str_eqb a [] = true <-> a = [].
Proof. apply str_eqb_eq. Qed.

Lemma mapM_pure {A B} (f : A -> result B) (g : A -> B) (l : list A) :
  (forall a, f a = Ok (g a)) -> mapM f l = Ok (map g l).
Proof.
  intros H. induction l as [|a l IH]; simpl; [reflexivity|].
  now rewrite H, IH.
Qed.

(** ** The registry *)

Lemma registry_cases (P : str -> Prop) :
  P (lit "L/min") -> P (lit "mL/min") -> P (micro :: lit "L/min") -> P (lit "uL/min") ->
  P (lit "nL/min") -> P (lit "L/h") -> P (lit "mL/h") -> P (micro :: lit "L/h") ->
  P (lit "uL/h") ->
  forall k, In k registry -> P k.
Proof.
  intros H1 H2 H3 H4 H5 H6 H7 H8 H9 k Hk.
  unfold registry in Hk. simpl in Hk.
  repeat (destruct Hk as [<- | Hk]; [assumption|]). contradiction.
Qed.

Lemma registry_lookup k :
  In k registry ->
  exists u, getitem UNITS k = Ok u /\
    (forall x, to_base u x = Ok (to_base_fn k x)) /\
    (forall x, from_base u x = Ok (from_base_fn k x)).
Proof.
  revert k. apply registry_cases; eexists; (split; [reflexivity|]); split; intros x; reflexivity.
Qed.

Lemma single_rows_spec cfg base units rows :
  single_rows cfg base units rows =
  Ok (rows ++ map (fun out_unit =>
                     {| Unit := out_unit;
                        Value := from_base_fn out_unit base;
                        Formatted := fmt cfg (from_base_fn out_unit base) |}) units)
  \/ exists k, In k units /\ ~ In k registry.
Proof.
  revert rows. induction units as [|k units IH]; intros rows; simpl.
  - left. now rewrite app_nil_r.
  - destruct (in_dec (list_eq_dec N.eq_dec) k registry) as [Hk | Hk].
    + destruct (registry_lookup k Hk) as (u & Hu & _ & Hfrom).
      rewrite Hu. cbn [bind]. rewrite Hfrom. cbn [bind].
      destruct (IH (rows ++ [{| Unit := k; Value := from_base_fn k base;
                                Formatted := fmt cfg (from_base_fn k base) |}]))
        as [-> | (k' & Hin & Hout)].
      * left. now rewrite <- app_assoc.
      * right. exists k'. auto.
    + right. exists k. auto.
Qed.

Lemma display_units_registered k : In k DISPLAY_UNITS -> In k registry.
Proof.
  unfold DISPLAY_UNITS, registry. simpl. intros H.
  repeat (destruct H as [<- | H]; [tauto|]). contradiction.
Qed.

Lemma convert_single_spec cfg value in_unit :
  In in_unit registry ->
  convert_single cfg value in_unit =
  Ok {| input_markdown :=
          lit "**Input:** " ++ fmt cfg value ++ lit " " ++ dict_get ALIAS in_unit in_unit;
        df_single :=
          map (fun out_unit =>
                 let converted := from_base_fn out_unit (to_base_fn in_unit value) in
                 {| Unit := out_unit; Value := converted; Formatted := fmt cfg converted |})
              DISPLAY_UNITS |}.
Proof.
  intros Hk. unfold convert_single.
  destruct (registry_lookup in_unit Hk) as (u & Hu & Hto & _).
  rewrite Hu. cbn [bind]. rewrite Hto. cbn [bind].
  destruct (single_rows_spec cfg (to_base_fn in_unit value) DISPLAY_UNITS [])
    as [-> | (k & Hin & Hout)].
  - reflexivity.
  - exfalso. apply Hout. now apply display_units_registered.
Qed.

(** C1. Converting 1.0 L/min: every display unit gets the expected value
    except nL/min, where [1.0 / 1e-9] is 999999999.9999999 and not 1e9. *)
Theorem one_litre_per_minute_values (cfg : FormatConfig) :
  exists view,
    convert_single cfg 1 (lit "L/min") = Ok view /\
    map (fun r => (Unit r, Value r)) (df_single view) =
      [ (lit "L/min", 1%float); (lit "mL/min", 1000%float);
        (micro :: lit "L/min", 1e6%float); (lit "nL/min", 999999999.9999999%float);
        (lit "L/h", 60%float); (lit "mL/h", 60000%float);
        (micro :: lit "L/h", 6e7%float) ] /\
    (999999999.9999999 =? 1e9)%float = false /\
    (999999999.9999999 <? 1e9)%float = true.
Proof.
  eexists. split.
  - apply convert_single_spec. unfold registry. simpl. tauto.
  - repeat split; reflexivity.
Qed.

(** C8. The ASCII aliases behave as the canonical units: same input line,
    same converted values, same formatted strings. *)
Theorem alias_equivalence (cfg : FormatConfig) (v : float) :
  convert_single cfg v (lit "uL/min") = convert_single cfg v (micro :: lit "L/min") /\
  convert_single cfg v (lit "uL/h") = convert_single cfg v (micro :: lit "L/h") /\
  is_ok (convert_single cfg v (lit "uL/min")) = true /\
  is_ok (convert_single cfg v (lit "uL/h")) = true.
Proof.
  assert (Hr : forall k, In k (map fst ALIAS) -> In k registry).
  { unfold registry. simpl. intros k [<- | [<- | []]]; tauto. }
  assert (Hd : forall k, In k DISPLAY_UNITS -> In k registry)
    by apply display_units_registered.
  rewrite !convert_single_spec
    by (first [ apply Hr; simpl; tauto | apply Hd; unfold DISPLAY_UNITS; simpl; tauto ]).
  repeat split; reflexivity.
Qed.

(** C9. The conversion math never raises: for every unit of the registry and
    every float (finite or not, of either sign, zero included) [to_base] and
    [from_base] return a float, and the single-value conversion returns one
    row per display unit. *)
Theorem conversion_total (k : str) (x : float) (cfg : FormatConfig) :
  In k registry ->
  (exists u, getitem UNITS k = Ok u /\
             (exists y, to_base u x = Ok y) /\ (exists y, from_base u x = Ok y)) /\
  (exists view, convert_single cfg x k = Ok view /\
                map Unit (df_single view) = DISPLAY_UNITS).
Proof.
  intros Hk. split.
  - destruct (registry_lookup k Hk) as (u & Hu & Hto & Hfrom).
    exists u. split; [assumption|]. split; eexists; [apply Hto | apply Hfrom].
  - eexists. split; [now apply convert_single_spec|].
    reflexivity.
Qed.

Lemma conversion_total_witness :
  (exists u, getitem UNITS (lit "nL/min") = Ok u /\
             (exists y, to_base u (-2.5)%float = Ok y) /\
             (exists y, from_base u (-2.5)%float = Ok y)) /\
  (exists view,
     convert_single {| decimals := 3; sci_for_large := true; thresh := 6 |}
       (-2.5)%float (lit "nL/min") = Ok view /\
     map Unit (df_single view) = DISPLAY_UNITS).
Proof.
  apply (conversion_total (lit "nL/min") (-2.5)%float
           {| decimals := 3; sci_for_large := true; thresh := 6 |}).
  unfold registry. simpl. tauto.
Defined.

(** ** Formatting *)

Lemma digit_is_digit n : FloatParse.is_digit (Fmt.digit n) = true.
Proof.
  unfold FloatParse.is_digit, Fmt.digit.
  pose proof (Z.mod_pos_bound n 10 ltac:(lia)).
  apply andb_true_iff. split; apply N.leb_le; lia.
Qed.

Lemma digits_fixed_length w n : List.length (Fmt.digits_fixed w n) = w.
Proof.
  revert n. induction w as [|w IH]; intros n; simpl; [reflexivity|].
  rewrite length_app, IH. simpl. lia.
Qed.

Lemma digits_fixed_digits w n : all_digits (Fmt.digits_fixed w n).
Proof.
  revert n. induction w as [|w IH]; intros n; simpl.
  - constructor.
  - apply Forall_app. split; [apply IH|]. constructor; [apply digit_is_digit | constructor].
Qed.

Lemma ndigits_pos fuel n : 1 <= Fmt.ndigits fuel n.
Proof. destruct fuel; simpl; [lia|]. destruct (n <? 10)%Z; lia. Qed.

Lemma num_digits_two n : (10 <= n)%Z -> 2 <= Fmt.num_digits n.
Proof.
  intros H. unfold Fmt.num_digits.
  assert (Hl : (3 <= Z.log2 n)%Z) by (change 3%Z with (Z.log2 10); now apply Z.log2_le_mono).
  destruct (Z.to_nat (Z.log2 n)) as [|f] eqn:E; [lia|].
  simpl. destruct (Z.ltb_spec n 10); [lia|].
  pose proof (ndigits_pos f (n / 10)). lia.
Qed.

Lemma digits_of_nonempty n : Fmt.digits_of n <> [].
Proof.
  unfold Fmt.digits_of. intros H. apply (f_equal (@List.length _)) in H.
  rewrite digits_fixed_length in H. simpl in H.
  pose proof (ndigits_pos (Z.to_nat (Z.log2 n)) n). unfold Fmt.num_digits in H. lia.
Qed.

Lemma frac_point_and p r : Fmt.frac p r = point_and p (Fmt.digits_fixed p r).
Proof. destruct p; reflexivity. Qed.

Lemma fixed_body_shape sg p a r :
  fixed_point_shape p (Fmt.sign sg ++ Fmt.digits_of a ++ Fmt.frac p r).
Proof.
  exists sg, (Fmt.digits_of a), (Fmt.digits_fixed p r).
  rewrite frac_point_and. repeat split.
  - apply digits_of_nonempty.
  - apply digits_fixed_digits.
  - apply digits_fixed_digits.
  - apply digits_fixed_length.
Qed.

Lemma finite_cases x :
  is_finite x = true ->
  (exists s, Prim2SF x = S754_zero s) \/ (exists s m e, Prim2SF x = S754_finite s m e).
Proof.
  intros Hfin. destruct (Prim2SF x) as [s | s | | s m e] eqn:E.
  - left. now exists s.
  - exfalso. revert E Hfin. unfold Prim2SF, is_finite.
    destruct (is_nan x); [discriminate|]. destruct (is_zero x); [discriminate|].
    destruct (is_infinity x); [discriminate|].
    destruct (Z.frexp x). destruct (shr_fexp _ _ _ _ _). destruct (shr_m _); discriminate.
  - exfalso. revert E Hfin. unfold Prim2SF, is_finite.
    destruct (is_nan x); [discriminate|]. destruct (is_zero x); [discriminate|].
    destruct (is_infinity x); [discriminate|].
    destruct (Z.frexp x). destruct (shr_fexp _ _ _ _ _). destruct (shr_m _); discriminate.
  - right. now exists s, m, e.
Qed.

Lemma format_f_shape p x :
  is_finite x = true -> fixed_point_shape p (Fmt.format_f p x).
Proof.
  intros Hfin. unfold Fmt.format_f.
  destruct (finite_cases x Hfin) as [(s & ->) | (s & m & e & ->)].
  - apply (fixed_body_shape s p 0 0).
  - destruct (Fmt.ratio m e) as [n d]. apply fixed_body_shape.
Qed.

Lemma exponent_text_shape k :
  exists es ex, Fmt.exponent_text k = [es] ++ ex /\
    (es = 43%N \/ es = 45%N) /\ all_digits ex /\ 2 <= List.length ex.
Proof.
  unfold Fmt.exponent_text.
  exists (if (k <? 0)%Z then 45%N else 43%N),
         (if (Z.abs k <? 10)%Z then Fmt.digits_fixed 2 (Z.abs k) else Fmt.digits_of (Z.abs k)).
  split; [now destruct (k <? 0)%Z|].
  split; [destruct (k <? 0)%Z; tauto|].
  destruct (Z.ltb_spec (Z.abs k) 10).
  - split; [apply digits_fixed_digits | now rewrite digits_fixed_length].
  - split; [apply digits_fixed_digits|].
    unfold Fmt.digits_of. rewrite digits_fixed_length. now apply num_digits_two.
Qed.

Lemma sci_body_shape sg p r k :
  scientific_shape p (Fmt.sign sg ++ Fmt.mantissa_text p r ++ lit "e" ++ Fmt.exponent_text k).
Proof.
  destruct (exponent_text_shape k) as (es & ex & -> & Hes & Hex & Hlen).
  exists sg, (Fmt.digit (r / 10 ^ Z.of_nat p)), (Fmt.digits_fixed p (r mod 10 ^ Z.of_nat p)), es, ex.
  unfold Fmt.mantissa_text. rewrite frac_point_and. simpl Fmt.digits_fixed at 1.
  rewrite <- !app_assoc. repeat split; auto.
  - apply digit_is_digit.
  - apply digits_fixed_digits.
  - apply digits_fixed_length.
Qed.

Lemma format_e_shape p x :
  is_finite x = true -> scientific_shape p (Fmt.format_e p x).
Proof.
  intros Hfin. unfold Fmt.format_e.
  destruct (finite_cases x Hfin) as [(s & ->) | (s & m & e & ->)].
  - apply (sci_body_shape s p 0 0).
  - destruct (Fmt.ratio m e) as [n d].
    destruct (10 ^ Z.of_nat (S p) <=? _)%Z; apply sci_body_shape.
Qed.

Lemma all_digits_no_e s : all_digits s -> ~ In 101%N s.
Proof.
  intros H Hin. unfold all_digits in H. rewrite Forall_forall in H.
  specialize (H _ Hin). discriminate.
Qed.

Lemma sign_no_e sg : ~ In 101%N (Fmt.sign sg).
Proof. destruct sg; simpl; intuition discriminate. Qed.

Lemma fixed_point_no_e p s : fixed_point_shape p s -> ~ In 101%N s.
Proof.
  intros (sg & ip & fp & -> & _ & Hip & Hfp & _) Hin.
  apply in_app_or in Hin as [Hin | Hin]; [now apply (sign_no_e sg)|].
  apply in_app_or in Hin as [Hin | Hin]; [now apply (all_digits_no_e ip)|].
  destruct p; simpl in Hin; [assumption|].
  destruct Hin as [Hin | Hin]; [discriminate|]. now apply (all_digits_no_e fp).
Qed.

Lemma scientific_has_e p s : scientific_shape p s -> In 101%N s.
Proof.
  intros (sg & d & fp & es & ex & -> & _).
  apply in_or_app. right. apply in_or_app. right.
  apply in_or_app. right. simpl. auto.
Qed.

Lemma shapes_disjoint p q s : scientific_shape p s -> fixed_point_shape q s -> False.
Proof.
  intros Hs Hf. apply (fixed_point_no_e q s Hf). now apply (scientific_has_e p).
Qed.

(** ** Batch parsing *)

Lemma parse_lines_spec lines i values out :
  parse_lines lines i values out =
  (values ++ expected_values lines, out ++ warnings_from i lines).
Proof.
  revert i values out. induction lines as [|line lines IH]; intros i values out.
  - simpl. unfold warnings_from. simpl. now rewrite !app_nil_r.
  - simpl. unfold warnings_from, line_value, fails. simpl. fold (cleaned line).
    destruct (str_eqb (cleaned line) []) eqn:E; simpl.
    + apply IH.
    + destruct (FloatParse.py_float (cleaned line)) as [v|]; simpl.
      * rewrite IH. now rewrite <- app_assoc.
      * rewrite IH. unfold warnings_from. now rewrite <- app_assoc.
Qed.

Lemma enumerate_from_In {A} (l : list A) i n a :
  In (n, a) (enumerate_from i l) <->
  (i <= n)%Z /\ nth_error l (Z.to_nat (n - i)) = Some a.
Proof.
  revert i. induction l as [|b l IH]; intros i; simpl.
  - split; [contradiction|]. intros [_ H]. destruct (Z.to_nat (n - i)); discriminate.
  - rewrite IH. split.
    + intros [H | [Hle H]].
      * injection H as <- <-. split; [lia|]. now rewrite Z.sub_diag.
      * split; [lia|]. replace (Z.to_nat (n - i)) with (S (Z.to_nat (n - (i + 1)))) by lia.
        exact H.
    + intros [Hle H]. destruct (Z.eq_dec n i) as [-> | Hne].
      * left. rewrite Z.sub_diag in H. simpl in H. congruence.
      * right. split; [lia|].
        replace (Z.to_nat (n - i)) with (S (Z.to_nat (n - (i + 1)))) in H by lia.
        exact H.
Qed.

Lemma enumerate_from_lt {A} (l : list A) i n a :
  In (n, a) (enumerate_from i l) -> (i <= n)%Z.
Proof. intros H. now apply enumerate_from_In in H. Qed.

Lemma warnings_from_In lines i n l :
  In (Warning n l) (warnings_from i lines) <->
  (i <= n)%Z /\ nth_error lines (Z.to_nat (n - i)) = Some l /\ fails l = true.
Proof.
  unfold warnings_from. rewrite in_map_iff. split.
  - intros ([n' l'] & Heq & Hin). simpl in Heq. injection Heq as -> ->.
    apply filter_In in Hin as [Hin Hf]. apply enumerate_from_In in Hin. tauto.
  - intros (Hle & Hnth & Hf). exists (n, l). split; [reflexivity|].
    apply filter_In. split; [|exact Hf]. apply enumerate_from_In. tauto.
Qed.

Lemma warnings_from_NoDup lines i : NoDup (warnings_from i lines).
Proof.
  revert i. induction lines as [|line lines IH]; intros i.
  - constructor.
  - unfold warnings_from. simpl. destruct (fails line); simpl.
    + constructor; [|apply IH].
      intros Hin. apply (warnings_from_In lines (i + 1) i line) in Hin. lia.
    + apply IH.
Qed.

Lemma warnings_from_all_warnings lines i :
  filter is_warning (warnings_from i lines) = warnings_from i lines.
Proof.
  unfold warnings_from.
  induction (filter (fun p => fails (snd p)) (enumerate_from i lines)) as [|p l IH];
    simpl; [reflexivity|]. now rewrite IH.
Qed.

Lemma lstrip_blank s : blank s -> lstrip s = [].
Proof.
  induction 1 as [|c s Hc _ IH]; simpl; [reflexivity|]. now rewrite Hc.
Qed.

Lemma blank_of_lstrip s : blank (lstrip s) -> blank s.
Proof.
  induction s as [|c s IH]; simpl; [auto|].
  destruct (is_space c) eqn:E; [|auto].
  intros H. constructor; [exact E | exact (IH H)].
Qed.

Lemma blank_rev s : blank (rev s) <-> blank s.
Proof.
  unfold blank. rewrite !Forall_forall. split; intros H c Hc; apply H.
  - now apply in_rev in Hc.
  - now apply in_rev.
Qed.

Lemma rev_nil_inv {A} (l : list A) : rev l = [] -> l = [].
Proof.
  intros H. apply (f_equal (@rev A)) in H. now rewrite rev_involutive in H.
Qed.

Lemma strip_nil_iff s : strip s = [] <-> blank s.
Proof.
  unfold strip, rstrip. split.
  - intros H. apply rev_nil_inv in H.
    apply blank_of_lstrip. apply blank_rev. apply blank_of_lstrip.
    rewrite H. constructor.
  - intros H. rewrite (lstrip_blank s H). reflexivity.
Qed.

Lemma lstrip_app_blank pre s : blank pre -> lstrip (pre ++ s) = lstrip s.
Proof.
  induction 1 as [|c pre Hc _ IH]; simpl; [reflexivity|]. now rewrite Hc.
Qed.

Lemma lstrip_app_visible a b : lstrip a <> [] -> lstrip (a ++ b) = lstrip a ++ b.
Proof.
  induction a as [|c a IH]; simpl; [congruence|].
  destruct (is_space c); [exact IH | reflexivity].
Qed.

Lemma rstrip_app_blank s post : blank post -> rstrip (s ++ post) = rstrip s.
Proof.
  intros H. unfold rstrip. rewrite rev_app_distr.
  rewrite lstrip_app_blank by (now apply blank_rev). reflexivity.
Qed.

Lemma rstrip_blank s : blank s -> rstrip s = [].
Proof.
  intros H. unfold rstrip. rewrite lstrip_blank by (now apply blank_rev). reflexivity.
Qed.

(** Whitespace around a line does not matter. *)
Lemma strip_surrounded pre line post :
  blank pre -> blank post -> strip (pre ++ line ++ post) = strip line.
Proof.
  intros Hpre Hpost. unfold strip. rewrite lstrip_app_blank by exact Hpre.
  destruct (lstrip line) as [|c r] eqn:E.
  - assert (Hl : blank line) by (apply blank_of_lstrip; rewrite E; constructor).
    rewrite <- (app_nil_r (line ++ post)), <- app_assoc.
    rewrite lstrip_app_blank by exact Hl. simpl app.
    rewrite app_nil_r, (lstrip_blank post Hpost). reflexivity.
  - rewrite lstrip_app_visible by (rewrite E; discriminate).
    rewrite E. now apply rstrip_app_blank.
Qed.

Lemma splitlines_from_blank n s cur :
  List.length s <= n -> blank s -> blank cur -> Forall blank (splitlines_from s cur).
Proof.
  revert s cur. induction n as [|n IH]; intros s cur Hlen Hs Hcur.
  - destruct s; [|simpl in Hlen; lia]. simpl.
    destruct cur; [constructor | constructor; [assumption | constructor]].
  - destruct s as [|c s]; simpl.
    + destruct cur; [constructor | constructor; [assumption | constructor]].
    + simpl in Hlen. inversion Hs as [|? ? Hc Hs']; subst.
      assert (Hnil : blank []) by constructor.
      destruct (c =? 13)%N.
      * destruct s as [|c' s'].
        -- constructor; [assumption|]. apply IH; [simpl; lia | constructor | assumption].
        -- inversion Hs' as [|? ? Hc' Hs'']; subst. simpl in Hlen.
           destruct (c' =? 10)%N; (constructor; [assumption|]);
             apply IH; simpl; auto; lia.
      * destruct (is_linebreak c).
        -- constructor; [assumption|]. apply IH; auto; lia.
        -- apply IH; auto; [lia|]. apply Forall_app. split; [assumption|]. now constructor.
Qed.

Lemma blank_line_skipped line : blank line -> line_value line = None /\ fails line = false.
Proof.
  intros H. unfold line_value, fails, cleaned.
  rewrite (proj2 (strip_nil_iff line) H). simpl. auto.
Qed.

Lemma blank_lines_silent lines i :
  Forall blank lines -> expected_values lines = [] /\ warnings_from i lines = [].
Proof.
  intros H. revert i. induction H as [|line lines Hl _ IH]; intros i.
  - split; reflexivity.
  - destruct (blank_line_skipped line Hl) as [Hv Hf].
    destruct (IH (i + 1)%Z) as [IHv IHw]. split.
    + simpl. now rewrite Hv.
    + unfold warnings_from in *. simpl. now rewrite Hf.
Qed.

Lemma blank_raw_silent raw :
  strip raw = [] ->
  expected_values (splitlines raw) = [] /\ expected_warnings (splitlines raw) = [].
Proof.
  intros H. apply strip_nil_iff in H. apply blank_lines_silent.
  apply (splitlines_from_blank (List.length raw)); auto. constructor.
Qed.

(** ** The batch table *)

Lemma nodupb_NoDup l : nodupb l = true -> NoDup l.
Proof.
  induction l as [|x l IH]; simpl; [constructor|].
  intros H. apply andb_true_iff in H as [Hx Hl]. constructor; [|auto].
  intros Hin. apply negb_true_iff in Hx.
  assert (existsb (str_eqb x) l = true); [|congruence].
  apply existsb_exists. exists x. split; [assumption | apply str_eqb_refl].
Qed.

Lemma dict_set_fresh {V} (d : list (str * V)) k v :
  ~ In k (map fst d) -> dict_set d k v = d ++ [(k, v)].
Proof.
  induction d as [|[k' v'] d IH]; simpl; intros H; [reflexivity|].
  destruct (str_eqb k' k) eqn:E.
  - apply str_eqb_eq in E. tauto.
  - rewrite IH; tauto.
Qed.

Lemma repeat_as_map {A B} (b : B) (l : list A) :
  repeat b (List.length l) = map (fun _ => b) l.
Proof. induction l; simpl; congruence. Qed.

Lemma add_columns_spec cfg batch_unit values units data :
  (forall u, In u units -> In u registry) ->
  NoDup (map fst data ++ map fst (unit_columns cfg batch_unit units)) ->
  add_columns cfg (map (to_base_fn batch_unit) values) units data =
  Ok (data ++ fill (unit_columns cfg batch_unit units) values).
Proof.
  revert data. induction units as [|u units IH]; intros data Hreg Hnd.
  - simpl. now rewrite app_nil_r.
  - simpl.
    destruct (registry_lookup u (Hreg u (or_introl eq_refl))) as (uf & Hu & _ & Hfrom).
    rewrite (mapM_pure _ (from_base_fn u)) by (intros b; rewrite Hu; cbn [bind]; apply Hfrom).
    cbn [bind].
    simpl in Hnd.
    assert (H1 : ~ In u (map fst data)).
    { intros Hin. apply NoDup_remove_2 in Hnd. apply Hnd. apply in_or_app. now left. }
    rewrite (dict_set_fresh data u) by exact H1.
    assert (H2 : ~ In (fmt_name u) (map fst (data ++ [(u, map CFloat (map (from_base_fn u)
                          (map (to_base_fn batch_unit) values)))]))).
    { rewrite map_app. simpl. intros Hin. apply in_app_or in Hin as [Hin | [Hin | []]].
      - apply NoDup_remove_1 in Hnd. apply NoDup_remove_2 in Hnd. apply Hnd.
        apply in_or_app. now left.
      - apply NoDup_app_remove_l in Hnd. inversion Hnd as [|? ? Hni _]; subst.
        apply Hni. left. symmetry. exact Hin. }
    rewrite dict_set_fresh by exact H2.
    rewrite IH.
    + rewrite <- !app_assoc. simpl. unfold converted. rewrite !map_map. reflexivity.
    + intros u' Hu'. apply Hreg. now right.
    + rewrite !map_app. simpl. rewrite <- !app_assoc. simpl. exact Hnd.
Qed.

Lemma build_df_batch_spec cfg values batch_unit :
  In batch_unit registry ->
  build_df_batch cfg values batch_unit = Ok (fill (batch_columns cfg batch_unit) values).
Proof.
  intros Hk. unfold build_df_batch.
  destruct (registry_lookup batch_unit Hk) as (uf & Hu & Hto & _).
  rewrite (mapM_pure _ (to_base_fn batch_unit)) by (intros v; rewrite Hu; cbn [bind]; apply Hto).
  cbn [bind].
  rewrite add_columns_spec.
  - rewrite repeat_as_map. reflexivity.
  - apply display_units_registered.
  - apply nodupb_NoDup. vm_compute. reflexivity.
Qed.

Lemma select_shown (c1 c2 : list cell) (raws fmts : str -> list cell) :
  select ([ (lit "Input", c1); (lit "Input Unit", c2) ] ++
          flat_map (fun u => [ (u, raws u); (fmt_name u, fmts u) ]) DISPLAY_UNITS)
         show_cols =
  Ok ([ (lit "Input", c1); (lit "Input Unit", c2) ] ++
      map (fun u => (fmt_name u, fmts u)) DISPLAY_UNITS).
Proof. vm_compute. reflexivity. Qed.

Lemma fill_flat_map {A} (f : A -> list (str * (float -> cell))) (l : list A) values :
  fill (flat_map f l) values = flat_map (fun a => fill (f a) values) l.
Proof.
  unfold fill. induction l as [|a l IH]; simpl; [reflexivity|].
  now rewrite map_app, IH.
Qed.

Lemma select_df_batch cfg batch_unit values :
  select (fill (batch_columns cfg batch_unit) values) show_cols =
  Ok (fill (shown_columns cfg batch_unit) values).
Proof.
  unfold batch_columns, shown_columns, unit_columns.
  unfold fill at 1. rewrite map_app. fold (fill (input_columns batch_unit) values).
  change (map (fun c : str * (float -> cell) => (fst c, map (snd c) values)))
    with (fun cols => fill cols values).
  cbv beta. rewrite fill_flat_map.
  exact (select_shown _ _
           (fun u => map (fun v => CFloat (converted batch_unit u v)) values)
           (fun u => map (fun v => CStr (fmt cfg (converted batch_unit u v))) values)).
Qed.

Lemma convert_batch_spec float_repr cfg raw batch_unit :
  In batch_unit registry ->
  convert_batch float_repr cfg raw batch_unit = batch_outcome float_repr cfg raw batch_unit.
Proof.
  intros Hk. unfold convert_batch, batch_outcome.
  destruct (strip raw); [reflexivity|].
  rewrite parse_lines_spec. simpl app. fold (expected_warnings (splitlines raw)).
  destruct (expected_values (splitlines raw)) as [|v values]; [reflexivity|].
  rewrite build_df_batch_spec by exact Hk.
  rewrite select_df_batch. reflexivity.
Qed.

Lemma fill_cons cols v values :
  fill cols (v :: values) = map (fun c => (fst c, snd c v :: map (snd c) values)) cols.
Proof. reflexivity. Qed.

Lemma frame_rows_fill cols values :
  frame_rows (List.length values) (fill cols values) =
  map (fun v => map (fun c => snd c v) cols) values.
Proof.
  induction values as [|v values IH]; [reflexivity|].
  simpl List.length. rewrite fill_cons. simpl. f_equal.
  - rewrite map_map. reflexivity.
  - rewrite map_map. simpl. exact IH.
Qed.

Lemma frame_height_fill c cols values :
  frame_height (fill (c :: cols) values) = List.length values.
Proof. simpl. now rewrite length_map. Qed.

Lemma columns_fill cols values : columns (fill cols values) = map fst cols.
Proof. unfold columns, fill. rewrite map_map. reflexivity. Qed.

Lemma csv_records_fill float_repr c cols values :
  csv_records float_repr (fill (c :: cols) values) =
  map fst (c :: cols) ::
  map (fun v => map (fun col => cell_text float_repr (snd col v)) (c :: cols)) values.
Proof.
  unfold csv_records. rewrite frame_height_fill, frame_rows_fill, columns_fill.
  rewrite map_map. f_equal. apply map_ext. intros v. now rewrite map_map.
Qed.

Lemma convert_batch_warnings float_repr cfg raw batch_unit :
  filter is_warning (fst (convert_batch float_repr cfg raw batch_unit)) =
  expected_warnings (splitlines raw).
Proof.
  unfold convert_batch. destruct (strip raw) as [|c s] eqn:E.
  - destruct (blank_raw_silent raw E) as [_ ->]. reflexivity.
  - rewrite parse_lines_spec. simpl app. fold (expected_warnings (splitlines raw)).
    assert (Hw : filter is_warning (expected_warnings (splitlines raw)) =
                 expected_warnings (splitlines raw)) by apply warnings_from_all_warnings.
    destruct (expected_values (splitlines raw)) as [|v values].
    + simpl fst. rewrite filter_app, Hw. simpl. apply app_nil_r.
    + destruct (build_df_batch cfg (v :: values) batch_unit) as [df | e]; [|exact Hw].
      destruct (select df show_cols) as [view | e]; [|exact Hw].
      simpl fst. rewrite filter_app, Hw. simpl. apply app_nil_r.
Qed.

(** C4. Each line is trimmed (whitespace around it does not change what it
    yields) and its commas are removed; a line that is empty
    then is skipped without a warning and without a value; a line that [float]
    rejects gives exactly one warning, carrying its 1-based number and its raw
    text, and no value; every other line gives its value, whatever came before
    it; and on a unit of the registry the block ends normally. *)
Theorem batch_line_policy (float_repr : float -> str) (cfg : FormatConfig)
    (raw batch_unit : str) :
  let lines := splitlines raw in
  let events := fst (convert_batch float_repr cfg raw batch_unit) in
  (forall pre line post, blank pre -> blank post ->
     line_value (pre ++ line ++ post) = line_value line /\
     fails (pre ++ line ++ post) = fails line) /\
  (forall line, strip line = [] -> line_value line = None /\ fails line = false) /\
  parse_lines lines 1 [] [] = (expected_values lines, expected_warnings lines) /\
  filter is_warning events = expected_warnings lines /\
  NoDup (filter is_warning events) /\
  (forall n text,
     In (Warning n text) events <->
     (1 <= n)%Z /\ nth_error lines (Z.to_nat (n - 1)) = Some text /\ fails text = true) /\
  (In batch_unit registry -> snd (convert_batch float_repr cfg raw batch_unit) = Ok tt).
Proof.
  intros lines events.
  assert (Hw : filter is_warning events = expected_warnings lines)
    by apply convert_batch_warnings.
  split; [|split; [|split; [|split; [|split; [|split]]]]].
  - intros pre line post Hpre Hpost. unfold line_value, fails, cleaned.
    rewrite (strip_surrounded pre line post Hpre Hpost). split; reflexivity.
  - intros line H. apply blank_line_skipped. now apply strip_nil_iff.
  - rewrite parse_lines_spec. reflexivity.
  - exact Hw.
  - rewrite Hw. apply warnings_from_NoDup.
  - intros n text. rewrite <- (warnings_from_In lines 1 n text).
    fold (expected_warnings lines). rewrite <- Hw. rewrite filter_In. simpl. tauto.
  - intros Hk. rewrite convert_batch_spec by exact Hk. unfold batch_outcome.
    destruct (strip raw); [reflexivity|].
    destruct (expected_values (splitlines raw)); reflexivity.
Qed.

Lemma batch_line_policy_witness :
  line_value (lit "   ") = None /\ fails (lit "   ") = false /\
  In (Warning 2 (lit "abc"))
     (fst (convert_batch float_repr_17 cfg_default raw_1_abc_2 (lit "L/min"))) /\
  snd (convert_batch float_repr_17 cfg_default raw_1_abc_2 (lit "L/min")) = Ok tt.
Proof.
  pose proof (batch_line_policy float_repr_17 cfg_default raw_1_abc_2 (lit "L/min")) as H.
  cbv zeta in H. destruct H as (_ & H1 & _ & _ & _ & H5 & H6).
  split; [|split; [|split]].
  - apply (H1 (lit "   ")). reflexivity.
  - apply (H1 (lit "   ")). reflexivity.
  - apply H5. split; [lia | split; reflexivity].
  - apply H6. unfold registry. simpl. tauto.
Defined.

Lemma values_need_text raw : expected_values (splitlines raw) <> [] -> strip raw <> [].
Proof.
  intros Hv Hs. apply Hv. now apply blank_raw_silent.
Qed.

Lemma batch_with_values float_repr cfg raw batch_unit :
  In batch_unit registry ->
  expected_values (splitlines raw) <> [] ->
  convert_batch float_repr cfg raw batch_unit =
  (expected_warnings (splitlines raw) ++
   [ Dataframe (fill (shown_columns cfg batch_unit) (expected_values (splitlines raw)));
     DownloadButton
       (to_csv float_repr (fill (batch_columns cfg batch_unit) (expected_values (splitlines raw)))) ],
   Ok tt).
Proof.
  intros Hk Hv. rewrite convert_batch_spec by exact Hk. unfold batch_outcome.
  pose proof (values_need_text raw Hv) as Hs.
  destruct (strip raw); [congruence|].
  destruct (expected_values (splitlines raw)); [congruence | reflexivity].
Qed.

(** C5. The rows of the batch table follow the input lines: the table is
    built column by column from the values of the lines that parse, taken in
    line order, so its i-th row belongs to the i-th such line. On the lines
    "1", "abc", "2" the rows are those of 1 and 2, in that order, and there is
    exactly one warning, for line 2 with the text "abc". *)
Theorem batch_order_preserved (float_repr : float -> str) (cfg : FormatConfig)
    (batch_unit : str) :
  In batch_unit registry ->
  (forall raw,
     let values := expected_values (splitlines raw) in
     values <> [] ->
     exists view csv,
       convert_batch float_repr cfg raw batch_unit =
         (expected_warnings (splitlines raw) ++ [Dataframe view; DownloadButton csv], Ok tt) /\
       columns view = show_cols /\
       getitem view (lit "Input") = Ok (map CFloat values) /\
       frame_rows (List.length values) view =
         map (fun v => map (fun c => snd c v) (shown_columns cfg batch_unit)) values) /\
  splitlines raw_1_abc_2 = [lit "1"; lit "abc"; lit "2"] /\
  exists view csv,
    convert_batch float_repr cfg raw_1_abc_2 batch_unit =
      ([Warning 2 (lit "abc"); Dataframe view; DownloadButton csv], Ok tt) /\
    getitem view (lit "Input") = Ok [CFloat 1; CFloat 2] /\
    List.length (frame_rows (frame_height view) view) = 2.
Proof.
  intros Hk. split; [|split].
  - intros raw values Hv. do 2 eexists. split; [|split; [|split]].
    + apply batch_with_values; assumption.
    + rewrite columns_fill. reflexivity.
    + reflexivity.
    + apply frame_rows_fill.
  - reflexivity.
  - do 2 eexists. split; [|split].
    + rewrite batch_with_values; [|exact Hk|vm_compute; discriminate].
      let w := eval vm_compute in (expected_warnings (splitlines raw_1_abc_2)) in
      change (expected_warnings (splitlines raw_1_abc_2)) with w.
      reflexivity.
    + reflexivity.
    + reflexivity.
Qed.

Lemma batch_order_preserved_witness :
  exists view csv,
    convert_batch float_repr_17 cfg_default (lit "7") (lit "mL/h") =
      (expected_warnings (splitlines (lit "7")) ++ [Dataframe view; DownloadButton csv], Ok tt) /\
    columns view = show_cols /\
    getitem view (lit "Input") = Ok (map CFloat (expected_values (splitlines (lit "7")))) /\
    frame_rows (List.length (expected_values (splitlines (lit "7")))) view =
      map (fun v => map (fun c => snd c v) (shown_columns cfg_default (lit "mL/h")))
          (expected_values (splitlines (lit "7"))).
Proof.
  assert (Hk : In (lit "mL/h") registry) by (unfold registry; simpl; tauto).
  apply (proj1 (batch_order_preserved float_repr_17 cfg_default (lit "mL/h") Hk) (lit "7")).
  vm_compute. discriminate.
Defined.

(** C6, as the code has it. The file behind the download button is
    [df_batch.to_csv], of the whole frame and not of the columns shown on the
    page: its header is [Input, Input Unit] followed, for every display unit,
    by the numeric column and the formatted column; then comes one record per
    parsed line, in line order. The table on the page has the columns
    [Input, Input Unit, <unit> (fmt)...]. *)
Theorem csv_export_layout (float_repr : float -> str) (cfg : FormatConfig)
    (raw batch_unit : str) :
  In batch_unit registry ->
  expected_values (splitlines raw) <> [] ->
  exists view csv,
    convert_batch float_repr cfg raw batch_unit =
      (expected_warnings (splitlines raw) ++ [Dataframe view; DownloadButton csv], Ok tt) /\
    columns view = show_cols /\
    csv = flat_map csv_line
            (export_header ::
             map (export_row float_repr cfg batch_unit) (expected_values (splitlines raw))) /\
    first_line csv = export_header_text /\
    List.length (export_header) = 16.
Proof.
  intros Hk Hv. do 2 eexists. split; [|split; [|split; [|split]]].
  - apply batch_with_values; assumption.
  - rewrite columns_fill. reflexivity.
  - unfold to_csv. unfold batch_columns, input_columns.
    cbn [app]. rewrite csv_records_fill. reflexivity.
  - unfold to_csv. unfold batch_columns, input_columns.
    cbn [app]. rewrite csv_records_fill. reflexivity.
  - reflexivity.
Qed.

Lemma csv_export_layout_witness :
  exists view csv,
    convert_batch float_repr_17 cfg_default (lit "7") (lit "mL/h") =
      (expected_warnings (splitlines (lit "7")) ++ [Dataframe view; DownloadButton csv], Ok tt) /\
    columns view = show_cols /\
    csv = flat_map csv_line
            (export_header ::
             map (export_row float_repr_17 cfg_default (lit "mL/h"))
                 (expected_values (splitlines (lit "7")))) /\
    first_line csv = export_header_text /\
    List.length (export_header) = 16.
Proof.
  apply (csv_export_layout float_repr_17 cfg_default (lit "7") (lit "mL/h")).
  - unfold registry. simpl. tauto.
  - vm_compute. discriminate.
Defined.

(** C6, the claim as written, fails: for the one-line input "1" the first line
    of the exported file is not the header [Input, Input Unit, <unit> (fmt)...];
    it has the seven numeric columns too. *)
Lemma csv_header_not_show_cols :
  match fst (convert_batch float_repr_17 cfg_default (lit "1") (lit "L/min")) with
  | [Dataframe _; DownloadButton csv] =>
      first_line csv <> join (lit ",") show_cols /\
      first_line csv <> join (lit ", ") show_cols /\
      first_line csv = export_header_text
  | _ => False
  end.
Proof. vm_compute. repeat split; discriminate. Qed.

(** C7, as the code has it. Text that is empty or only whitespace does not
    enter the batch block: nothing is shown, no message either. Text with at
    least one visible character and no value shows the warnings and then the
    message "No valid numeric lines found."; a table is shown only when there
    is a value. *)
Theorem batch_without_values (float_repr : float -> str) (cfg : FormatConfig)
    (raw batch_unit : str) :
  (strip raw = [] -> convert_batch float_repr cfg raw batch_unit = ([], Ok tt)) /\
  (strip raw <> [] -> expected_values (splitlines raw) = [] ->
   convert_batch float_repr cfg raw batch_unit =
     (expected_warnings (splitlines raw) ++ [Info (lit "No valid numeric lines found.")],
      Ok tt)) /\
  (forall df, In (Dataframe df) (fst (convert_batch float_repr cfg raw batch_unit)) ->
              expected_values (splitlines raw) <> []).
Proof.
  unfold convert_batch. split; [|split].
  - intros ->. reflexivity.
  - intros Hs Hv. destruct (strip raw); [congruence|].
    rewrite parse_lines_spec, Hv. reflexivity.
  - intros df. destruct (strip raw); [intros []|].
    rewrite parse_lines_spec. simpl app. fold (expected_warnings (splitlines raw)).
    assert (Hnw : ~ In (Dataframe df) (expected_warnings (splitlines raw))).
    { intros Hin. unfold expected_warnings in Hin.
      rewrite <- warnings_from_all_warnings in Hin.
      apply filter_In in Hin as [_ Hin]. discriminate. }
    destruct (expected_values (splitlines raw)) as [|v values].
    + simpl fst. intros Hin. apply in_app_or in Hin as [Hin | [Hin | []]]; [tauto | discriminate].
    + intros _. discriminate.
Qed.

Lemma batch_without_values_witness :
  convert_batch float_repr_17 cfg_default (lit "  ") (lit "L/min") = ([], Ok tt) /\
  convert_batch float_repr_17 cfg_default (lit "abc") (lit "L/min") =
    (expected_warnings (splitlines (lit "abc")) ++ [Info (lit "No valid numeric lines found.")],
     Ok tt).
Proof.
  split.
  - apply (proj1 (batch_without_values float_repr_17 cfg_default (lit "  ") (lit "L/min"))).
    reflexivity.
  - apply (proj1 (proj2 (batch_without_values float_repr_17 cfg_default (lit "abc") (lit "L/min")))).
    + vm_compute. discriminate.
    + reflexivity.
Defined.

(** C7, the claim as written, fails: whitespace-only text yields no value, and
    the block shows no message at all. *)
Lemma blank_batch_shows_no_info :
  expected_values (splitlines (lit "   ")) = [] /\
  ~ (exists msg, In (Info msg)
       (fst (convert_batch float_repr_17 cfg_default (lit "   ") (lit "L/min")))).
Proof.
  split; [reflexivity|]. intros [msg H]. exact H.
Qed.






(** ** Rounding error of one float operation

    The primitive operations are specified by [SpecFloat]: the exact result
    goes through [binary_round_aux], that is two right shifts with a rounding
    in between. The bounds below only use that a right shift drops low bits and
    that the rounding adds at most one unit; they give a relative error of at
    most 2^-52 on normal results, which is enough for the tolerance checked
    here. *)

Module Rounding.

Local Open Scope Z_scope.

Lemma shr_1_m mrs : 0 <= shr_m mrs -> shr_m (shr_1 mrs) = shr_m mrs / 2.
Proof.
  destruct mrs as [m r s]. simpl. intros Hm.
  destruct m as [|p|p]; [reflexivity| |lia].
  destruct p as [p|p|]; simpl.
  - rewrite Pos2Z.inj_xI. apply (Z.div_unique _ 2 _ 1); lia.
  - rewrite Pos2Z.inj_xO. apply (Z.div_unique _ 2 _ 0); lia.
  - reflexivity.
Qed.

Lemma iter_shr_1_m p : forall mrs,
  0 <= shr_m mrs -> shr_m (SpecFloat.iter_pos shr_1 p mrs) = shr_m mrs / 2 ^ Z.pos p.
Proof.
  induction p as [p IH|p IH|]; intros mrs Hm; simpl SpecFloat.iter_pos.
  - assert (H1 : 0 <= shr_m (shr_1 mrs)) by (rewrite shr_1_m by lia; apply Z.div_pos; lia).
    assert (H2 : 0 <= shr_m (SpecFloat.iter_pos shr_1 p (shr_1 mrs)))
      by (rewrite IH by lia; apply Z.div_pos; lia).
    rewrite IH, IH, shr_1_m by lia.
    rewrite !Z.div_div by lia. f_equal.
    replace (Z.pos p~1) with (1 + Z.pos p + Z.pos p) by lia.
    rewrite !Z.pow_add_r by lia. ring.
  - assert (H2 : 0 <= shr_m (SpecFloat.iter_pos shr_1 p mrs))
      by (rewrite IH by lia; apply Z.div_pos; lia).
    rewrite IH, IH by lia.
    rewrite !Z.div_div by lia. f_equal.
    replace (Z.pos p~0) with (Z.pos p + Z.pos p) by lia.
    rewrite !Z.pow_add_r by lia. ring.
  - rewrite shr_1_m by lia. reflexivity.
Qed.

(** A right shift by [n] places (none when [n <= 0]) divides the mantissa. *)
Lemma shr_spec mrs e n :
  0 <= shr_m mrs ->
  shr_m (fst (shr mrs e n)) = shr_m mrs / 2 ^ Z.max 0 n /\
  snd (shr mrs e n) = e + Z.max 0 n.
Proof.
  intros Hm. destruct n as [|p|p]; simpl.
  - rewrite Z.div_1_r. split; [reflexivity | lia].
  - rewrite iter_shr_1_m by lia. split; reflexivity.
  - rewrite Z.div_1_r. split; [reflexivity | lia].
Qed.

Lemma shr_record_of_loc_m m l : shr_m (shr_record_of_loc m l) = m.
Proof. destruct l as [|[]]; reflexivity. Qed.

Lemma round_nearest_even_range m l :
  round_nearest_even m l = m \/ round_nearest_even m l = m + 1.
Proof.
  unfold round_nearest_even. destruct l as [|[]]; auto. destruct (Z.even m); auto.
Qed.

Lemma digits2_size p : digits2_pos p = Pos.size p.
Proof. induction p; simpl; congruence. Qed.

Lemma Zdigits2_bounds m : 0 < m -> 2 ^ (Zdigits2 m - 1) <= m < 2 ^ Zdigits2 m.
Proof.
  destruct m as [|p|p]; try lia. intros _. unfold Zdigits2. rewrite digits2_size.
  pose proof (Pos.size_gt p) as Hgt. pose proof (Pos.size_le p) as Hle.
  assert (E : Z.pos (2 ^ Pos.size p) = 2 ^ Z.pos (Pos.size p))
    by (rewrite Pos2Z.inj_pow; reflexivity).
  assert (Hle' : Z.pos (2 ^ Pos.size p) <= Z.pos p~0) by exact Hle.
  assert (Hgt' : Z.pos p < Z.pos (2 ^ Pos.size p)) by exact Hgt.
  rewrite E in Hle', Hgt'. clear Hle Hgt E.
  split; [|exact Hgt'].
  replace (Z.pos (Pos.size p)) with (Z.succ (Z.pos (Pos.size p) - 1)) in Hle' by lia.
  rewrite Z.pow_succ_r in Hle' by lia. lia.
Qed.

Lemma Zdigits2_pos m : 0 < m -> 1 <= Zdigits2 m.
Proof. destruct m; simpl; lia. Qed.

Lemma Zdigits2_nonneg m : 0 <= Zdigits2 m.
Proof. destruct m; simpl; lia. Qed.

Lemma fexp64_eq e : fexp64 e = Z.max (e - 53) (-1074).
Proof. reflexivity. Qed.

Lemma binary_round_aux_steps sx mx ex lx :
  0 <= mx ->
  exists st : rounding_steps mx ex lx,
    binary_round_aux prec emax sx mx ex lx =
    match r_m2 _ _ _ st with
    | Z0 => S754_zero sx
    | Z.pos m => if (ex + r_n1 _ _ _ st + r_n2 _ _ _ st <=? emax - prec)
                 then S754_finite sx m (ex + r_n1 _ _ _ st + r_n2 _ _ _ st)
                 else S754_infinity sx
    | Z.neg _ => S754_nan
    end.
Proof.
  intros Hmx. unfold binary_round_aux, shr_fexp.
  set (mrs0 := shr_record_of_loc mx lx).
  assert (H0 : 0 <= shr_m mrs0) by (unfold mrs0; rewrite shr_record_of_loc_m; lia).
  pose proof (shr_spec mrs0 ex (fexp prec emax (Zdigits2 mx + ex) - ex) H0) as [Hm He].
  destruct (shr mrs0 ex (fexp prec emax (Zdigits2 mx + ex) - ex)) as [mrs' e'] eqn:E1.
  simpl in Hm, He. unfold mrs0 in Hm. rewrite shr_record_of_loc_m in Hm.
  set (r := round_nearest_even (shr_m mrs') (loc_of_shr_record mrs')).
  assert (Hr : r = shr_m mrs' \/ r = shr_m mrs' + 1) by apply round_nearest_even_range.
  assert (Hm' : 0 <= shr_m mrs') by (rewrite Hm; apply Z.div_pos; lia).
  assert (H1 : 0 <= shr_m (shr_record_of_loc r loc_Exact)) by (simpl; lia).
  pose proof (shr_spec (shr_record_of_loc r loc_Exact) e'
                (fexp prec emax (Zdigits2 r + e') - e') H1) as [Hm2 He2].
  destruct (shr (shr_record_of_loc r loc_Exact) e' (fexp prec emax (Zdigits2 r + e') - e'))
    as [mrs'' e''] eqn:E2.
  simpl in Hm2, He2.
  unshelve eexists.
  - refine {| r_n1 := Z.max 0 (fexp64 (Zdigits2 mx + ex) - ex);
              r_m0 := shr_m mrs'; r_m1 := r;
              r_n2 := Z.max 0 (fexp64 (Zdigits2 r + e') - e');
              r_m2 := shr_m mrs'' |}.
    + reflexivity.
    + exact Hm.
    + exact Hr.
    + rewrite He. reflexivity.
    + exact Hm2.
  - simpl. rewrite He2, He. reflexivity.
Qed.

Lemma steps_nonneg mx ex lx (st : rounding_steps mx ex lx) :
  0 <= mx ->
  0 <= r_n1 _ _ _ st /\ 0 <= r_n2 _ _ _ st /\ 0 <= r_m0 _ _ _ st /\ 0 <= r_m1 _ _ _ st /\
  0 <= r_m2 _ _ _ st.
Proof.
  intros Hmx. destruct st as [n1 m0 m1 n2 m2 Hn1 Hm0 Hm1 Hn2 Hm2]. cbn [r_n1 r_m0 r_m1 r_n2 r_m2].
  assert (0 <= n1) by lia. assert (0 <= n2) by lia.
  assert (0 <= m0) by (rewrite Hm0; apply Z.div_pos; lia).
  assert (0 <= m1) by lia.
  assert (0 <= m2) by (rewrite Hm2; apply Z.div_pos; lia).
  tauto.
Qed.

Lemma div_pow2_bounds a n : 0 <= a -> 0 <= n ->
  a / 2 ^ n * 2 ^ n <= a < (a / 2 ^ n + 1) * 2 ^ n.
Proof.
  intros Ha Hn. assert (Hp : 0 < 2 ^ n) by (apply Z.pow_pos_nonneg; lia).
  pose proof (Z.div_mod a (2 ^ n) ltac:(lia)) as Hdm.
  pose proof (Z.mod_pos_bound a (2 ^ n) Hp) as Hb. nia.
Qed.

(** Whatever the two shifts are, the result is within one unit of its last
    place of the exact value, which lies in [[mx, mx+1) * 2^ex]. *)
Lemma steps_bounds mx ex lx (st : rounding_steps mx ex lx) :
  0 <= mx ->
  let n := r_n1 _ _ _ st + r_n2 _ _ _ st in
  (r_m2 _ _ _ st - 1) * 2 ^ n <= mx /\ mx + 1 <= (r_m2 _ _ _ st + 1) * 2 ^ n.
Proof.
  intros Hmx. pose proof (steps_nonneg mx ex lx st Hmx) as (Hn1 & Hn2 & Hm0 & Hm1 & Hm2).
  destruct st as [n1 m0 m1 n2 m2 En1 Em0 Rm1 En2 Em2]. cbn [r_n1 r_m0 r_m1 r_n2 r_m2] in *.
  pose proof (div_pow2_bounds mx n1 Hmx Hn1) as B1. rewrite <- Em0 in B1.
  pose proof (div_pow2_bounds m1 n2 Hm1 Hn2) as B2. rewrite <- Em2 in B2.
  rewrite Z.pow_add_r by lia.
  assert (P1 : 0 < 2 ^ n1) by (apply Z.pow_pos_nonneg; lia).
  assert (P2 : 0 < 2 ^ n2) by (apply Z.pow_pos_nonneg; lia).
  clear En1 En2 Em0 Em2.
  set (A := 2 ^ n1) in *. set (B := 2 ^ n2) in *.
  split.
  - assert ((m2 * B - 1) * A <= mx) by nia. nia.
  - assert (m1 + 1 <= (m2 + 1) * B) by lia.
    assert (mx + 1 <= (m0 + 1) * A) by lia.
    assert ((m0 + 1) * A <= (m1 + 1) * A) by nia.
    assert ((m1 + 1) * A <= (m2 + 1) * B * A) by nia. lia.
Qed.

Lemma steps_exponent mx ex lx (st : rounding_steps mx ex lx) :
  -1074 <= ex + r_n1 _ _ _ st.
Proof.
  destruct st as [n1 m0 m1 n2 m2 En1 Em0 Rm1 En2 Em2]. cbn [r_n1 r_m0 r_m1 r_n2 r_m2].
  rewrite fexp64_eq in En1. lia.
Qed.

(** A zero result: the input is below the smallest subnormal. *)
Lemma steps_zero mx ex lx (st : rounding_steps mx ex lx) :
  0 <= mx -> r_m2 _ _ _ st = 0 ->
  mx < 2 ^ r_n1 _ _ _ st /\ (mx = 0 \/ r_n1 _ _ _ st = -1074 - ex).
Proof.
  intros Hmx Hz.
  pose proof (steps_nonneg mx ex lx st Hmx) as (Hn1 & Hn2 & Hm0 & Hm1 & Hm2).
  pose proof (steps_exponent mx ex lx st) as He.
  destruct st as [n1 m0 m1 n2 m2 En1 Em0 Rm1 En2 Em2]. cbn [r_n1 r_m0 r_m1 r_n2 r_m2] in *. rewrite Hz in Em2.
  assert (Z1 : m1 = 0).
  { destruct (Z.eq_dec m1 0) as [|Hne]; [assumption|]. exfalso.
    assert (Hpos : 0 < m1) by lia.
    pose proof (Zdigits2_bounds m1 Hpos) as [Hlo _].
    pose proof (Zdigits2_pos m1 Hpos) as Hd.
    pose proof (div_pow2_bounds m1 n2 Hm1 Hn2) as [_ Hup]. rewrite <- Em2 in Hup.
    replace ((0 + 1) * 2 ^ n2) with (2 ^ n2) in Hup by ring.
    assert (Hlt : 2 ^ (Zdigits2 m1 - 1) < 2 ^ n2) by lia.
    apply Z.pow_lt_mono_r_iff in Hlt; [|lia|lia].
    rewrite fexp64_eq in En2. lia. }
  assert (Z0 : m0 = 0) by lia.
  pose proof (div_pow2_bounds mx n1 Hmx Hn1) as [_ Hup]. rewrite <- Em0, Z0 in Hup.
  replace ((0 + 1) * 2 ^ n1) with (2 ^ n1) in Hup by ring.
  split; [exact Hup|].
  destruct (Z.eq_dec mx 0) as [|Hne]; [now left | right].
  assert (Hpos : 0 < mx) by lia.
  pose proof (Zdigits2_bounds mx Hpos) as [Hlo _].
  pose proof (Zdigits2_pos mx Hpos) as Hd.
  assert (Hlt : 2 ^ (Zdigits2 mx - 1) < 2 ^ n1) by lia.
  apply Z.pow_lt_mono_r_iff in Hlt; [|lia|lia].
  rewrite fexp64_eq in En1. lia.
Qed.

(** The quotient and exponent handed to the rounding by the division. *)
Lemma div_core_spec (m1 m2 : positive) e1 e2 :
  exists q e' l s,
    SFdiv_core_binary prec emax (Z.pos m1) e1 (Z.pos m2) e2 = (q, e', l) /\
    0 <= s /\ e1 - e2 = e' + s /\ e' <= fexp64 (Zdigits2 (Z.pos m1) + e1 - (Zdigits2 (Z.pos m2) + e2)) /\
    (s = 0 \/ e' = fexp64 (Zdigits2 (Z.pos m1) + e1 - (Zdigits2 (Z.pos m2) + e2))) /\
    0 <= q /\
    q * Z.pos m2 <= Z.pos m1 * 2 ^ s < (q + 1) * Z.pos m2.
Proof.
  unfold SFdiv_core_binary.
  set (e' := Z.min (fexp prec emax (Zdigits2 (Z.pos m1) + e1 - (Zdigits2 (Z.pos m2) + e2))) (e1 - e2)).
  set (s := e1 - e2 - e').
  assert (Hs : 0 <= s) by (unfold s, e'; lia).
  set (m' := match s with Z.pos _ => Z.shiftl (Z.pos m1) s | Z0 => Z.pos m1 | Z.neg _ => 0 end).
  assert (Hm' : m' = Z.pos m1 * 2 ^ s).
  { unfold m'. destruct s as [|p|p]; [simpl; lia | | lia].
    rewrite Z.shiftl_mul_pow2 by lia. reflexivity. }
  pose proof (Z.div_eucl_eq m' (Z.pos m2) ltac:(lia)) as Hdm.
  pose proof (Z.mod_pos_bound m' (Z.pos m2) ltac:(lia)) as Hb.
  unfold Z.modulo in Hb.
  destruct (Z.div_eucl m' (Z.pos m2)) as [q r] eqn:E.
  exists q, e', (new_location (Z.pos m2) r), s.
  split; [reflexivity|]. split; [exact Hs|]. split; [unfold s; lia|].
  split; [unfold e', fexp64; lia|].
  split; [unfold s, e', fexp64; lia|].
  assert (Hm'pos : 0 < m') by (rewrite Hm'; apply Z.mul_pos_pos; [lia | apply Z.pow_pos_nonneg; lia]).
  assert (Hq : 0 <= q) by nia.
  split; [exact Hq|]. rewrite <- Hm'. nia.
Qed.

Local Open Scope R_scope.

Lemma pow2_pos e : 0 < pow2 e.
Proof. apply powerRZ_lt. lra. Qed.

Lemma pow2_add a b : pow2 (a + b) = pow2 a * pow2 b.
Proof. apply powerRZ_add. lra. Qed.

Lemma pow2_IZR n : (0 <= n)%Z -> pow2 n = IZR (2 ^ n).
Proof.
  intros Hn. unfold pow2. rewrite <- (Z2Nat.id n Hn) at 1.
  rewrite <- pow_powerRZ. rewrite pow_IZR. now rewrite Z2Nat.id.
Qed.

Lemma pow2_le a b : (a <= b)%Z -> pow2 a <= pow2 b.
Proof.
  intros H. replace b with (a + (b - a))%Z by lia. rewrite pow2_add.
  rewrite (pow2_IZR (b - a)) by lia.
  assert (1 <= IZR (2 ^ (b - a))).
  { apply IZR_le. assert (0 < 2 ^ (b - a))%Z by (apply Z.pow_pos_nonneg; lia). lia. }
  pose proof (pow2_pos a). nra.
Qed.

Lemma pow2_neg n : (0 <= n)%Z -> pow2 (- n) = / IZR (2 ^ n).
Proof.
  intros Hn. assert (H : pow2 (- n) * pow2 n = 1).
  { rewrite <- pow2_add. replace (- n + n)%Z with 0%Z by lia. reflexivity. }
  rewrite (pow2_IZR n Hn) in H.
  assert (0 < IZR (2 ^ n)) by (rewrite <- pow2_IZR by lia; apply pow2_pos).
  apply (Rmult_eq_reg_r (IZR (2 ^ n))); [|lra].
  rewrite H. field. lra.
Qed.

Lemma round_finite_bounds sx mx ex lx s m e v :
  (0 <= mx)%Z ->
  binary_round_aux prec emax sx mx ex lx = S754_finite s m e ->
  IZR mx * pow2 ex <= v < IZR (mx + 1) * pow2 ex ->
  s = sx /\ (ex <= e)%Z /\
  (IZR (Z.pos m) - 1) * pow2 e <= v < (IZR (Z.pos m) + 1) * pow2 e.
Proof.
  intros Hmx Hr [Hlo Hhi].
  destruct (binary_round_aux_steps sx mx ex lx Hmx) as [st Hst]. rewrite Hst in Hr.
  pose proof (steps_bounds mx ex lx st Hmx) as [B1 B2].
  pose proof (steps_nonneg mx ex lx st Hmx) as (Hn1 & Hn2 & _).
  destruct (r_m2 mx ex lx st) as [|p|p] eqn:Em2; [discriminate| |discriminate].
  destruct (ex + r_n1 mx ex lx st + r_n2 mx ex lx st <=? emax - prec)%Z; [|discriminate].
  injection Hr as <- <- <-.
  set (n := (r_n1 mx ex lx st + r_n2 mx ex lx st)%Z) in *.
  assert (Hn : (0 <= n)%Z) by (unfold n; lia).
  split; [reflexivity|]. split; [lia|].
  replace (ex + r_n1 mx ex lx st + r_n2 mx ex lx st)%Z with (n + ex)%Z by (unfold n; lia).
  rewrite pow2_add, (pow2_IZR n Hn).
  apply IZR_le in B1, B2. rewrite mult_IZR in B1, B2.
  rewrite minus_IZR in B1. rewrite !plus_IZR in B2. rewrite plus_IZR in Hhi.
  pose proof (pow2_pos ex) as Hp.
  assert (Hq : 0 < IZR (2 ^ n)) by (rewrite <- pow2_IZR by lia; apply pow2_pos).
  split.
  - apply Rle_trans with (IZR mx * pow2 ex); [|exact Hlo].
    replace ((IZR (Z.pos p) - 1) * (IZR (2 ^ n) * pow2 ex))
      with ((IZR (Z.pos p) - 1) * IZR (2 ^ n) * pow2 ex) by ring.
    apply Rmult_le_compat_r; lra.
  - apply Rlt_le_trans with ((IZR mx + 1) * pow2 ex); [exact Hhi|].
    replace ((IZR (Z.pos p) + 1) * (IZR (2 ^ n) * pow2 ex))
      with ((IZR (Z.pos p) + 1) * IZR (2 ^ n) * pow2 ex) by ring.
    apply Rmult_le_compat_r; lra.
Qed.

Lemma round_zero_bound sx mx ex lx s v :
  (0 <= mx)%Z ->
  binary_round_aux prec emax sx mx ex lx = S754_zero s ->
  v < IZR (mx + 1) * pow2 ex ->
  (mx = 0)%Z \/ v < pow2 (-1074).
Proof.
  intros Hmx Hr Hhi.
  destruct (binary_round_aux_steps sx mx ex lx Hmx) as [st Hst]. rewrite Hst in Hr.
  pose proof (steps_nonneg mx ex lx st Hmx) as (Hn1 & Hn2 & _).
  destruct (r_m2 mx ex lx st) as [|p|p] eqn:Em2.
  - destruct (steps_zero mx ex lx st Hmx Em2) as [Hlt [Hz | Hn]]; [now left | right].
    apply Rlt_le_trans with (1 := Hhi).
    replace (-1074)%Z with (r_n1 mx ex lx st + ex)%Z by lia.
    rewrite pow2_add, (pow2_IZR _ Hn1).
    apply Rmult_le_compat_r; [apply Rlt_le, pow2_pos|]. apply IZR_le. lia.
  - destruct (_ <=? _)%Z; discriminate.
  - discriminate.
Qed.

(** ** Primitive floats through their specification *)

Lemma valid_range m e :
  SpecFloat.bounded prec emax m e = true ->
  (-1074 <= e <= 971)%Z /\ (Z.pos m < 2 ^ 53)%Z /\
  (e = -1074 \/ 2 ^ 52 <= Z.pos m)%Z /\
  ((2 ^ 52 <= Z.pos m)%Z -> Zdigits2 (Z.pos m) = 53%Z).
Proof.
  unfold SpecFloat.bounded, canonical_mantissa. intros H.
  apply andb_true_iff in H as [Hc He]. apply Z.eqb_eq in Hc. apply Z.leb_le in He.
  change (fexp prec emax) with fexp64 in Hc. rewrite fexp64_eq in Hc.
  change (emax - prec)%Z with 971%Z in He.
  change (Z.pos (digits2_pos m)) with (Zdigits2 (Z.pos m)) in Hc.
  pose proof (Zdigits2_bounds (Z.pos m) ltac:(lia)) as [Hlo Hhi].
  pose proof (Zdigits2_pos (Z.pos m) ltac:(lia)) as Hd1.
  set (d := Zdigits2 (Z.pos m)) in *.
  assert (Hd : (d <= 53)%Z) by lia.
  assert (Hm53 : (Z.pos m < 2 ^ 53)%Z).
  { apply Z.lt_le_trans with (1 := Hhi). apply Z.pow_le_mono_r; lia. }
  split; [lia|]. split; [exact Hm53|]. split.
  - destruct (Z.eq_dec e (-1074)) as [|Hne]; [now left | right].
    assert (d = 53%Z) by lia. subst d. rewrite H in Hlo. exact Hlo.
  - intros H52. assert (Hlt : (2 ^ 52 < 2 ^ d)%Z) by lia.
    apply Z.pow_lt_mono_r_iff in Hlt; lia.
Qed.

Lemma float_valid x s m e :
  Prim2SF x = S754_finite s m e -> SpecFloat.bounded prec emax m e = true.
Proof.
  intros H. pose proof (Prim2SF_valid x) as Hv. rewrite H in Hv. exact Hv.
Qed.

Lemma pow2_52 : pow2 52 = 4503599627370496.
Proof. rewrite pow2_IZR by lia. reflexivity. Qed.

Lemma normal_of_value m e :
  SpecFloat.bounded prec emax m e = true ->
  pow2 (-1022) <= IZR (Z.pos m) * pow2 e -> (2 ^ 52 <= Z.pos m)%Z.
Proof.
  intros Hv Hb. destruct (valid_range m e Hv) as (_ & _ & [-> | H] & _); [|exact H].
  replace (-1022)%Z with (52 + -1074)%Z in Hb by lia. rewrite pow2_add in Hb.
  pose proof (pow2_pos (-1074)) as Hp.
  apply le_IZR. rewrite <- pow2_IZR by lia. nra.
Qed.

Lemma normal_value x m e :
  Prim2SF x = S754_finite false m e -> (2 ^ 52 <= Z.pos m)%Z ->
  F2R x = IZR (Z.pos m) * pow2 e /\ pow2 e <= F2R x * delta /\ pow2 (-1022) <= F2R x.
Proof.
  intros Hx Hm. unfold F2R. rewrite Hx. simpl SF2R. rewrite Rmult_1_l.
  destruct (valid_range m e (float_valid x _ _ _ Hx)) as (He & _).
  pose proof (pow2_pos e) as Hp. apply IZR_le in Hm.
  change (IZR (2 ^ 52)) with 4503599627370496 in Hm.
  split; [reflexivity|]. split.
  - unfold delta. nra.
  - replace (-1022)%Z with (52 + -1074)%Z by lia. rewrite pow2_add, pow2_52.
    assert (pow2 (-1074) <= pow2 e) by (apply pow2_le; lia).
    pose proof (pow2_pos (-1074)). nra.
Qed.

Lemma rel_bounds m e v :
  (2 ^ 52 <= Z.pos m)%Z ->
  (IZR (Z.pos m) - 1) * pow2 e <= v < (IZR (Z.pos m) + 1) * pow2 e ->
  IZR (Z.pos m) * pow2 e * (1 - delta) <= v <= IZR (Z.pos m) * pow2 e * (1 + delta).
Proof.
  intros Hm [Hlo Hhi]. apply IZR_le in Hm.
  change (IZR (2 ^ 52)) with 4503599627370496 in Hm.
  pose proof (pow2_pos e) as Hp. unfold delta. split; nra.
Qed.

Lemma is_finite_SF x :
  is_finite x = match Prim2SF x with
                | S754_zero _ | S754_finite _ _ _ => true
                | _ => false
                end.
Proof.
  unfold is_finite, is_nan, is_infinity.
  rewrite !eqb_spec, abs_spec.
  change (Prim2SF infinity) with (S754_infinity false).
  destruct (Prim2SF x) as [s | s | | s m e]; try (destruct s; reflexivity); try reflexivity.
  unfold SFeqb, SFcompare, SFabs.
  destruct s; rewrite Z.compare_refl, Pos.compare_cont_refl; reflexivity.
Qed.

Lemma mul_finite_bounds a c sa ma ea mc ec s m e :
  Prim2SF a = S754_finite sa ma ea -> Prim2SF c = S754_finite false mc ec ->
  Prim2SF (a * c) = S754_finite s m e ->
  s = sa /\
  (IZR (Z.pos m) - 1) * pow2 e <= IZR (Z.pos ma) * pow2 ea * F2R c
    < (IZR (Z.pos m) + 1) * pow2 e.
Proof.
  intros Ha Hc Hr. rewrite mul_spec, Ha, Hc in Hr. unfold SF64mul, SFmul in Hr.
  unfold F2R. rewrite Hc. simpl SF2R. rewrite !Rmult_1_l.
  assert (Hv : IZR (Z.pos ma) * pow2 ea * (IZR (Z.pos mc) * pow2 ec) =
               IZR (Z.pos (ma * mc)) * pow2 (ea + ec)).
  { rewrite Pos2Z.inj_mul, mult_IZR, pow2_add. ring. }
  rewrite Hv.
  destruct (round_finite_bounds _ _ _ _ _ _ _ (IZR (Z.pos (ma * mc)) * pow2 (ea + ec))
              (Pos2Z.is_nonneg _) Hr) as (Hs & _ & Hb).
  - split; [apply Rle_refl|]. rewrite plus_IZR. pose proof (pow2_pos (ea + ec)). nra.
  - split; [rewrite Hs; now destruct sa | exact Hb].
Qed.

Lemma quotient_bounds ma ea mc ec q e' s :
  (0 <= s)%Z -> (ea - ec = e' + s)%Z ->
  (q * Z.pos mc <= Z.pos ma * 2 ^ s < (q + 1) * Z.pos mc)%Z ->
  IZR q * pow2 e' <= IZR (Z.pos ma) * pow2 ea / (IZR (Z.pos mc) * pow2 ec)
    < IZR (q + 1) * pow2 e'.
Proof.
  intros Hs He [Hlo Hhi].
  replace ea with (e' + s + ec)%Z by lia. rewrite !pow2_add, (pow2_IZR s Hs).
  pose proof (pow2_pos e') as Hp. pose proof (pow2_pos ec) as Hpc.
  assert (Hmc : 0 < IZR (Z.pos mc)) by (apply IZR_lt; lia).
  apply IZR_le in Hlo. apply IZR_lt in Hhi. rewrite !mult_IZR in Hlo, Hhi.
  replace (IZR (Z.pos ma) * (pow2 e' * IZR (2 ^ s) * pow2 ec) / (IZR (Z.pos mc) * pow2 ec))
    with (IZR (Z.pos ma) * IZR (2 ^ s) / IZR (Z.pos mc) * pow2 e') by (field; lra).
  set (t := IZR (Z.pos ma) * IZR (2 ^ s) / IZR (Z.pos mc)).
  assert (Ht : t * IZR (Z.pos mc) = IZR (Z.pos ma) * IZR (2 ^ s)) by (unfold t; field; lra).
  assert (Hq1 : IZR q <= t) by nra.
  assert (Hq2 : t < IZR (q + 1)) by nra.
  split.
  - apply Rmult_le_compat_r; lra.
  - apply Rmult_lt_compat_r; lra.
Qed.

Lemma div_finite_bounds a c sa ma ea mc ec s m e :
  Prim2SF a = S754_finite sa ma ea -> Prim2SF c = S754_finite false mc ec ->
  Prim2SF (a / c) = S754_finite s m e ->
  s = sa /\
  (IZR (Z.pos m) - 1) * pow2 e <= IZR (Z.pos ma) * pow2 ea / F2R c
    < (IZR (Z.pos m) + 1) * pow2 e.
Proof.
  intros Ha Hc Hr. rewrite div_spec, Ha, Hc in Hr. unfold SF64div, SFdiv in Hr.
  unfold F2R. rewrite Hc. simpl SF2R. rewrite !Rmult_1_l.
  destruct (div_core_spec ma mc ea ec) as (q & e' & l & sh & Hcore & Hsh & He & _ & _ & Hq & Hb).
  rewrite Hcore in Hr.
  destruct (round_finite_bounds _ _ _ _ _ _ _
              (IZR (Z.pos ma) * pow2 ea / (IZR (Z.pos mc) * pow2 ec)) Hq Hr) as (Hs & _ & Hbd).
  - now apply (quotient_bounds ma ea mc ec q e' sh).
  - split; [rewrite Hs; now destruct sa | exact Hbd].
Qed.

Lemma pos_normal_value x :
  pos_normal x -> pow2 (-1022) <= F2R x.
Proof.
  intros (m & e & Hx & Hm). now destruct (normal_value x m e Hx Hm) as (_ & _ & H).
Qed.

Lemma pow2_1074_small : pow2 (-1074) <= pow2 (-1022) * delta.
Proof.
  replace (-1074)%Z with (-1022 + - (52))%Z by lia. rewrite pow2_add.
  rewrite (pow2_neg 52) by lia. apply Rle_refl.
Qed.

Lemma delta_small : 0 < delta < / 1000.
Proof. unfold delta. lra. Qed.

(** Multiplying by a constant at most 1/2: a normal result comes from a
    normal operand. *)
Lemma mul_shrink a c :
  pos_normal c -> F2R c <= / 2 -> pos_normal (a * c) ->
  pos_normal a /\ within (F2R (a * c)) (F2R a * F2R c).
Proof.
  intros Hcn Hc2 (m & e & Hr & Hm).
  pose proof (pos_normal_value c Hcn) as Hcpos. pose proof (pow2_pos (-1022)) as Hp.
  destruct Hcn as (mc & ec & Hc & Hmc).
  destruct (Prim2SF a) as [sa | sa | | sa ma ea] eqn:Ha;
    try (rewrite mul_spec, Ha, Hc in Hr; discriminate).
  destruct (mul_finite_bounds a c sa ma ea mc ec false m e Ha Hc Hr) as (<- & Hb).
  destruct (normal_value _ m e Hr Hm) as (HR & _ & HRlo).
  apply (rel_bounds m e _ Hm) in Hb. rewrite <- HR in Hb.
  pose proof delta_small as Hd.
  assert (HA : pow2 (-1022) <= IZR (Z.pos ma) * pow2 ea).
  { assert (0 < IZR (Z.pos ma) * pow2 ea)
      by (apply Rmult_lt_0_compat; [apply IZR_lt; lia | apply pow2_pos]).
    nra. }
  pose proof (normal_of_value ma ea (float_valid a _ _ _ Ha) HA) as Hma.
  split; [now exists ma, ea|].
  assert (HAe : F2R a = IZR (Z.pos ma) * pow2 ea)
    by (unfold F2R; rewrite Ha; simpl; ring).
  unfold within. rewrite HAe. exact Hb.
Qed.

(** Dividing by a constant at least 2: the same. *)
Lemma div_shrink a c :
  pos_normal c -> 2 <= F2R c -> pos_normal (a / c) ->
  pos_normal a /\ within (F2R (a / c)) (F2R a / F2R c).
Proof.
  intros Hcn Hc2 (m & e & Hr & Hm).
  pose proof (pow2_pos (-1022)) as Hp.
  destruct Hcn as (mc & ec & Hc & Hmc).
  destruct (Prim2SF a) as [sa | sa | | sa ma ea] eqn:Ha;
    try (rewrite div_spec, Ha, Hc in Hr; discriminate).
  destruct (div_finite_bounds a c sa ma ea mc ec false m e Ha Hc Hr) as (<- & Hb).
  destruct (normal_value _ m e Hr Hm) as (HR & _ & HRlo).
  apply (rel_bounds m e _ Hm) in Hb. rewrite <- HR in Hb.
  pose proof delta_small as Hd.
  assert (HA : pow2 (-1022) <= IZR (Z.pos ma) * pow2 ea).
  { set (A := IZR (Z.pos ma) * pow2 ea) in *.
    assert (HA0 : 0 < A)
      by (apply Rmult_lt_0_compat; [apply IZR_lt; lia | apply pow2_pos]).
    assert (E : A = A / F2R c * F2R c) by (field; lra).
    destruct Hb as [Hb _]. set (t := A / F2R c) in *.
    assert (Ht : F2R (a / c) * (1 - delta) >= pow2 (-1022) * (1 - delta)) by nra.
    assert (Ht2 : pow2 (-1022) / 2 <= t) by nra.
    assert (Ht3 : 2 * t <= t * F2R c) by nra.
    lra. }
  pose proof (normal_of_value ma ea (float_valid a _ _ _ Ha) HA) as Hma.
  split; [now exists ma, ea|].
  assert (HAe : F2R a = IZR (Z.pos ma) * pow2 ea)
    by (unfold F2R; rewrite Ha; simpl; ring).
  unfold within. rewrite HAe. exact Hb.
Qed.

Lemma normal_result x m e v :
  Prim2SF x = S754_finite false m e ->
  2 * pow2 (-1022) <= v ->
  (IZR (Z.pos m) - 1) * pow2 e <= v < (IZR (Z.pos m) + 1) * pow2 e ->
  pos_normal x /\ within (F2R x) v.
Proof.
  intros Hx Hv Hb.
  assert (Hm : (2 ^ 52 <= Z.pos m)%Z).
  { destruct (valid_range m e (float_valid x _ _ _ Hx)) as (_ & _ & [-> | H] & _); [|exact H].
    replace (-1022)%Z with (52 + -1074)%Z in Hv by lia. rewrite pow2_add, pow2_52 in Hv.
    pose proof (pow2_pos (-1074)) as Hp. destruct Hb as [_ Hb].
    assert (Hlt : 4503599627370496 < IZR (Z.pos m) + 1) by nra.
    apply le_IZR. change (IZR (2 ^ 52)) with 4503599627370496.
    assert (Hz : (4503599627370496 < Z.pos m + 1)%Z)
      by (apply lt_IZR; rewrite plus_IZR; exact Hlt).
    apply IZR_le. lia. }
  split; [now exists m, e|].
  destruct (normal_value x m e Hx Hm) as (HR & _). unfold within. rewrite HR.
  now apply rel_bounds.
Qed.

(** Multiplying a normal operand by a constant at least 2: a finite result is
    normal. *)
Lemma mul_grow a c :
  pos_normal c -> 2 <= F2R c -> pos_normal a -> is_finite (a * c) = true ->
  pos_normal (a * c) /\ within (F2R (a * c)) (F2R a * F2R c).
Proof.
  intros Hcn Hc2 Han Hfin.
  pose proof (pos_normal_value a Han) as HA. pose proof (pow2_pos (-1022)) as Hp.
  destruct Hcn as (mc & ec & Hc & Hmc). destruct Han as (ma & ea & Ha & Hma).
  assert (Hv : 2 * pow2 (-1022) <= F2R a * F2R c) by nra.
  assert (HAe : F2R a = IZR (Z.pos ma) * pow2 ea)
    by (unfold F2R; rewrite Ha; simpl; ring).
  rewrite is_finite_SF in Hfin.
  destruct (Prim2SF (a * c)) as [s | s | | s m e] eqn:Hr; try discriminate.
  - exfalso. rewrite mul_spec, Ha, Hc in Hr. unfold SF64mul, SFmul in Hr.
    destruct (round_zero_bound _ _ _ _ _ (F2R a * F2R c) (Pos2Z.is_nonneg _) Hr) as [Hz | Hlt].
    + rewrite HAe. unfold F2R. rewrite Hc. simpl SF2R.
      rewrite plus_IZR, Pos2Z.inj_mul, mult_IZR, pow2_add.
      pose proof (pow2_pos ea). pose proof (pow2_pos ec). nra.
    + discriminate.
    + pose proof pow2_1074_small. pose proof delta_small. nra.
  - destruct (mul_finite_bounds a c false ma ea mc ec s m e Ha Hc Hr) as (-> & Hb).
    rewrite <- HAe in Hb. apply (normal_result (a * c) m e); assumption.
Qed.

Lemma mantissa_digits m : (2 ^ 52 <= Z.pos m < 2 ^ 53)%Z -> Zdigits2 (Z.pos m) = 53%Z.
Proof.
  intros [Hlo Hhi].
  pose proof (Zdigits2_bounds (Z.pos m) ltac:(lia)) as [Dlo Dhi].
  pose proof (Zdigits2_pos (Z.pos m) ltac:(lia)) as Hd.
  assert (H1 : (2 ^ 52 < 2 ^ Zdigits2 (Z.pos m))%Z) by lia.
  assert (H2 : (2 ^ (Zdigits2 (Z.pos m) - 1) < 2 ^ 53)%Z) by lia.
  apply Z.pow_lt_mono_r_iff in H1; [|lia|lia].
  apply Z.pow_lt_mono_r_iff in H2; [|lia|lia]. lia.
Qed.

(** Dividing a normal operand by a constant at most 1/2: the same. *)
Lemma div_grow a c :
  pos_normal c -> F2R c <= / 2 -> pos_normal a -> is_finite (a / c) = true ->
  pos_normal (a / c) /\ within (F2R (a / c)) (F2R a / F2R c).
Proof.
  intros Hcn Hc2 Han Hfin.
  pose proof (pos_normal_value a Han) as HA. pose proof (pos_normal_value c Hcn) as HC.
  pose proof (pow2_pos (-1022)) as Hp.
  destruct Hcn as (mc & ec & Hc & Hmc). destruct Han as (ma & ea & Ha & Hma).
  assert (Hv : 2 * pow2 (-1022) <= F2R a / F2R c).
  { assert (E : F2R a = F2R a / F2R c * F2R c) by (field; lra).
    assert (0 < F2R a / F2R c) by (apply Rdiv_lt_0_compat; lra). nra. }
  assert (HAe : F2R a = IZR (Z.pos ma) * pow2 ea)
    by (unfold F2R; rewrite Ha; simpl; ring).
  rewrite is_finite_SF in Hfin.
  destruct (Prim2SF (a / c)) as [s | s | | s m e] eqn:Hr; try discriminate.
  - exfalso. rewrite div_spec, Ha, Hc in Hr. unfold SF64div, SFdiv in Hr.
    destruct (div_core_spec ma mc ea ec)
      as (q & e' & l & sh & Hcore & Hsh & He & Hle & Hsel & Hq & Hb).
    rewrite Hcore in Hr.
    pose proof (quotient_bounds ma ea mc ec q e' sh Hsh He Hb) as [_ Hqb].
    assert (HCe : F2R c = IZR (Z.pos mc) * pow2 ec)
      by (unfold F2R; rewrite Hc; simpl; ring).
    rewrite <- HCe, <- HAe in Hqb.
    assert (Hsmall : F2R a / F2R c < pow2 (-1074)).
    { destruct (round_zero_bound _ _ _ _ _ (F2R a / F2R c) Hq Hr Hqb) as [Hz | Hlt];
        [|exact Hlt].
      subst q. simpl in Hqb. rewrite Rmult_1_l in Hqb.
      apply Rlt_le_trans with (1 := Hqb). apply pow2_le.
      destruct (valid_range ma ea (float_valid a _ _ _ Ha)) as (Hea & Hma53 & _ & Hda).
      destruct (valid_range mc ec (float_valid c _ _ _ Hc)) as (Hec & Hmc53 & _ & Hdc).
      rewrite (Hda Hma), (Hdc Hmc) in Hle, Hsel. rewrite fexp64_eq in Hle, Hsel.
      assert (Hsh0 : sh = 0%Z).
      { destruct (Z.eq_dec sh 0) as [|Hne]; [assumption|]. exfalso.
        assert (H2 : (2 ^ 1 <= 2 ^ sh)%Z) by (apply Z.pow_le_mono_r; lia).
        change (2 ^ 1)%Z with 2%Z in H2.
        assert (Hb2 : (Z.pos ma * 2 ^ sh < Z.pos mc)%Z) by lia.
        change (2 ^ 52)%Z with 4503599627370496%Z in Hma.
        change (2 ^ 53)%Z with 9007199254740992%Z in Hmc53.
        nia. }
      lia. }
    pose proof pow2_1074_small. pose proof delta_small. nra.
  - destruct (div_finite_bounds a c false ma ea mc ec s m e Ha Hc Hr) as (-> & Hb).
    rewrite <- HAe in Hb. apply (normal_result (a / c) m e); assumption.
Qed.

End Rounding.

(** ** The round trip through the base unit *)

Section RoundTrip.

Import Rounding.
Local Open Scope R_scope.

Lemma F2R_1000 : F2R 1000 = 1000.
Proof.
  unfold F2R. change (Prim2SF 1000) with (S754_finite false 8796093022208000 (-43)).
  unfold SF2R. change (pow2 (-43)) with (pow2 (- (43))). rewrite pow2_neg by lia.
  change (2 ^ 43)%Z with 8796093022208%Z. lra.
Qed.

Lemma F2R_60 : F2R 60 = 60.
Proof.
  unfold F2R. change (Prim2SF 60) with (S754_finite false 8444249301319680 (-47)).
  unfold SF2R. change (pow2 (-47)) with (pow2 (- (47))). rewrite pow2_neg by lia.
  change (2 ^ 47)%Z with 140737488355328%Z. lra.
Qed.

Lemma F2R_micro : F2R 1e-6 = 4722366482869645 / 4722366482869645213696.
Proof.
  unfold F2R. change (Prim2SF 1e-6) with (S754_finite false 4722366482869645 (-72)).
  unfold SF2R. change (pow2 (-72)) with (pow2 (- (72))). rewrite pow2_neg by lia.
  change (2 ^ 72)%Z with 4722366482869645213696%Z. lra.
Qed.

Lemma F2R_nano : F2R 1e-9 = 4835703278458517 / 4835703278458516698824704.
Proof.
  unfold F2R. change (Prim2SF 1e-9) with (S754_finite false 4835703278458517 (-82)).
  unfold SF2R. change (pow2 (-82)) with (pow2 (- (82))). rewrite pow2_neg by lia.
  change (2 ^ 82)%Z with 4835703278458516698824704%Z. lra.
Qed.

Lemma normal_1000 : pos_normal 1000.
Proof. exists 8796093022208000%positive, (-43)%Z. split; [reflexivity | lia]. Qed.

Lemma normal_60 : pos_normal 60.
Proof. exists 8444249301319680%positive, (-47)%Z. split; [reflexivity | lia]. Qed.

Lemma normal_micro : pos_normal 1e-6.
Proof. exists 4722366482869645%positive, (-72)%Z. split; [reflexivity | lia]. Qed.

Lemma normal_nano : pos_normal 1e-9.
Proof. exists 4835703278458517%positive, (-82)%Z. split; [reflexivity | lia]. Qed.

Lemma micro_roundtrip x :
  pos_normal (x * 1e-6) -> is_finite (x * 1e-6 / 1e-6) = true ->
  pos_normal x /\ pos_normal (x * 1e-6 / 1e-6) /\
  close_to (F2R x) (F2R (x * 1e-6 / 1e-6)).
Proof.
  intros Hb Hy.
  destruct (mul_shrink x 1e-6 normal_micro ltac:(rewrite F2R_micro; lra) Hb) as [Hx W1].
  destruct (div_grow (x * 1e-6) 1e-6 normal_micro ltac:(rewrite F2R_micro; lra) Hb Hy)
    as [Hyn W2].
  split; [exact Hx|]. split; [exact Hyn|].
  pose proof (pos_normal_value x Hx) as Px. pose proof (pow2_pos (-1022)) as Pp.
  unfold within in W1, W2. rewrite F2R_micro in W1, W2.
  unfold close_to, delta in *.
  set (X := F2R x) in *. set (B := F2R (x * 1e-6)) in *.
  set (Y := F2R (x * 1e-6 / 1e-6)) in *.
  split; lra.
Qed.

Lemma nano_roundtrip x :
  pos_normal (x * 1e-9) -> is_finite (x * 1e-9 / 1e-9) = true ->
  pos_normal x /\ pos_normal (x * 1e-9 / 1e-9) /\
  close_to (F2R x) (F2R (x * 1e-9 / 1e-9)).
Proof.
  intros Hb Hy.
  destruct (mul_shrink x 1e-9 normal_nano ltac:(rewrite F2R_nano; lra) Hb) as [Hx W1].
  destruct (div_grow (x * 1e-9) 1e-9 normal_nano ltac:(rewrite F2R_nano; lra) Hb Hy)
    as [Hyn W2].
  split; [exact Hx|]. split; [exact Hyn|].
  pose proof (pos_normal_value x Hx) as Px. pose proof (pow2_pos (-1022)) as Pp.
  unfold within in W1, W2. rewrite F2R_nano in W1, W2.
  unfold close_to, delta in *.
  set (X := F2R x) in *. set (B := F2R (x * 1e-9)) in *.
  set (Y := F2R (x * 1e-9 / 1e-9)) in *.
  split; lra.
Qed.

Lemma milli_roundtrip x :
  pos_normal (x / 1000) -> is_finite (x / 1000 * 1000) = true ->
  pos_normal x /\ pos_normal (x / 1000 * 1000) /\
  close_to (F2R x) (F2R (x / 1000 * 1000)).
Proof.
  intros Hb Hy.
  destruct (div_shrink x 1000 normal_1000 ltac:(rewrite F2R_1000; lra) Hb) as [Hx W1].
  destruct (mul_grow (x / 1000) 1000 normal_1000 ltac:(rewrite F2R_1000; lra) Hb Hy)
    as [Hyn W2].
  split; [exact Hx|]. split; [exact Hyn|].
  pose proof (pos_normal_value x Hx) as Px. pose proof (pow2_pos (-1022)) as Pp.
  unfold within in W1, W2. rewrite F2R_1000 in W1, W2.
  unfold close_to, delta in *.
  set (X := F2R x) in *. set (B := F2R (x / 1000)) in *.
  set (Y := F2R (x / 1000 * 1000)) in *.
  split; lra.
Qed.

Lemma hour_roundtrip x :
  pos_normal (x / 60) -> is_finite (x / 60 * 60) = true ->
  pos_normal x /\ pos_normal (x / 60 * 60) /\
  close_to (F2R x) (F2R (x / 60 * 60)).
Proof.
  intros Hb Hy.
  destruct (div_shrink x 60 normal_60 ltac:(rewrite F2R_60; lra) Hb) as [Hx W1].
  destruct (mul_grow (x / 60) 60 normal_60 ltac:(rewrite F2R_60; lra) Hb Hy)
    as [Hyn W2].
  split; [exact Hx|]. split; [exact Hyn|].
  pose proof (pos_normal_value x Hx) as Px. pose proof (pow2_pos (-1022)) as Pp.
  unfold within in W1, W2. rewrite F2R_60 in W1, W2.
  unfold close_to, delta in *.
  set (X := F2R x) in *. set (B := F2R (x / 60)) in *.
  set (Y := F2R (x / 60 * 60)) in *.
  split; lra.
Qed.

(** An operation with a finite result had a finite operand. *)
Lemma mul_operand_finite p c :
  pos_normal c -> is_finite (p * c) = true -> is_finite p = true.
Proof.
  intros (mc & ec & Hc & _). rewrite !is_finite_SF, mul_spec, Hc.
  destruct (Prim2SF p); simpl; congruence.
Qed.

Lemma div_operand_finite p c :
  pos_normal c -> is_finite (p / c) = true -> is_finite p = true.
Proof.
  intros (mc & ec & Hc & _). rewrite !is_finite_SF, div_spec, Hc.
  destruct (Prim2SF p); simpl; congruence.
Qed.

Lemma milli_hour_roundtrip x :
  pos_normal (x / 1000 / 60) -> is_finite (x / 1000 / 60 * 60 * 1000) = true ->
  pos_normal x /\ pos_normal (x / 1000 / 60 * 60 * 1000) /\
  close_to (F2R x) (F2R (x / 1000 / 60 * 60 * 1000)).
Proof.
  intros Hb Hy.
  pose proof (mul_operand_finite _ _ normal_1000 Hy) as Hp.
  destruct (div_shrink (x / 1000) 60 normal_60 ltac:(rewrite F2R_60; lra) Hb) as [Ha W2].
  destruct (div_shrink x 1000 normal_1000 ltac:(rewrite F2R_1000; lra) Ha) as [Hx W1].
  destruct (mul_grow (x / 1000 / 60) 60 normal_60 ltac:(rewrite F2R_60; lra) Hb Hp)
    as [Hpn W3].
  destruct (mul_grow (x / 1000 / 60 * 60) 1000 normal_1000 ltac:(rewrite F2R_1000; lra) Hpn Hy)
    as [Hyn W4].
  split; [exact Hx|]. split; [exact Hyn|].
  pose proof (pos_normal_value x Hx) as Px. pose proof (pow2_pos (-1022)) as Pp.
  unfold within in W1, W2, W3, W4.
  rewrite F2R_60 in W2, W3. rewrite F2R_1000 in W1, W4.
  unfold close_to, delta in *.
  set (X := F2R x) in *. set (A := F2R (x / 1000)) in *.
  set (B := F2R (x / 1000 / 60)) in *. set (P := F2R (x / 1000 / 60 * 60)) in *.
  set (Y := F2R (x / 1000 / 60 * 60 * 1000)) in *.
  split; lra.
Qed.

Lemma micro_hour_roundtrip x :
  pos_normal (x * 1e-6 / 60) -> is_finite (x * 1e-6 / 60 * 60 / 1e-6) = true ->
  pos_normal x /\ pos_normal (x * 1e-6 / 60 * 60 / 1e-6) /\
  close_to (F2R x) (F2R (x * 1e-6 / 60 * 60 / 1e-6)).
Proof.
  intros Hb Hy.
  pose proof (div_operand_finite _ _ normal_micro Hy) as Hp.
  destruct (div_shrink (x * 1e-6) 60 normal_60 ltac:(rewrite F2R_60; lra) Hb) as [Ha W2].
  destruct (mul_shrink x 1e-6 normal_micro ltac:(rewrite F2R_micro; lra) Ha) as [Hx W1].
  destruct (mul_grow (x * 1e-6 / 60) 60 normal_60 ltac:(rewrite F2R_60; lra) Hb Hp)
    as [Hpn W3].
  destruct (div_grow (x * 1e-6 / 60 * 60) 1e-6 normal_micro ltac:(rewrite F2R_micro; lra) Hpn Hy)
    as [Hyn W4].
  split; [exact Hx|]. split; [exact Hyn|].
  pose proof (pos_normal_value x Hx) as Px. pose proof (pow2_pos (-1022)) as Pp.
  unfold within in W1, W2, W3, W4.
  rewrite F2R_60 in W2, W3. rewrite F2R_micro in W1, W4.
  unfold close_to, delta in *.
  set (X := F2R x) in *. set (A := F2R (x * 1e-6)) in *.
  set (B := F2R (x * 1e-6 / 60)) in *. set (P := F2R (x * 1e-6 / 60 * 60)) in *.
  set (Y := F2R (x * 1e-6 / 60 * 60 / 1e-6)) in *.
  split; lra.
Qed.

(** *** From the real bounds back to [isclose_rel] *)

Lemma units_R x m e :
  Prim2SF x = S754_finite false m e -> IZR (PyFloat.units x) = F2R x * pow2 1074.
Proof.
  intros Hx. unfold PyFloat.units, F2R. rewrite Hx. simpl SF2R.
  destruct (valid_range m e (float_valid x _ _ _ Hx)) as (He & _).
  rewrite Z.mul_1_l, mult_IZR, <- pow2_IZR by lia. rewrite pow2_add. ring.
Qed.

Lemma isclose_of_close x y :
  pos_normal x -> pos_normal y -> close_to (F2R x) (F2R y) ->
  PyFloat.isclose_rel x y = true.
Proof.
  intros Hxn Hyn [Hlo Hhi].
  pose proof (pos_normal_value x Hxn) as Px. pose proof (pow2_pos (-1022)) as Pp.
  destruct Hxn as (mx & ex & Hx & _). destruct Hyn as (my & ey & Hy & _).
  unfold PyFloat.isclose_rel. rewrite !is_finite_SF, Hx, Hy. simpl andb.
  apply Z.leb_le. apply le_IZR.
  rewrite mult_IZR, !abs_IZR, minus_IZR, (units_R x mx ex Hx), (units_R y my ey Hy).
  change (IZR (10 ^ 9)) with 1000000000.
  pose proof (pow2_pos 1074) as P.
  set (X := F2R x) in *. set (Y := F2R y) in *. set (S := pow2 1074) in *.
  assert (HX : 0 <= X * S) by nra.
  rewrite (Rabs_pos_eq (X * S)) by exact HX.
  replace (Y * S - X * S) with ((Y - X) * S) by ring.
  rewrite Rabs_mult, (Rabs_pos_eq S) by lra.
  assert (HD : Rabs (Y - X) * 1000000000 <= X).
  { unfold Rabs. destruct (Rcase_abs (Y - X)); lra. }
  nra.
Qed.

Lemma isclose_zero x y s s' :
  Prim2SF x = S754_zero s -> Prim2SF y = S754_zero s' -> PyFloat.isclose_rel x y = true.
Proof.
  intros Hx Hy. unfold PyFloat.isclose_rel, PyFloat.units.
  rewrite !is_finite_SF, Hx, Hy. reflexivity.
Qed.

Lemma isclose_same x : is_finite x = true -> PyFloat.isclose_rel x x = true.
Proof.
  intros H. unfold PyFloat.isclose_rel. rewrite H, Z.sub_diag. simpl.
  apply Z.leb_le. apply Z.abs_nonneg.
Qed.

Lemma eqb_zero x : (x =? 0)%float = true -> exists s, Prim2SF x = S754_zero s.
Proof.
  rewrite eqb_spec. change (Prim2SF 0) with (S754_zero false).
  destruct (Prim2SF x) as [s | s | | s m e]; try discriminate.
  - intros _. now exists s.
  - destruct s; discriminate.
  - destruct s; discriminate.
Qed.

Lemma mul_zero a c s :
  Prim2SF a = S754_zero s -> pos_normal c -> Prim2SF (a * c) = S754_zero s.
Proof.
  intros Ha (mc & ec & Hc & _). rewrite mul_spec, Ha, Hc. simpl. now destruct s.
Qed.

Lemma div_zero a c s :
  Prim2SF a = S754_zero s -> pos_normal c -> Prim2SF (a / c) = S754_zero s.
Proof.
  intros Ha (mc & ec & Hc & _). rewrite div_spec, Ha, Hc. simpl. now destruct s.
Qed.

(** A finite float that compares at least 2^-1022 is a positive normal. *)
Lemma normal_base b :
  (0x1p-1022 <=? b)%float = true -> is_finite b = true -> pos_normal b.
Proof.
  rewrite leb_spec, is_finite_SF.
  change (Prim2SF 0x1p-1022) with (S754_finite false 4503599627370496 (-1074)).
  destruct (Prim2SF b) as [s | s | | s m e] eqn:Hb;
    try (intros H1 H2; discriminate H1); try (intros H1 H2; discriminate H2).
  intros Hle _. exists m, e.
  destruct s; [discriminate Hle|]. split; [exact Hb|].
  unfold SFleb, SFcompare in Hle.
  destruct (valid_range m e (float_valid b _ _ _ Hb)) as (He & _ & Hn & _).
  destruct (Z.compare_spec (-1074) e) as [E | E | E].
  - fold (Pos.compare 4503599627370496 m) in Hle.
    destruct (Pos.compare_spec 4503599627370496 m) as [C | C | C];
      try discriminate Hle; change (2 ^ 52)%Z with 4503599627370496%Z; lia.
  - destruct Hn as [Hn | Hn]; [lia | exact Hn].
  - discriminate Hle.
Qed.

Lemma roundtrip_identity : roundtrip_ok (fun x => x) (fun x => x).
Proof. intros x Hx _ _. now apply isclose_same. Qed.

Lemma roundtrip_milli : roundtrip_ok (fun x => x / 1000)%float (fun b => b * 1000)%float.
Proof.
  intros x Hx [Hz | Hb] Hy.
  - destruct (eqb_zero x Hz) as [s Hs].
    apply (isclose_zero x _ s s Hs).
    apply mul_zero; [|exact normal_1000]. apply div_zero; [exact Hs | exact normal_1000].
  - pose proof (mul_operand_finite _ _ normal_1000 Hy) as Hbf.
    destruct (milli_roundtrip x (normal_base _ Hb Hbf) Hy) as (Hxn & Hyn & Hc).
    now apply isclose_of_close.
Qed.

Lemma roundtrip_micro : roundtrip_ok (fun x => x * 1e-6)%float (fun b => b / 1e-6)%float.
Proof.
  intros x Hx [Hz | Hb] Hy.
  - destruct (eqb_zero x Hz) as [s Hs].
    apply (isclose_zero x _ s s Hs).
    apply div_zero; [|exact normal_micro]. apply mul_zero; [exact Hs | exact normal_micro].
  - pose proof (div_operand_finite _ _ normal_micro Hy) as Hbf.
    destruct (micro_roundtrip x (normal_base _ Hb Hbf) Hy) as (Hxn & Hyn & Hc).
    now apply isclose_of_close.
Qed.

Lemma roundtrip_nano : roundtrip_ok (fun x => x * 1e-9)%float (fun b => b / 1e-9)%float.
Proof.
  intros x Hx [Hz | Hb] Hy.
  - destruct (eqb_zero x Hz) as [s Hs].
    apply (isclose_zero x _ s s Hs).
    apply div_zero; [|exact normal_nano]. apply mul_zero; [exact Hs | exact normal_nano].
  - pose proof (div_operand_finite _ _ normal_nano Hy) as Hbf.
    destruct (nano_roundtrip x (normal_base _ Hb Hbf) Hy) as (Hxn & Hyn & Hc).
    now apply isclose_of_close.
Qed.

Lemma roundtrip_hour : roundtrip_ok (fun x => x / 60)%float (fun b => b * 60)%float.
Proof.
  intros x Hx [Hz | Hb] Hy.
  - destruct (eqb_zero x Hz) as [s Hs].
    apply (isclose_zero x _ s s Hs).
    apply mul_zero; [|exact normal_60]. apply div_zero; [exact Hs | exact normal_60].
  - pose proof (mul_operand_finite _ _ normal_60 Hy) as Hbf.
    destruct (hour_roundtrip x (normal_base _ Hb Hbf) Hy) as (Hxn & Hyn & Hc).
    now apply isclose_of_close.
Qed.

Lemma roundtrip_milli_hour :
  roundtrip_ok (fun x => x / 1000 / 60)%float (fun b => b * 60 * 1000)%float.
Proof.
  intros x Hx [Hz | Hb] Hy.
  - destruct (eqb_zero x Hz) as [s Hs].
    apply (isclose_zero x _ s s Hs).
    apply mul_zero; [|exact normal_1000]. apply mul_zero; [|exact normal_60].
    apply div_zero; [|exact normal_60]. apply div_zero; [exact Hs | exact normal_1000].
  - pose proof (mul_operand_finite _ _ normal_1000 Hy) as Hpf.
    pose proof (mul_operand_finite _ _ normal_60 Hpf) as Hbf.
    destruct (milli_hour_roundtrip x (normal_base _ Hb Hbf) Hy) as (Hxn & Hyn & Hc).
    now apply isclose_of_close.
Qed.

Lemma roundtrip_micro_hour :
  roundtrip_ok (fun x => x * 1e-6 / 60)%float (fun b => b * 60 / 1e-6)%float.
Proof.
  intros x Hx [Hz | Hb] Hy.
  - destruct (eqb_zero x Hz) as [s Hs].
    apply (isclose_zero x _ s s Hs).
    apply div_zero; [|exact normal_micro]. apply mul_zero; [|exact normal_60].
    apply div_zero; [|exact normal_60]. apply mul_zero; [exact Hs | exact normal_micro].
  - pose proof (div_operand_finite _ _ normal_micro Hy) as Hpf.
    pose proof (mul_operand_finite _ _ normal_60 Hpf) as Hbf.
    destruct (micro_hour_roundtrip x (normal_base _ Hb Hbf) Hy) as (Hxn & Hyn & Hc).
    now apply isclose_of_close.
Qed.

End RoundTrip.

(** C2, as the code has it. For every unit of the registry (aliases included)
    and every finite non-negative [x], the round trip [from_base (to_base x)]
    is within [1e-9] of [x], relative to [x], provided the conversion neither
    underflows nor overflows: [x] is zero or its base value is at least the
    smallest normal double [2^-1022], and the value that comes back is finite. *)
Theorem roundtrip_within_tolerance (k : str) (x : float) :
  In k registry ->
  is_finite x = true -> (0 <=? x)%float = true ->
  let b := to_base_fn k x in
  let y := from_base_fn k b in
  (exists u, getitem UNITS k = Ok u /\ to_base u x = Ok b /\ from_base u b = Ok y) /\
  ((x =? 0)%float = true \/ (0x1p-1022 <=? b)%float = true ->
   is_finite y = true ->
   PyFloat.isclose_rel x y = true).
Proof.
  intros Hk Hfin _. revert k Hk. apply registry_cases; cbv zeta;
    (split; [eexists; repeat split; reflexivity|]); intros H1 H2.
  - exact (roundtrip_identity x Hfin H1 H2).
  - exact (roundtrip_milli x Hfin H1 H2).
  - exact (roundtrip_micro x Hfin H1 H2).
  - exact (roundtrip_micro x Hfin H1 H2).
  - exact (roundtrip_nano x Hfin H1 H2).
  - exact (roundtrip_hour x Hfin H1 H2).
  - exact (roundtrip_milli_hour x Hfin H1 H2).
  - exact (roundtrip_micro_hour x Hfin H1 H2).
  - exact (roundtrip_micro_hour x Hfin H1 H2).
Qed.

Lemma roundtrip_within_tolerance_witness :
  PyFloat.isclose_rel 2.5 (from_base_fn (lit "nL/min") (to_base_fn (lit "nL/min") 2.5)) = true.
Proof.
  assert (Hk : In (lit "nL/min") registry) by (unfold registry; simpl; tauto).
  apply (proj2 (roundtrip_within_tolerance (lit "nL/min") 2.5 Hk eq_refl eq_refl)).
  - right. reflexivity.
  - reflexivity.
Defined.

(** C2, the claim as written, fails at both ends of the range: the smallest
    positive double, converted as mL/min, comes back as 0; the largest finite
    double, converted as L/h, comes back as infinity. *)
Lemma roundtrip_fails_at_extremes :
  (is_finite 0x1p-1074 = true /\ (0 <=? 0x1p-1074)%float = true /\
   from_base_fn (lit "mL/min") (to_base_fn (lit "mL/min") 0x1p-1074) = 0%float /\
   PyFloat.isclose_rel 0x1p-1074
     (from_base_fn (lit "mL/min") (to_base_fn (lit "mL/min") 0x1p-1074)) = false) /\
  (is_finite 0x1.fffffffffffffp+1023 = true /\
   (0 <=? 0x1.fffffffffffffp+1023)%float = true /\
   from_base_fn (lit "L/h") (to_base_fn (lit "L/h") 0x1.fffffffffffffp+1023) = infinity /\
   PyFloat.isclose_rel 0x1.fffffffffffffp+1023
     (from_base_fn (lit "L/h") (to_base_fn (lit "L/h") 0x1.fffffffffffffp+1023)) = false).
Proof. vm_compute. repeat split; reflexivity. Qed.

(** * Further properties of the code *)

(** ** Unit lookup, aliases, and the two blocks side by side *)

Lemma dict_find_none {V} (d : list (str * V)) k :
  dict_find d k = None <-> ~ In k (map fst d).
Proof.
  induction d as [|[k' v] d IH]; simpl.
  - tauto.
  - destruct (str_eqb k' k) eqn:E.
    + apply str_eqb_eq in E. split; [discriminate | tauto].
    + rewrite IH. split.
      * intros H [H1 | H1]; [|tauto]. subst. rewrite str_eqb_refl in E. discriminate.
      * tauto.
Qed.

Lemma getitem_missing {V} (d : list (str * V)) k :
  ~ In k (map fst d) -> getitem d k = Raise KeyError.
Proof.
  intros H. unfold getitem. now rewrite (proj2 (dict_find_none d k) H).
Qed.

Lemma registry_dec k : {In k registry} + {~ In k registry}.
Proof. apply in_dec. apply list_eq_dec. apply N.eq_dec. Qed.

Lemma alias_idempotent k :
  dict_get ALIAS (dict_get ALIAS k k) (dict_get ALIAS k k) = dict_get ALIAS k k.
Proof.
  unfold dict_get at 2 3 4. unfold ALIAS at 2 3 4. cbn [dict_find].
  destruct (str_eqb (lit "uL/min") k) eqn:E1; [reflexivity|].
  destruct (str_eqb (lit "uL/h") k) eqn:E2; [reflexivity|].
  unfold dict_get, ALIAS. cbn [dict_find]. now rewrite E1, E2.
Qed.

Lemma alias_display k : In k registry -> In (dict_get ALIAS k k) DISPLAY_UNITS.
Proof.
  revert k. apply registry_cases; unfold DISPLAY_UNITS; simpl; tauto.
Qed.

(** X1. The unit select boxes offer exactly the keys of [UNITS]. On such a
    key the single-value block returns its view; on any other string it raises
    [KeyError]. [ALIAS.get] sends a key to a display unit, and applying it a
    second time changes nothing. *)
Theorem single_unit_lookup (cfg : FormatConfig) (value : float) (in_unit : str) :
  (In in_unit selectbox_options <-> In in_unit registry) /\
  (is_ok (convert_single cfg value in_unit) = true <-> In in_unit registry) /\
  (convert_single cfg value in_unit = Raise KeyError <-> ~ In in_unit registry) /\
  (In in_unit registry -> In (dict_get ALIAS in_unit in_unit) DISPLAY_UNITS) /\
  dict_get ALIAS (dict_get ALIAS in_unit in_unit) (dict_get ALIAS in_unit in_unit)
    = dict_get ALIAS in_unit in_unit.
Proof.
  split; [|split; [|split; [|split]]].
  - unfold selectbox_options, DISPLAY_UNITS, registry. simpl. tauto.
  - destruct (registry_dec in_unit) as [Hk | Hk].
    + rewrite convert_single_spec by exact Hk. simpl. tauto.
    + unfold convert_single. rewrite getitem_missing by exact Hk. simpl.
      split; [discriminate | contradiction].
  - destruct (registry_dec in_unit) as [Hk | Hk].
    + rewrite convert_single_spec by exact Hk. split; [discriminate | contradiction].
    + unfold convert_single. rewrite getitem_missing by exact Hk. simpl. tauto.
  - apply alias_display.
  - apply alias_idempotent.
Qed.

(** X2. The batch block on a unit that is not a key of [UNITS]: the unit is
    only looked up once there is a value. Text without a value ends normally;
    text with a value raises [KeyError], with the warnings already shown and
    neither a table nor a download button. *)
Theorem batch_unknown_unit (float_repr : float -> str) (cfg : FormatConfig)
    (raw batch_unit : str) :
  ~ In batch_unit registry ->
  (expected_values (splitlines raw) = [] ->
   snd (convert_batch float_repr cfg raw batch_unit) = Ok tt) /\
  (expected_values (splitlines raw) <> [] ->
   convert_batch float_repr cfg raw batch_unit =
     (expected_warnings (splitlines raw), Raise KeyError)).
Proof.
  intros Hk. unfold convert_batch. split.
  - intros Hv. destruct (strip raw); [reflexivity|].
    rewrite parse_lines_spec, Hv. reflexivity.
  - intros Hv. pose proof (values_need_text raw Hv) as Hs.
    destruct (strip raw); [congruence|].
    rewrite parse_lines_spec. simpl app. fold (expected_warnings (splitlines raw)).
    destruct (expected_values (splitlines raw)) as [|v values]; [congruence|].
    unfold build_df_batch. simpl mapM.
    rewrite getitem_missing by exact Hk. reflexivity.
Qed.

Lemma batch_unknown_unit_witness :
  convert_batch float_repr_17 cfg_default (lit "x") (lit "gal/min") =
    ([Warning 1 (lit "x"); Info (lit "No valid numeric lines found.")], Ok tt) /\
  convert_batch float_repr_17 cfg_default raw_1_abc_2 (lit "gal/min") =
    ([Warning 2 (lit "abc")], Raise KeyError).
Proof.
  assert (Hk : ~ In (lit "gal/min") registry).
  { unfold registry. simpl. intros H.
    repeat (destruct H as [H | H]; [discriminate H|]). exact H. }
  split.
  - reflexivity.
  - apply (proj2 (batch_unknown_unit float_repr_17 cfg_default raw_1_abc_2 (lit "gal/min") Hk)).
    vm_compute. discriminate.
Defined.

(** X3. In the batch block too the ASCII aliases behave as the canonical
    units: same warnings, same table (its Input Unit column included), same
    exported file. *)
Theorem batch_alias_equivalence (float_repr : float -> str) (cfg : FormatConfig) (raw : str) :
  convert_batch float_repr cfg raw (lit "uL/min") =
    convert_batch float_repr cfg raw (micro :: lit "L/min") /\
  convert_batch float_repr cfg raw (lit "uL/h") =
    convert_batch float_repr cfg raw (micro :: lit "L/h").
Proof.
  rewrite !convert_batch_spec by (unfold registry; simpl; tauto).
  split; reflexivity.
Qed.

(** X4. Batch mode agrees with the single-value block: the row of a value in
    the batch table is the value, the canonical unit name and the formatted
    strings of the single-value table for that value; its record in the
    exported file has the values and the formatted strings of that table. *)
Theorem batch_row_matches_single (float_repr : float -> str) (cfg : FormatConfig)
    (raw batch_unit : str) :
  In batch_unit registry ->
  expected_values (splitlines raw) <> [] ->
  let shown_unit := CStr (dict_get ALIAS batch_unit batch_unit) in
  exists view csv,
    fst (convert_batch float_repr cfg raw batch_unit) =
      expected_warnings (splitlines raw) ++ [Dataframe view; DownloadButton csv] /\
    frame_rows (frame_height view) view =
      map (fun v => CFloat v :: shown_unit
                    :: map (fun r => CStr (Formatted r)) (single_table cfg v batch_unit))
          (expected_values (splitlines raw)) /\
    csv = flat_map csv_line
            (export_header ::
             map (fun v => map (cell_text float_repr)
                    (CFloat v :: shown_unit
                     :: flat_map (fun r => [CFloat (Value r); CStr (Formatted r)])
                          (single_table cfg v batch_unit)))
                 (expected_values (splitlines raw))).
Proof.
  intros Hk Hv shown_unit. do 2 eexists. split; [|split].
  - rewrite batch_with_values by assumption. reflexivity.
  - unfold shown_columns, input_columns. cbn [app]. rewrite frame_height_fill, frame_rows_fill.
    apply map_ext. intros v. unfold single_table.
    rewrite convert_single_spec by exact Hk. reflexivity.
  - unfold to_csv, batch_columns, input_columns. cbn [app]. rewrite csv_records_fill.
    f_equal. f_equal. apply map_ext. intros v. unfold single_table.
    rewrite convert_single_spec by exact Hk. reflexivity.
Qed.

Lemma batch_row_matches_single_witness :
  exists view csv,
    fst (convert_batch float_repr_17 cfg_default (lit "7") (lit "uL/h")) =
      expected_warnings (splitlines (lit "7")) ++ [Dataframe view; DownloadButton csv] /\
    frame_rows (frame_height view) view =
      map (fun v => CFloat v :: CStr (dict_get ALIAS (lit "uL/h") (lit "uL/h"))
                    :: map (fun r => CStr (Formatted r)) (single_table cfg_default v (lit "uL/h")))
          (expected_values (splitlines (lit "7"))) /\
    csv = flat_map csv_line
            (export_header ::
             map (fun v => map (cell_text float_repr_17)
                    (CFloat v :: CStr (dict_get ALIAS (lit "uL/h") (lit "uL/h"))
                     :: flat_map (fun r => [CFloat (Value r); CStr (Formatted r)])
                          (single_table cfg_default v (lit "uL/h"))))
                 (expected_values (splitlines (lit "7")))).
Proof.
  apply (batch_row_matches_single float_repr_17 cfg_default (lit "7") (lit "uL/h")).
  - unfold registry. simpl. tauto.
  - vm_compute. discriminate.
Defined.

(** ** The lines of the batch text *)

Lemma warnings_from_length i lines :
  List.length (warnings_from i lines) = List.length (filter fails lines).
Proof.
  revert i. induction lines as [|l lines IH]; intros i; [reflexivity|].
  unfold warnings_from in *. simpl. destruct (fails l); simpl; now rewrite IH.
Qed.

Lemma line_cases line :
  (skipped line = true /\ line_value line = None /\ fails line = false) \/
  (skipped line = false /\ (exists v, line_value line = Some v) /\ fails line = false) \/
  (skipped line = false /\ line_value line = None /\ fails line = true).
Proof.
  unfold skipped, line_value, fails.
  destruct (str_eqb (cleaned line) []); simpl; [tauto|].
  destruct (FloatParse.py_float (cleaned line)) as [v|]; [right; left; eauto | tauto].
Qed.

(** X5. The loop over the lines loses none: each line either adds a value,
    or adds a warning, or is empty once cleaned, so the three counts add up to
    the number of lines; and all the loop shows are warnings. *)
Theorem batch_lines_accounted (lines : list str) (i : Z) :
  let '(values, out) := parse_lines lines i [] [] in
  List.length values + List.length out + List.length (filter skipped lines)
    = List.length lines /\
  Forall (fun e => is_warning e = true) out.
Proof.
  rewrite parse_lines_spec. simpl app. split.
  - rewrite warnings_from_length.
    induction lines as [|l lines IH]; [reflexivity|].
    simpl. destruct (line_cases l) as [(-> & -> & ->) | [(-> & (v & ->) & ->) | (-> & -> & ->)]];
      simpl; rewrite ?length_app; simpl; lia.
  - apply Forall_forall. intros e He. rewrite <- warnings_from_all_warnings in He.
    apply filter_In in He. tauto.
Qed.

Lemma breaks_false c : breaks c = false -> (c =? 13)%N = false /\ is_linebreak c = false.
Proof. unfold breaks. intros H. apply orb_false_iff in H. tauto. Qed.

Lemma splitlines_from_one_line l cur rest :
  one_line l -> splitlines_from (l ++ rest) cur = splitlines_from rest (cur ++ l).
Proof.
  intros H. revert cur. induction H as [|c l Hc _ IH]; intros cur; simpl.
  - now rewrite app_nil_r.
  - apply breaks_false in Hc as [-> ->]. rewrite IH, <- app_assoc. reflexivity.
Qed.

Lemma breaks_not_LF c : breaks c = false -> (c =? 10)%N = false.
Proof.
  intros H. apply breaks_false in H as [_ H]. unfold is_linebreak in H.
  repeat (apply orb_false_iff in H as [H _]). exact H.
Qed.

Lemma unlines_CR_head ls :
  Forall one_line ls ->
  match unlines CR ls with c :: _ => (c =? 10)%N = false | [] => True end.
Proof.
  intros H. destruct H as [|l ls Hl _]; [exact I|].
  unfold unlines. simpl. destruct Hl as [|c l Hc _]; simpl; [reflexivity|].
  now apply breaks_not_LF.
Qed.

Lemma splitlines_from_ending sep ls cur :
  line_ending sep -> Forall one_line ls ->
  splitlines_from (sep ++ unlines sep ls) cur = cur :: splitlines_from (unlines sep ls) [].
Proof.
  intros [-> | [-> | ->]] H.
  - reflexivity.
  - reflexivity.
  - pose proof (unlines_CR_head ls H) as Hh. simpl.
    destruct (unlines CR ls) as [|c r]; [reflexivity|]. now rewrite Hh.
Qed.

Lemma splitlines_unlines sep ls :
  line_ending sep -> Forall one_line ls -> splitlines (unlines sep ls) = ls.
Proof.
  intros Hsep H. unfold splitlines. induction H as [|l ls Hl Hls IH]; [reflexivity|].
  change (unlines sep (l :: ls)) with ((l ++ sep) ++ unlines sep ls).
  rewrite <- app_assoc, splitlines_from_one_line by exact Hl.
  rewrite splitlines_from_ending by assumption. now rewrite IH.
Qed.

Lemma blank_app a b : blank (a ++ b) <-> blank a /\ blank b.
Proof. apply Forall_app. Qed.

Lemma blank_unlines sep ls :
  line_ending sep -> (blank (unlines sep ls) <-> Forall blank ls).
Proof.
  intros Hsep.
  assert (Hb : blank sep).
  { destruct Hsep as [-> | [-> | ->]]; repeat constructor. }
  induction ls as [|l ls IH].
  - split; constructor.
  - change (unlines sep (l :: ls)) with ((l ++ sep) ++ unlines sep ls).
    rewrite !blank_app, IH. split.
    + intros [[Hl _] Hls]. now constructor.
    + intros H. inversion H; subst. tauto.
Qed.

(** The batch block looks at the text through [strip] being empty or not and
    through its lines. *)
Lemma convert_batch_ext float_repr cfg a b batch_unit :
  (strip a = [] <-> strip b = []) ->
  splitlines a = splitlines b ->
  convert_batch float_repr cfg a batch_unit = convert_batch float_repr cfg b batch_unit.
Proof.
  intros Hs Hl. unfold convert_batch. rewrite Hl.
  destruct (strip a) as [|c s], (strip b) as [|c' s']; try reflexivity.
  - destruct Hs as [Hs _]. specialize (Hs eq_refl). discriminate.
  - destruct Hs as [_ Hs]. specialize (Hs eq_refl). discriminate.
Qed.

(** X6. Lines ended by "\r\n" or by "\r" are the same lines as with "\n":
    [splitlines] gives them back as they were, and the batch block shows the
    same as on the text with line feeds. *)
Theorem batch_line_endings (float_repr : float -> str) (cfg : FormatConfig)
    (ls : list str) (batch_unit : str) (sep : str) :
  Forall one_line ls -> line_ending sep ->
  splitlines (unlines sep ls) = ls /\
  convert_batch float_repr cfg (unlines sep ls) batch_unit =
    convert_batch float_repr cfg (unlines LF ls) batch_unit.
Proof.
  intros H Hsep. 
  assert (HLF : line_ending LF) by (left; reflexivity).
  split; [now apply splitlines_unlines|].
  apply convert_batch_ext.
  - rewrite !strip_nil_iff, !blank_unlines by assumption. tauto.
  - now rewrite !splitlines_unlines.
Qed.

Lemma batch_line_endings_witness :
  splitlines (unlines CRLF [lit "1,5"; lit ""; lit "x"]) = [lit "1,5"; lit ""; lit "x"] /\
  convert_batch float_repr_17 cfg_default (unlines CRLF [lit "1,5"; lit ""; lit "x"]) (lit "L/h") =
    convert_batch float_repr_17 cfg_default (unlines LF [lit "1,5"; lit ""; lit "x"]) (lit "L/h").
Proof.
  apply (batch_line_endings float_repr_17 cfg_default [lit "1,5"; lit ""; lit "x"] (lit "L/h") CRLF).
  - repeat constructor.
  - right. left. reflexivity.
Defined.

Lemma splitlines_from_trailing s cur :
  splitlines_from (s ++ LF) cur = splitlines_from s cur \/
  splitlines_from (s ++ LF) cur = splitlines_from s cur ++ [[]].
Proof.
  remember (List.length s) as n eqn:Hn. revert s cur Hn.
  induction n as [n IH] using lt_wf_ind. intros s cur Hn.
  destruct s as [|c s].
  - simpl. destruct cur; [right | left]; reflexivity.
  - simpl in Hn. cbn [app splitlines_from]. destruct (c =? 13)%N.
    + destruct s as [|c' s'].
      * left. reflexivity.
      * cbn [app]. simpl in Hn. destruct (c' =? 10)%N.
        -- destruct (IH (List.length s') ltac:(lia) s' [] eq_refl) as [-> | ->]; [left | right]; reflexivity.
        -- destruct (IH (List.length (c' :: s')) ltac:(simpl; lia) (c' :: s') [] eq_refl) as [H | H];
             cbn [app] in H; rewrite H; [left | right]; reflexivity.
    + destruct (is_linebreak c).
      * destruct (IH (List.length s) ltac:(lia) s [] eq_refl) as [-> | ->]; [left | right]; reflexivity.
      * apply (IH (List.length s)); [lia | reflexivity].
Qed.

Lemma parse_lines_trailing_blank lines i values out :
  parse_lines (lines ++ [[]]) i values out = parse_lines lines i values out.
Proof.
  revert i values out. induction lines as [|l lines IH]; intros i values out.
  - reflexivity.
  - simpl. destruct (str_eqb (remove_commas (strip l)) []); [apply IH|].
    destruct (FloatParse.py_float (remove_commas (strip l))); apply IH.
Qed.

(** X7. A line feed added at the end of the text changes nothing of what the
    batch block shows. *)
Theorem batch_trailing_newline (float_repr : float -> str) (cfg : FormatConfig)
    (raw batch_unit : str) :
  convert_batch float_repr cfg (raw ++ LF) batch_unit =
  convert_batch float_repr cfg raw batch_unit.
Proof.
  unfold convert_batch.
  assert (Hs : strip (raw ++ LF) = strip raw).
  { rewrite <- (strip_surrounded [] raw LF) by repeat constructor. reflexivity. }
  rewrite Hs. unfold splitlines.
  destruct (splitlines_from_trailing raw []) as [-> | ->]; [reflexivity|].
  now rewrite parse_lines_trailing_blank.
Qed.

Lemma splitlines_from_lines s : forall cur,
  one_line cur ->
  Forall one_line (splitlines_from s cur) /\
  List.concat (splitlines_from s cur) = cur ++ filter (fun c => negb (breaks c)) s.
Proof.
  remember (List.length s) as n eqn:Hn. revert s Hn.
  induction n as [n IH] using lt_wf_ind. intros s Hn cur Hcur.
  assert (Hnil : one_line []) by constructor.
  destruct s as [|c s].
  - simpl. rewrite app_nil_r. destruct cur; simpl; [split; [constructor | reflexivity]|].
    rewrite app_nil_r. split; [constructor; [assumption | constructor] | reflexivity].
  - simpl in Hn. cbn [splitlines_from filter].
    assert (Hb : breaks c = is_linebreak c || (c =? 13)%N) by reflexivity.
    destruct (c =? 13)%N eqn:E13.
    + rewrite orb_true_r in Hb. rewrite Hb. cbn [negb].
      destruct s as [|c' s'].
      * destruct (IH 0 ltac:(lia) [] eq_refl [] Hnil) as [H1 H2].
        split; [constructor; assumption|]. cbn [List.concat]. now rewrite H2.
      * simpl in Hn. destruct (c' =? 10)%N eqn:E10.
        -- destruct (IH (List.length s') ltac:(lia) s' eq_refl [] Hnil) as [H1 H2].
           split; [constructor; assumption|]. cbn [List.concat filter]. rewrite H2.
           assert (Hb' : breaks c' = true) by (unfold breaks, is_linebreak; now rewrite E10).
           rewrite Hb'. reflexivity.
        -- destruct (IH (List.length (c' :: s')) ltac:(simpl; lia) (c' :: s') eq_refl [] Hnil)
             as [H1 H2].
           split; [constructor; assumption|]. cbn [List.concat]. now rewrite H2.
    + rewrite orb_false_r in Hb. rewrite Hb. destruct (is_linebreak c) eqn:Elb; cbn [negb].
      * destruct (IH (List.length s) ltac:(lia) s eq_refl [] Hnil) as [H1 H2].
        split; [constructor; assumption|]. cbn [List.concat]. now rewrite H2.
      * destruct (IH (List.length s) ltac:(lia) s eq_refl (cur ++ [c])) as [H1 H2].
        { apply Forall_app. split; [assumption|]. constructor; [|constructor].
          exact Hb. }
        split; [assumption|]. rewrite H2, <- app_assoc. reflexivity.
Qed.

(** X8. [splitlines] only removes line boundaries: no line it returns has a
    line-break character, the lines put together are the text without its
    line-break characters, and splitting a line again gives that line. *)
Theorem splitlines_keeps_text (s : str) :
  Forall one_line (splitlines s) /\
  List.concat (splitlines s) = filter (fun c => negb (breaks c)) s /\
  (forall line, In line (splitlines s) -> splitlines line = [line] \/ line = []).
Proof.
  destruct (splitlines_from_lines s [] ltac:(constructor)) as [H1 H2].
  split; [exact H1 | split; [exact H2|]].
  intros line Hin. rewrite Forall_forall in H1. specialize (H1 line Hin).
  unfold splitlines. rewrite <- (app_nil_r line) at 1.
  rewrite splitlines_from_one_line by exact H1. simpl.
  destruct line; [right | left]; reflexivity.
Qed.

(** ** Signs and special values *)

Lemma round_aux_opp s m e l :
  binary_round_aux prec emax (negb s) m e l = SFopp (binary_round_aux prec emax s m e l).
Proof.
  unfold binary_round_aux.
  destruct (shr_fexp prec emax m e l) as [mrs' e'].
  destruct (shr_fexp prec emax _ e' loc_Exact) as [mrs'' e''].
  destruct (shr_m mrs''); [reflexivity | | reflexivity].
  destruct (e'' <=? emax - prec)%Z; reflexivity.
Qed.

Lemma xorb_negb_l a b : xorb (negb a) b = negb (xorb a b).
Proof. now destruct a, b. Qed.

Lemma SFmul_opp a b : SF64mul (SFopp a) b = SFopp (SF64mul a b).
Proof.
  unfold SF64mul.
  destruct a as [sa | sa | | sa ma ea], b as [sb | sb | | sb mb eb]; simpl;
    rewrite ?xorb_negb_l; try reflexivity.
  apply round_aux_opp.
Qed.

Lemma SFdiv_opp a b : SF64div (SFopp a) b = SFopp (SF64div a b).
Proof.
  unfold SF64div.
  destruct a as [sa | sa | | sa ma ea], b as [sb | sb | | sb mb eb]; simpl;
    rewrite ?xorb_negb_l; try reflexivity.
  destruct (SFdiv_core_binary prec emax (Z.pos ma) ea (Z.pos mb) eb) as [[mz ez] lz].
  apply round_aux_opp.
Qed.

Lemma mul_opp x c : (- x * c = - (x * c))%float.
Proof.
  apply Prim2SF_inj. rewrite opp_spec, !mul_spec, opp_spec. apply SFmul_opp.
Qed.

Lemma div_opp x c : (- x / c = - (x / c))%float.
Proof.
  apply Prim2SF_inj. rewrite opp_spec, !div_spec, opp_spec. apply SFdiv_opp.
Qed.

(** Replaces the conversion of a given unit by its arithmetic. *)
Ltac unit_arith :=
  repeat match goal with
  | |- context [to_base_fn ?k ?x] =>
      let f := eval cbv in (to_base_fn k) in change (to_base_fn k x) with (f x)
  | |- context [from_base_fn ?k ?x] =>
      let f := eval cbv in (from_base_fn k) in change (from_base_fn k x) with (f x)
  end; cbv beta.

Lemma to_base_odd k x : In k registry -> to_base_fn k (- x) = (- to_base_fn k x)%float.
Proof.
  revert k. apply registry_cases; unit_arith; rewrite ?mul_opp, ?div_opp; reflexivity.
Qed.

Lemma from_base_odd k x : In k registry -> from_base_fn k (- x) = (- from_base_fn k x)%float.
Proof.
  revert k. apply registry_cases; unit_arith; rewrite ?mul_opp, ?div_opp; reflexivity.
Qed.

Lemma round_aux_kind s m e l :
  (0 <= m)%Z ->
  let r := binary_round_aux prec emax s m e l in
  r = S754_zero s \/ r = S754_infinity s \/ exists m' e', r = S754_finite s m' e'.
Proof.
  intros Hm. destruct (Rounding.binary_round_aux_steps s m e l Hm) as [st Hst].
  cbv zeta. rewrite Hst.
  destruct (Rounding.steps_nonneg m e l st Hm) as (_ & _ & _ & _ & H2).
  destruct (r_m2 m e l st) as [|p|p]; [tauto | | lia].
  destruct (_ <=? _)%Z; eauto.
Qed.

Lemma SFmul_scaled a mc ec : scaled_from a (SF64mul a (S754_finite false mc ec)).
Proof.
  destruct a as [s | s | | s m e]; simpl; rewrite ?xorb_false_r; try reflexivity.
  apply round_aux_kind. lia.
Qed.

Lemma SFdiv_scaled a mc ec : scaled_from a (SF64div a (S754_finite false mc ec)).
Proof.
  destruct a as [s | s | | s m e]; simpl; rewrite ?xorb_false_r; try reflexivity.
  destruct (Rounding.div_core_spec m mc e ec) as (q & e' & l & sh & -> & _ & _ & _ & _ & Hq & _).
  apply round_aux_kind. exact Hq.
Qed.

Lemma scaled_from_trans a b c : scaled_from a b -> scaled_from b c -> scaled_from a c.
Proof.
  destruct a as [s | s | | s m e]; simpl.
  - intros ->. auto.
  - intros ->. auto.
  - intros ->. auto.
  - intros [-> | [-> | (m' & e' & ->)]]; simpl; auto.
Qed.

Lemma scaled_from_refl a : scaled_from a a.
Proof. destruct a; simpl; eauto. Qed.

Lemma mul_scaled x c : positive_finite c -> scaled_from (Prim2SF x) (Prim2SF (x * c)).
Proof. intros (mc & ec & Hc). rewrite mul_spec, Hc. apply SFmul_scaled. Qed.

Lemma div_scaled x c : positive_finite c -> scaled_from (Prim2SF x) (Prim2SF (x / c)).
Proof. intros (mc & ec & Hc). rewrite div_spec, Hc. apply SFdiv_scaled. Qed.

Lemma factor_1000 : positive_finite 1000.
Proof. do 2 eexists. reflexivity. Qed.
Lemma factor_60 : positive_finite 60.
Proof. do 2 eexists. reflexivity. Qed.
Lemma factor_micro : positive_finite 1e-6.
Proof. do 2 eexists. reflexivity. Qed.
Lemma factor_nano : positive_finite 1e-9.
Proof. do 2 eexists. reflexivity. Qed.

Ltac scaled_chain :=
  repeat first
    [ apply scaled_from_refl
    | eapply scaled_from_trans;
      [| first [ apply mul_scaled | apply div_scaled ];
         first [ apply factor_1000 | apply factor_60 | apply factor_micro | apply factor_nano ] ] ].

Lemma to_base_scaled k x :
  In k registry -> scaled_from (Prim2SF x) (Prim2SF (to_base_fn k x)).
Proof.
  revert k. apply registry_cases; unit_arith; scaled_chain.
Qed.

Lemma from_base_scaled k x :
  In k registry -> scaled_from (Prim2SF x) (Prim2SF (from_base_fn k x)).
Proof.
  revert k. apply registry_cases; unit_arith; scaled_chain.
Qed.

Lemma converted_scaled i o v :
  In i registry -> In o registry -> scaled_from (Prim2SF v) (Prim2SF (converted i o v)).
Proof.
  intros Hi Ho. unfold converted.
  exact (scaled_from_trans _ _ _ (to_base_scaled i v Hi) (from_base_scaled o _ Ho)).
Qed.

Lemma SFcompare_refl f : f <> S754_nan -> SFcompare f f = Some Eq.
Proof.
  destruct f as [s | s | | s m e]; simpl; try congruence; intros _.
  - now destruct s.
  - rewrite Z.compare_refl. 
    assert (H : PosDef.Pos.compare_cont Eq m m = Eq) by apply Pos.compare_refl.
    rewrite H. now destruct s.
Qed.

Lemma is_nan_SF x : is_nan x = match Prim2SF x with S754_nan => true | _ => false end.
Proof.
  unfold is_nan. rewrite eqb_spec. unfold SFeqb.
  destruct (Prim2SF x) as [s | s | | s m e] eqn:E; try (rewrite SFcompare_refl by discriminate; reflexivity).
  reflexivity.
Qed.

Lemma is_infinity_SF x :
  is_infinity x = match Prim2SF x with S754_infinity _ => true | _ => false end.
Proof.
  unfold is_infinity. rewrite eqb_spec, abs_spec.
  destruct (Prim2SF x) as [s | s | | s m e]; reflexivity.
Qed.

Lemma eqb_zero_SF x :
  (x =? 0)%float = match Prim2SF x with S754_zero _ => true | _ => false end.
Proof.
  rewrite eqb_spec. unfold SFeqb.
  destruct (Prim2SF x) as [s | s | | s m e]; try reflexivity; destruct s; reflexivity.
Qed.

(** X9. Conversions are odd: the conversion of [-v] is the negation of the
    conversion of [v], for every pair of units; and the result has the sign of
    the input (zero included). *)
Theorem conversion_sign_symmetry (in_unit out_unit : str) (v : float) :
  In in_unit registry -> In out_unit registry ->
  converted in_unit out_unit (- v) = (- converted in_unit out_unit v)%float /\
  (is_nan v = false -> signbit (converted in_unit out_unit v) = signbit v).
Proof.
  intros Hi Ho. split.
  - unfold converted. rewrite to_base_odd by exact Hi. now apply from_base_odd.
  - pose proof (converted_scaled in_unit out_unit v Hi Ho) as H.
    rewrite is_nan_SF. unfold signbit.
    destruct (Prim2SF v) as [s | s | | s m e]; simpl in H; try (intros _; now rewrite H).
    intros _. destruct H as [-> | [-> | (m' & e' & ->)]]; reflexivity.
Qed.

Lemma conversion_sign_symmetry_witness :
  converted (lit "mL/h") (lit "nL/min") (- 2.5) =
    (- converted (lit "mL/h") (lit "nL/min") 2.5)%float /\
  signbit (converted (lit "mL/h") (lit "nL/min") (- 2.5)) = signbit (- 2.5).
Proof.
  assert (Hi : In (lit "mL/h") registry) by (unfold registry; simpl; tauto).
  assert (Ho : In (lit "nL/min") registry) by (unfold registry; simpl; tauto).
  split.
  - apply (proj1 (conversion_sign_symmetry (lit "mL/h") (lit "nL/min") 2.5 Hi Ho)).
  - apply (proj2 (conversion_sign_symmetry (lit "mL/h") (lit "nL/min") (- 2.5) Hi Ho)).
    reflexivity.
Defined.

(** X10. A conversion yields NaN exactly when its input is NaN; it leaves an
    infinity and a zero as they are. *)
Theorem conversion_special_values (in_unit out_unit : str) (v : float) :
  In in_unit registry -> In out_unit registry ->
  is_nan (converted in_unit out_unit v) = is_nan v /\
  (is_infinity v = true -> converted in_unit out_unit v = v) /\
  ((v =? 0)%float = true -> converted in_unit out_unit v = v).
Proof.
  intros Hi Ho. pose proof (converted_scaled in_unit out_unit v Hi Ho) as H.
  rewrite !is_nan_SF, is_infinity_SF, eqb_zero_SF.
  destruct (Prim2SF v) as [s | s | | s m e] eqn:E; simpl in H.
  - rewrite H. repeat split; try discriminate. intros _. apply Prim2SF_inj. congruence.
  - rewrite H. repeat split; try discriminate. intros _. apply Prim2SF_inj. congruence.
  - rewrite H. repeat split; discriminate.
  - split; [|split; discriminate].
    destruct H as [-> | [-> | (m' & e' & ->)]]; reflexivity.
Qed.

Lemma conversion_special_values_witness :
  is_nan (converted (lit "L/h") (lit "mL/min") nan) = is_nan nan /\
  converted (lit "L/h") (lit "mL/min") neg_infinity = neg_infinity /\
  converted (lit "L/h") (lit "mL/min") neg_zero = neg_zero.
Proof.
  assert (Hi : In (lit "L/h") registry) by (unfold registry; simpl; tauto).
  assert (Ho : In (lit "mL/min") registry) by (unfold registry; simpl; tauto).
  split; [|split].
  - apply (proj1 (conversion_special_values (lit "L/h") (lit "mL/min") nan Hi Ho)).
  - apply (proj1 (proj2 (conversion_special_values (lit "L/h") (lit "mL/min") neg_infinity Hi Ho))).
    reflexivity.
  - apply (proj2 (proj2 (conversion_special_values (lit "L/h") (lit "mL/min") neg_zero Hi Ho))).
    reflexivity.
Defined.

Lemma starts_digit_app s t : all_digits s -> s <> [] -> starts_digit (s ++ t).
Proof.
  intros H Hne. destruct s as [|c s]; [congruence|]. inversion H; subst. assumption.
Qed.

Lemma digits_of_starts a t : starts_digit (Fmt.digits_of a ++ t).
Proof.
  apply starts_digit_app; [apply digits_fixed_digits | apply digits_of_nonempty].
Qed.

Lemma mantissa_starts p r t : starts_digit (Fmt.mantissa_text p r ++ t).
Proof.
  unfold Fmt.mantissa_text. simpl. apply digit_is_digit.
Qed.

Lemma abs_abs x : abs (abs x) = abs x.
Proof.
  apply Prim2SF_inj. rewrite !abs_spec. now destruct (Prim2SF x).
Qed.

Lemma use_sci_abs cfg x : use_sci cfg (abs x) = use_sci cfg x.
Proof.
  unfold use_sci, outside_threshold. rewrite abs_abs.
  rewrite !eqb_zero_SF, abs_spec. now destruct (Prim2SF x).
Qed.

Lemma isna_abs x : isna (abs x) = isna x.
Proof.
  unfold isna. rewrite !is_nan_SF, abs_spec. now destruct (Prim2SF x).
Qed.

Lemma format_f_abs p x :
  is_nan x = false -> Fmt.format_f p x = Fmt.sign (signbit x) ++ Fmt.format_f p (abs x).
Proof.
  rewrite is_nan_SF. unfold Fmt.format_f, signbit. rewrite abs_spec.
  destruct (Prim2SF x) as [s | s | | s m e]; simpl SFabs; cbv iota; try discriminate; intros _.
  - reflexivity.
  - reflexivity.
  - destruct (Fmt.ratio m e) as [n d]. reflexivity.
Qed.

Lemma format_e_abs p x :
  is_nan x = false -> Fmt.format_e p x = Fmt.sign (signbit x) ++ Fmt.format_e p (abs x).
Proof.
  rewrite is_nan_SF. unfold Fmt.format_e, signbit. rewrite abs_spec.
  destruct (Prim2SF x) as [s | s | | s m e]; simpl SFabs; cbv iota; try discriminate; intros _.
  - reflexivity.
  - reflexivity.
  - destruct (Fmt.ratio m e) as [n d].
    destruct (10 ^ Z.of_nat (S p) <=? _)%Z; reflexivity.
Qed.

Lemma fmt_abs cfg x :
  is_nan x = false -> fmt cfg x = Fmt.sign (signbit x) ++ fmt cfg (abs x).
Proof.
  intros H. unfold fmt. rewrite isna_abs, use_sci_abs. unfold isna. rewrite H.
  destruct (use_sci cfg x); [now apply format_e_abs | now apply format_f_abs].
Qed.

Lemma format_f_abs_head p x :
  is_nan x = false ->
  starts_digit (Fmt.format_f p (abs x)) \/ Fmt.format_f p (abs x) = lit "inf".
Proof.
  rewrite is_nan_SF. unfold Fmt.format_f. rewrite abs_spec.
  destruct (Prim2SF x) as [s | s | | s m e]; simpl SFabs; cbv iota; try discriminate; intros _.
  - left. reflexivity.
  - right. reflexivity.
  - left. destruct (Fmt.ratio m e) as [n d]. apply digits_of_starts.
Qed.

Lemma format_e_abs_head p x :
  is_nan x = false ->
  starts_digit (Fmt.format_e p (abs x)) \/ Fmt.format_e p (abs x) = lit "inf".
Proof.
  rewrite is_nan_SF. unfold Fmt.format_e. rewrite abs_spec.
  destruct (Prim2SF x) as [s | s | | s m e]; simpl SFabs; cbv iota; try discriminate; intros _.
  - left. apply mantissa_starts.
  - right. reflexivity.
  - left. destruct (Fmt.ratio m e) as [n d].
    destruct (10 ^ Z.of_nat (S p) <=? _)%Z; apply mantissa_starts.
Qed.

Lemma fmt_abs_head cfg x :
  is_nan x = false -> starts_digit (fmt cfg (abs x)) \/ fmt cfg (abs x) = lit "inf".
Proof.
  intros H. unfold fmt. rewrite isna_abs. unfold isna. rewrite H.
  destruct (use_sci cfg (abs x)); [now apply format_e_abs_head | now apply format_f_abs_head].
Qed.

Lemma starts_digit_no_minus s : starts_digit s -> starts_with_minus s = false.
Proof.
  destruct s as [|c s]; simpl; [tauto|]. unfold FloatParse.is_digit.
  intros H. apply andb_true_iff in H as [H _]. apply N.leb_le in H. apply N.eqb_neq. lia.
Qed.

(** X11. On a value that is not NaN, [fmt] writes a minus sign exactly when
    the sign bit is set, also when every digit shown is zero; the rest of the
    text is that of the absolute value, which has no minus sign. On NaN the
    text is empty, so there is no sign to see, whatever the sign of the NaN. *)
Theorem fmt_minus_sign (cfg : FormatConfig) (x : float) :
  (is_nan x = false ->
     starts_with_minus (fmt cfg x) = signbit x /\
     starts_with_minus (fmt cfg (abs x)) = false /\
     fmt cfg x = Fmt.sign (signbit x) ++ fmt cfg (abs x) /\
     fmt cfg (- x) = Fmt.sign (negb (signbit x)) ++ fmt cfg (abs x)) /\
  (is_nan x = true -> fmt cfg x = [] /\ starts_with_minus (fmt cfg x) = false).
Proof.
  split.
  - intros E.
    assert (Hhead : starts_with_minus (fmt cfg (abs x)) = false).
    { destruct (fmt_abs_head cfg x E) as [Hd | ->]; [|reflexivity].
      now apply starts_digit_no_minus. }
    split; [|split; [exact Hhead|split]].
    + rewrite fmt_abs by exact E. destruct (signbit x); [reflexivity | exact Hhead].
    + now apply fmt_abs.
    + assert (Hn : is_nan (- x) = false).
      { rewrite is_nan_SF in *. rewrite opp_spec. now destruct (Prim2SF x). }
      rewrite fmt_abs by exact Hn. f_equal.
      * unfold signbit. rewrite opp_spec. rewrite is_nan_SF in E.
        destruct (Prim2SF x); try discriminate; reflexivity.
      * f_equal. apply Prim2SF_inj. rewrite !abs_spec, opp_spec. now destruct (Prim2SF x).
  - intros E. unfold fmt, isna. rewrite E. split; reflexivity.
Qed.

Lemma fmt_minus_sign_witness :
  starts_with_minus (fmt cfg_default neg_zero) = signbit neg_zero /\
  fmt cfg_default neg_zero = lit "-0.000" /\
  fmt cfg_default (-0.0004) = Fmt.sign (signbit (-0.0004)) ++ fmt cfg_default (abs (-0.0004)) /\
  fmt cfg_default nan = [].
Proof.
  split; [|split; [|split]].
  - apply (proj1 (fmt_minus_sign cfg_default neg_zero)). reflexivity.
  - reflexivity.
  - apply (proj1 (fmt_minus_sign cfg_default (-0.0004))). reflexivity.
  - apply (proj2 (fmt_minus_sign cfg_default nan)). reflexivity.
Defined.

(** X12. [fmt] returns the empty string on NaN only; so a formatted cell is
    empty exactly when the input value is NaN. *)
Theorem fmt_empty_iff_nan (cfg : FormatConfig) (x : float) :
  (fmt cfg x = [] <-> isna x = true) /\
  (forall in_unit out_unit, In in_unit registry -> In out_unit registry ->
     (fmt cfg (converted in_unit out_unit x) = [] <-> isna x = true)).
Proof.
  assert (H : forall y, fmt cfg y = [] <-> isna y = true).
  { intros y. split.
    - intros Hf. destruct (isna y) eqn:E; [reflexivity|]. exfalso.
      unfold isna in E. rewrite (fmt_abs cfg y E) in Hf.
      apply app_eq_nil in Hf as [_ Hf].
      destruct (fmt_abs_head cfg y E) as [Hd | Hi]; rewrite Hf in *; [exact Hd | discriminate].
    - intros E. unfold fmt. now rewrite E. }
  split; [apply H|].
  intros i o Hi Ho. rewrite H. unfold isna.
  pose proof (converted_scaled i o x Hi Ho) as Hs.
  rewrite !is_nan_SF. destruct (Prim2SF x) as [s | s | | s m e]; simpl in Hs.
  - rewrite Hs. tauto.
  - rewrite Hs. tauto.
  - rewrite Hs. tauto.
  - destruct Hs as [-> | [-> | (m' & e' & ->)]]; tauto.
Qed.

(** ** Overflow and underflow of the two directions *)

Section RangeSafety.

Import Rounding.
Local Open Scope Z_scope.

Lemma digits_le_53 m : 0 < m < 2 ^ 53 -> Zdigits2 m <= 53.
Proof.
  intros [H0 H]. pose proof (Zdigits2_bounds m H0) as [Hlo _].
  pose proof (Zdigits2_pos m H0) as Hp.
  assert (H1 : 2 ^ (Zdigits2 m - 1) < 2 ^ 53) by lia.
  apply Z.pow_lt_mono_r_iff in H1; lia.
Qed.

(** A result with an exponent above the largest one has a full mantissa. *)
Lemma steps_canonical mx ex lx (st : rounding_steps mx ex lx) :
  0 <= mx -> 0 < r_m2 _ _ _ st -> ex <= 971 ->
  972 <= ex + r_n1 _ _ _ st + r_n2 _ _ _ st ->
  2 ^ 52 <= r_m2 _ _ _ st.
Proof.
  intros Hmx Hm2 Hex He.
  destruct (steps_nonneg mx ex lx st Hmx) as (Hn1 & Hn2 & Hm0 & Hm1 & _).
  pose proof (n1_eq _ _ _ st) as E1. pose proof (m0_eq _ _ _ st) as E0.
  pose proof (m1_range _ _ _ st) as R1. pose proof (n2_eq _ _ _ st) as E2.
  pose proof (m2_eq _ _ _ st) as E3.
  rewrite fexp64_eq in E1, E2.
  set (n1 := r_n1 _ _ _ st) in *. set (n2 := r_n2 _ _ _ st) in *.
  set (m0 := r_m0 _ _ _ st) in *. set (m1 := r_m1 _ _ _ st) in *.
  set (m2 := r_m2 _ _ _ st) in *.
  assert (Hm1pos : 0 < m1).
  { destruct (Z.eq_dec m1 0) as [Hz | Hz]; [|lia].
    rewrite Hz, Z.div_0_l in E3 by (apply Z.pow_nonzero; lia). lia. }
  pose proof (Zdigits2_bounds m1 Hm1pos) as [D1 _].
  destruct (Z.eq_dec n2 0) as [Hz2 | Hz2].
  - rewrite Hz2, Z.pow_0_r, Z.div_1_r in E3. rewrite E3.
    assert (Hn1pos : 0 < n1) by lia.
    assert (Hn1v : n1 = Zdigits2 mx - 53) by lia.
    assert (Hmxpos : 0 < mx).
    { destruct (Z.eq_dec mx 0) as [Hz | Hz]; [|lia]. rewrite Hz in Hn1v.
      change (Zdigits2 0) with 0 in Hn1v. lia. }
    pose proof (Zdigits2_bounds mx Hmxpos) as [Dx _].
    assert (H52 : 2 ^ 52 <= m0).
    { rewrite E0. apply Z.div_le_lower_bound; [apply Z.pow_pos_nonneg; lia|].
      rewrite <- Z.pow_add_r by lia. replace (n1 + 52) with (Zdigits2 mx - 1) by lia. exact Dx. }
    lia.
  - assert (Hn2v : n2 = Zdigits2 m1 - 53) by lia.
    rewrite E3. apply Z.div_le_lower_bound; [apply Z.pow_pos_nonneg; lia|].
    rewrite <- Z.pow_add_r by lia. replace (n2 + 52) with (Zdigits2 m1 - 1) by lia. exact D1.
Qed.

Local Open Scope R_scope.

Lemma round_no_overflow sx mx ex lx s :
  (0 <= mx)%Z -> (ex <= 971)%Z -> IZR mx * pow2 ex < pow2 1023 ->
  binary_round_aux prec emax sx mx ex lx <> S754_infinity s.
Proof.
  intros Hmx Hex Hv Hr.
  destruct (binary_round_aux_steps sx mx ex lx Hmx) as [st Hst]. rewrite Hst in Hr.
  pose proof (steps_bounds mx ex lx st Hmx) as [B1 _].
  pose proof (steps_nonneg mx ex lx st Hmx) as (Hn1 & Hn2 & _).
  pose proof (steps_canonical mx ex lx st Hmx) as Hc.
  destruct (r_m2 mx ex lx st) as [|p|p] eqn:Em2; [discriminate| |discriminate].
  change (emax - prec)%Z with 971%Z in Hr.
  destruct (Z.leb_spec (ex + r_n1 mx ex lx st + r_n2 mx ex lx st) 971) as [H | H];
    [discriminate|].
  specialize (Hc ltac:(lia) Hex ltac:(lia)).
  set (n := (r_n1 mx ex lx st + r_n2 mx ex lx st)%Z) in *.
  assert (Hn : (0 <= n)%Z) by (unfold n; lia).
  apply IZR_le in B1. rewrite mult_IZR, minus_IZR in B1.
  apply IZR_le in Hc. change (IZR (2 ^ 52)) with 4503599627370496 in Hc.
  rewrite <- (pow2_IZR n Hn) in B1.
  pose proof (pow2_pos ex) as Hp. pose proof (pow2_pos n) as Hpn.
  assert (H1 : (IZR (Z.pos p) - 1) * pow2 (n + ex) <= IZR mx * pow2 ex).
  { rewrite pow2_add. replace ((IZR (Z.pos p) - 1) * (pow2 n * pow2 ex))
      with ((IZR (Z.pos p) - 1) * pow2 n * pow2 ex) by ring.
    apply Rmult_le_compat_r; lra. }
  pose proof (pow2_le 972 (n + ex) ltac:(unfold n; lia)) as H2.
  assert (H3 : pow2 1023 = 2251799813685248 * pow2 972).
  { replace 1023%Z with (51 + 972)%Z by lia. rewrite pow2_add, (pow2_IZR 51) by lia.
    reflexivity. }
  pose proof (pow2_pos 972). pose proof (pow2_pos (n + ex)). nra.
Qed.

Lemma finite_value_bound x s m e :
  Prim2SF x = S754_finite s m e -> IZR (Z.pos m) * pow2 e < pow2 1024.
Proof.
  intros Hx. destruct (valid_range m e (float_valid x _ _ _ Hx)) as (He & Hm & _).
  apply IZR_lt in Hm. rewrite <- pow2_IZR in Hm by lia.
  pose proof (pow2_le e 971 ltac:(lia)). pose proof (pow2_pos e).
  replace 1024%Z with (53 + 971)%Z by lia. rewrite pow2_add.
  assert (0 < IZR (Z.pos m)) by (apply IZR_lt; lia).
  pose proof (pow2_pos 53). nra.
Qed.

Lemma pow2_1024 : pow2 1024 = 2 * pow2 1023.
Proof.
  replace 1024%Z with (1 + 1023)%Z by lia. rewrite pow2_add, (pow2_IZR 1) by lia.
  reflexivity.
Qed.

Lemma mul_stays_finite a c :
  small_factor c -> is_finite a = true -> is_finite (a * c) = true.
Proof.
  intros (mc & ec & Hc & Hec & Hc2). rewrite !is_finite_SF, mul_spec, Hc.
  destruct (Prim2SF a) as [sa | sa | | sa ma ea] eqn:Ha; try discriminate; intros _.
  - reflexivity.
  - unfold SF64mul, SFmul.
    destruct (round_aux_kind (xorb sa false) (Z.pos (ma * mc)) (ea + ec) loc_Exact
                (Pos2Z.is_nonneg _)) as [-> | [Hinf | (m' & e' & ->)]]; try reflexivity.
    exfalso. revert Hinf. apply round_no_overflow; [lia | |].
    + destruct (valid_range ma ea (float_valid a _ _ _ Ha)) as (He & _). lia.
    + pose proof (finite_value_bound a sa ma ea Ha) as Hb. rewrite pow2_1024 in Hb.
      rewrite Pos2Z.inj_mul, mult_IZR, pow2_add.
      assert (0 < IZR (Z.pos ma) * pow2 ea).
      { apply Rmult_lt_0_compat; [apply IZR_lt; lia | apply pow2_pos]. }
      assert (0 < IZR (Z.pos mc) * pow2 ec).
      { apply Rmult_lt_0_compat; [apply IZR_lt; lia | apply pow2_pos]. }
      replace (IZR (Z.pos ma) * IZR (Z.pos mc) * (pow2 ea * pow2 ec))
        with ((IZR (Z.pos ma) * pow2 ea) * (IZR (Z.pos mc) * pow2 ec)) by ring.
      nra.
Qed.

Lemma div_stays_finite a c :
  large_factor c -> is_finite a = true -> is_finite (a / c) = true.
Proof.
  intros (mc & ec & Hc & Hdc & Hc2). rewrite !is_finite_SF, div_spec, Hc.
  destruct (Prim2SF a) as [sa | sa | | sa ma ea] eqn:Ha; try discriminate; intros _.
  - reflexivity.
  - unfold SF64div, SFdiv.
    destruct (div_core_spec ma mc ea ec)
      as (q & e' & l & sh & Hcore & Hsh & He & Hle & _ & Hq & Hb).
    rewrite Hcore.
    destruct (round_aux_kind (xorb sa false) q e' l Hq) as [-> | [Hinf | (m' & e'' & ->)]];
      try reflexivity.
    exfalso. revert Hinf. apply round_no_overflow; [exact Hq | |].
    + destruct (valid_range ma ea (float_valid a _ _ _ Ha)) as (Hea & Hma & _).
      pose proof (digits_le_53 (Z.pos ma) ltac:(lia)). rewrite fexp64_eq in Hle. lia.
    + pose proof (quotient_bounds ma ea mc ec q e' sh Hsh He Hb) as [Hlo _].
      pose proof (finite_value_bound a sa ma ea Ha) as Hb'. rewrite pow2_1024 in Hb'.
      apply Rle_lt_trans with (1 := Hlo).
      assert (HA : 0 < IZR (Z.pos ma) * pow2 ea).
      { apply Rmult_lt_0_compat; [apply IZR_lt; lia | apply pow2_pos]. }
      set (A := IZR (Z.pos ma) * pow2 ea) in *. set (C := IZR (Z.pos mc) * pow2 ec) in *.
      apply (Rmult_lt_reg_r C); [lra|].
      replace (A / C * C) with A by (field; lra). nra.
Qed.

Lemma tiny_value ma ea (x : float) s :
  Prim2SF x = S754_finite s ma ea -> pow2 (-1074) <= IZR (Z.pos ma) * pow2 ea.
Proof.
  intros Hx. destruct (valid_range ma ea (float_valid x _ _ _ Hx)) as (He & _).
  pose proof (pow2_le (-1074) ea ltac:(lia)). pose proof (pow2_pos (-1074)).
  assert (1 <= IZR (Z.pos ma)) by (apply IZR_le; lia). nra.
Qed.

Lemma mul_stays_nonzero a c :
  large_factor c -> nonzero_number (Prim2SF a) -> nonzero_number (Prim2SF (a * c)).
Proof.
  intros (mc & ec & Hc & _ & Hc2). rewrite mul_spec, Hc.
  destruct (Prim2SF a) as [sa | sa | | sa ma ea] eqn:Ha; try contradiction; intros _.
  - exact I.
  - unfold SF64mul, SFmul.
    destruct (round_aux_kind (xorb sa false) (Z.pos (ma * mc)) (ea + ec) loc_Exact
                (Pos2Z.is_nonneg _)) as [Hz | [-> | (m' & e' & ->)]]; try exact I.
    exfalso.
    pose proof (tiny_value ma ea a sa Ha) as Ht. pose proof (pow2_pos (-1074)) as Hp.
    destruct (round_zero_bound _ _ _ _ _ (IZR (Z.pos (ma * mc)) * pow2 (ea + ec))
                (Pos2Z.is_nonneg _) Hz) as [H0 | Hlt].
    + rewrite plus_IZR. pose proof (pow2_pos (ea + ec)). lra.
    + discriminate.
    + rewrite Pos2Z.inj_mul, mult_IZR, pow2_add in Hlt.
      replace (IZR (Z.pos ma) * IZR (Z.pos mc) * (pow2 ea * pow2 ec))
        with ((IZR (Z.pos ma) * pow2 ea) * (IZR (Z.pos mc) * pow2 ec)) in Hlt by ring.
      nra.
Qed.

Lemma div_stays_nonzero a c :
  small_factor c -> nonzero_number (Prim2SF a) -> nonzero_number (Prim2SF (a / c)).
Proof.
  intros (mc & ec & Hc & _ & Hc2). rewrite div_spec, Hc.
  destruct (Prim2SF a) as [sa | sa | | sa ma ea] eqn:Ha; try contradiction; intros _.
  - exact I.
  - unfold SF64div, SFdiv.
    destruct (div_core_spec ma mc ea ec)
      as (q & e' & l & sh & Hcore & Hsh & He & Hle & Hsel & Hq & Hb).
    rewrite Hcore.
    destruct (round_aux_kind (xorb sa false) q e' l Hq) as [Hz | [-> | (m' & e'' & ->)]];
      try exact I.
    exfalso.
    pose proof (tiny_value ma ea a sa Ha) as Ht. pose proof (pow2_pos (-1074)) as Hp.
    pose proof (quotient_bounds ma ea mc ec q e' sh Hsh He Hb) as [_ Hqb].
    assert (HC : 0 < IZR (Z.pos mc) * pow2 ec).
    { apply Rmult_lt_0_compat; [apply IZR_lt; lia | apply pow2_pos]. }
    set (A := IZR (Z.pos ma) * pow2 ea) in *. set (C := IZR (Z.pos mc) * pow2 ec) in *.
    assert (Hv : 2 * pow2 (-1074) <= A / C).
    { apply (Rmult_le_reg_r C); [lra|]. replace (A / C * C) with A by (field; lra). nra. }
    destruct (round_zero_bound _ _ _ _ _ (A / C) Hq Hz Hqb) as [H0 | Hlt]; [|lra].
    subst q. simpl in Hqb. rewrite Rmult_1_l in Hqb.
    (* the quotient of the mantissas is zero: the exponent is too low for that *)
    assert (Hma : (0 < Z.pos ma)%Z) by lia. assert (Hmc : (0 < Z.pos mc)%Z) by lia.
    pose proof (Zdigits2_bounds (Z.pos ma) Hma) as [Da _].
    pose proof (Zdigits2_bounds (Z.pos mc) Hmc) as [_ Dc].
    pose proof (Zdigits2_pos (Z.pos ma) Hma) as Pa.
    pose proof (Zdigits2_pos (Z.pos mc) Hmc) as Pc.
    set (da := Zdigits2 (Z.pos ma)) in *. set (dc := Zdigits2 (Z.pos mc)) in *.
    rewrite fexp64_eq in Hle.
    assert (He' : (-1073 <= e')%Z).
    { destruct (Z_lt_le_dec e' (-1073)) as [Hlt | Hge]; [|exact Hge]. exfalso.
      pose proof (pow2_le e' (-1074) ltac:(lia)). lra. }
    assert (HD : (e' <= da + ea - (dc + ec) - 53)%Z) by lia.
    apply IZR_le in Da. apply IZR_lt in Dc.
    rewrite <- pow2_IZR in Da, Dc by lia.
    assert (HA : pow2 (da - 1 + ea) <= A).
    { rewrite pow2_add. unfold A. apply Rmult_le_compat_r; [left; apply pow2_pos | exact Da]. }
    assert (HCu : C < pow2 (dc + ec)).
    { rewrite pow2_add. unfold C. apply Rmult_lt_compat_r; [apply pow2_pos | exact Dc]. }
    assert (HQ : pow2 (da - 1 + ea - (dc + ec)) <= A / C).
    { apply (Rmult_le_reg_r C); [lra|]. replace (A / C * C) with A by (field; lra).
      apply Rle_trans with (2 := HA).
      replace (da - 1 + ea)%Z with ((da - 1 + ea - (dc + ec)) + (dc + ec))%Z at 2 by lia.
      rewrite pow2_add. apply Rmult_le_compat_l; [left; apply pow2_pos | lra]. }
    pose proof (pow2_le e' (da - 1 + ea - (dc + ec)) ltac:(lia)). lra.
Qed.

Lemma factor_value c m e :
  Prim2SF c = S754_finite false m e -> IZR (Z.pos m) * pow2 e = F2R c.
Proof. intros H. unfold F2R. rewrite H. simpl. ring. Qed.

Lemma large_1000 : large_factor 1000.
Proof.
  exists 8796093022208000%positive, (-43)%Z. split; [reflexivity|]. split; [vm_compute; discriminate|].
  rewrite (factor_value 1000) by reflexivity. rewrite F2R_1000. lra.
Qed.

Lemma large_60 : large_factor 60.
Proof.
  exists 8444249301319680%positive, (-47)%Z. split; [reflexivity|]. split; [vm_compute; discriminate|].
  rewrite (factor_value 60) by reflexivity. rewrite F2R_60. lra.
Qed.

Lemma small_micro : small_factor 1e-6.
Proof.
  exists 4722366482869645%positive, (-72)%Z. split; [reflexivity|]. split; [lia|].
  rewrite (factor_value 1e-6) by reflexivity. rewrite F2R_micro. lra.
Qed.

Lemma small_nano : small_factor 1e-9.
Proof.
  exists 4835703278458517%positive, (-82)%Z. split; [reflexivity|]. split; [lia|].
  rewrite (factor_value 1e-9) by reflexivity. rewrite F2R_nano. lra.
Qed.

Lemma to_base_finite k x :
  In k registry -> is_finite x = true -> is_finite (to_base_fn k x) = true.
Proof.
  intros Hk Hx. revert k Hk. apply registry_cases; unit_arith;
    repeat first
      [ exact Hx
      | apply mul_stays_finite; [first [apply small_micro | apply small_nano]|]
      | apply div_stays_finite; [first [apply large_1000 | apply large_60]|] ].
Qed.

Lemma from_base_nonzero k x :
  In k registry -> nonzero_number (Prim2SF x) -> nonzero_number (Prim2SF (from_base_fn k x)).
Proof.
  intros Hk Hx. revert k Hk. apply registry_cases; unit_arith;
    repeat first
      [ exact Hx
      | apply mul_stays_nonzero; [first [apply large_1000 | apply large_60]|]
      | apply div_stays_nonzero; [first [apply small_micro | apply small_nano]|] ].
Qed.

(** X13. Converting to the base unit never overflows: a finite value has a
    finite base value. Converting from the base unit never loses a value: what
    is not zero (and not NaN) stays so. *)
Theorem conversion_range_safety (k : str) (x : float) :
  In k registry ->
  (is_finite x = true -> is_finite (to_base_fn k x) = true) /\
  (is_nan x = false -> (x =? 0)%float = false ->
   is_nan (from_base_fn k x) = false /\ (from_base_fn k x =? 0)%float = false).
Proof.
  intros Hk. split; [now apply to_base_finite|].
  intros Hn Hz. rewrite is_nan_SF in Hn. rewrite eqb_zero_SF in Hz.
  assert (Hx : nonzero_number (Prim2SF x)) by (destruct (Prim2SF x); try discriminate; exact I).
  pose proof (from_base_nonzero k x Hk Hx) as H.
  rewrite is_nan_SF, eqb_zero_SF. destruct (Prim2SF (from_base_fn k x)); try contradiction; auto.
Qed.

Lemma conversion_range_safety_witness :
  is_finite (to_base_fn (lit "nL/min") 0x1.fffffffffffffp+1023) = true /\
  is_nan (from_base_fn (lit "nL/min") 0x1p-1074) = false /\
  (from_base_fn (lit "nL/min") 0x1p-1074 =? 0)%float = false.
Proof.
  assert (Hk : In (lit "nL/min") registry) by (unfold registry; simpl; tauto).
  split.
  - apply (proj1 (conversion_range_safety (lit "nL/min") 0x1.fffffffffffffp+1023 Hk)).
    reflexivity.
  - apply (proj2 (conversion_range_safety (lit "nL/min") 0x1p-1074 Hk)); reflexivity.
Defined.

End RangeSafety.

(** ** Accuracy of a conversion *)

Section ConversionAccuracy.

Import Rounding.
Local Open Scope R_scope.

Lemma scaled_operand_finite a r :
  scaled_from (Prim2SF a) (Prim2SF r) -> is_finite r = true -> is_finite a = true.
Proof.
  rewrite !is_finite_SF. destruct (Prim2SF a); simpl; intros H; try (rewrite H; discriminate);
    reflexivity.
Qed.

Lemma to_base_accurate k x :
  In k registry -> pos_normal (to_base_fn k x) ->
  pos_normal x /\
  within_rel (/ 1000000000000000) (F2R x * base_factor k) (F2R (to_base_fn k x)).
Proof.
  intros Hk. revert k Hk.
  assert (Hid : pos_normal x -> pos_normal x /\
            within_rel (/ 1000000000000000) (F2R x * 1) (F2R x)).
  { intros Hx. split; [exact Hx|]. pose proof (pos_normal_value x Hx).
    pose proof (pow2_pos (-1022)). unfold within_rel. lra. }
  assert (Hmilli : pos_normal (x / 1000) -> pos_normal x /\
            within_rel (/ 1000000000000000) (F2R x * / 1000) (F2R (x / 1000))).
  { intros Hb.
    destruct (div_shrink x 1000 normal_1000 ltac:(rewrite F2R_1000; lra) Hb) as [Hx W].
    split; [exact Hx|]. pose proof (pos_normal_value x Hx). pose proof (pow2_pos (-1022)).
    unfold within, within_rel, delta in *. rewrite F2R_1000 in W.
    set (X := F2R x) in *. set (B := F2R (x / 1000)) in *. lra. }
  assert (Hmicro : pos_normal (x * 1e-6) -> pos_normal x /\
            within_rel (/ 1000000000000000) (F2R x * / 1000000) (F2R (x * 1e-6))).
  { intros Hb.
    destruct (mul_shrink x 1e-6 normal_micro ltac:(rewrite F2R_micro; lra) Hb) as [Hx W].
    split; [exact Hx|]. pose proof (pos_normal_value x Hx). pose proof (pow2_pos (-1022)).
    unfold within, within_rel, delta in *. rewrite F2R_micro in W.
    set (X := F2R x) in *. set (B := F2R (x * 1e-6)) in *. lra. }
  assert (Hnano : pos_normal (x * 1e-9) -> pos_normal x /\
            within_rel (/ 1000000000000000) (F2R x * / 1000000000) (F2R (x * 1e-9))).
  { intros Hb.
    destruct (mul_shrink x 1e-9 normal_nano ltac:(rewrite F2R_nano; lra) Hb) as [Hx W].
    split; [exact Hx|]. pose proof (pos_normal_value x Hx). pose proof (pow2_pos (-1022)).
    unfold within, within_rel, delta in *. rewrite F2R_nano in W.
    set (X := F2R x) in *. set (B := F2R (x * 1e-9)) in *. lra. }
  assert (Hhour : pos_normal (x / 60) -> pos_normal x /\
            within_rel (/ 1000000000000000) (F2R x * / 60) (F2R (x / 60))).
  { intros Hb.
    destruct (div_shrink x 60 normal_60 ltac:(rewrite F2R_60; lra) Hb) as [Hx W].
    split; [exact Hx|]. pose proof (pos_normal_value x Hx). pose proof (pow2_pos (-1022)).
    unfold within, within_rel, delta in *. rewrite F2R_60 in W.
    set (X := F2R x) in *. set (B := F2R (x / 60)) in *. lra. }
  assert (Hmh : pos_normal (x / 1000 / 60) -> pos_normal x /\
            within_rel (/ 1000000000000000) (F2R x * / 60000) (F2R (x / 1000 / 60))).
  { intros Hb.
    destruct (div_shrink (x / 1000) 60 normal_60 ltac:(rewrite F2R_60; lra) Hb) as [Ha W2].
    destruct (div_shrink x 1000 normal_1000 ltac:(rewrite F2R_1000; lra) Ha) as [Hx W1].
    split; [exact Hx|]. pose proof (pos_normal_value x Hx). pose proof (pow2_pos (-1022)).
    unfold within, within_rel, delta in *. rewrite F2R_60 in W2. rewrite F2R_1000 in W1.
    set (X := F2R x) in *. set (A := F2R (x / 1000)) in *.
    set (B := F2R (x / 1000 / 60)) in *. lra. }
  assert (Huh : pos_normal (x * 1e-6 / 60) -> pos_normal x /\
            within_rel (/ 1000000000000000) (F2R x * / 60000000) (F2R (x * 1e-6 / 60))).
  { intros Hb.
    destruct (div_shrink (x * 1e-6) 60 normal_60 ltac:(rewrite F2R_60; lra) Hb) as [Ha W2].
    destruct (mul_shrink x 1e-6 normal_micro ltac:(rewrite F2R_micro; lra) Ha) as [Hx W1].
    split; [exact Hx|]. pose proof (pos_normal_value x Hx). pose proof (pow2_pos (-1022)).
    unfold within, within_rel, delta in *. rewrite F2R_60 in W2. rewrite F2R_micro in W1.
    set (X := F2R x) in *. set (A := F2R (x * 1e-6)) in *.
    set (B := F2R (x * 1e-6 / 60)) in *. lra. }
  refine (registry_cases
            (fun k => pos_normal (to_base_fn k x) -> pos_normal x /\
               within_rel (/ 1000000000000000) (F2R x * base_factor k) (F2R (to_base_fn k x)))
            _ _ _ _ _ _ _ _ _);
    unit_arith; assumption.
Qed.

Lemma from_base_accurate k b :
  In k registry -> pos_normal b -> is_finite (from_base_fn k b) = true ->
  within_rel (/ 1000000000000000) (F2R b / base_factor k) (F2R (from_base_fn k b)).
Proof.
  intros Hk Hb. revert k Hk.
  pose proof (pos_normal_value b Hb) as HB. pose proof (pow2_pos (-1022)) as Hp.
  assert (Hid : is_finite b = true ->
            within_rel (/ 1000000000000000) (F2R b / 1) (F2R b)).
  { intros _. unfold within_rel. lra. }
  assert (Hmilli : is_finite (b * 1000) = true ->
            within_rel (/ 1000000000000000) (F2R b / / 1000) (F2R (b * 1000))).
  { intros Hy.
    destruct (mul_grow b 1000 normal_1000 ltac:(rewrite F2R_1000; lra) Hb Hy) as [_ W].
    unfold within, within_rel, delta in *. rewrite F2R_1000 in W.
    set (X := F2R b) in *. set (Y := F2R (b * 1000)) in *. lra. }
  assert (Hmicro : is_finite (b / 1e-6) = true ->
            within_rel (/ 1000000000000000) (F2R b / / 1000000) (F2R (b / 1e-6))).
  { intros Hy.
    destruct (div_grow b 1e-6 normal_micro ltac:(rewrite F2R_micro; lra) Hb Hy) as [_ W].
    unfold within, within_rel, delta in *. rewrite F2R_micro in W.
    set (X := F2R b) in *. set (Y := F2R (b / 1e-6)) in *. lra. }
  assert (Hnano : is_finite (b / 1e-9) = true ->
            within_rel (/ 1000000000000000) (F2R b / / 1000000000) (F2R (b / 1e-9))).
  { intros Hy.
    destruct (div_grow b 1e-9 normal_nano ltac:(rewrite F2R_nano; lra) Hb Hy) as [_ W].
    unfold within, within_rel, delta in *. rewrite F2R_nano in W.
    set (X := F2R b) in *. set (Y := F2R (b / 1e-9)) in *. lra. }
  assert (Hhour : is_finite (b * 60) = true ->
            within_rel (/ 1000000000000000) (F2R b / / 60) (F2R (b * 60))).
  { intros Hy.
    destruct (mul_grow b 60 normal_60 ltac:(rewrite F2R_60; lra) Hb Hy) as [_ W].
    unfold within, within_rel, delta in *. rewrite F2R_60 in W.
    set (X := F2R b) in *. set (Y := F2R (b * 60)) in *. lra. }
  assert (Hmh : is_finite (b * 60 * 1000) = true ->
            within_rel (/ 1000000000000000) (F2R b / / 60000) (F2R (b * 60 * 1000))).
  { intros Hy. pose proof (mul_operand_finite _ _ normal_1000 Hy) as Hq.
    destruct (mul_grow b 60 normal_60 ltac:(rewrite F2R_60; lra) Hb Hq) as [Hqn W1].
    destruct (mul_grow (b * 60) 1000 normal_1000 ltac:(rewrite F2R_1000; lra) Hqn Hy) as [_ W2].
    unfold within, within_rel, delta in *. rewrite F2R_60 in W1. rewrite F2R_1000 in W2.
    set (X := F2R b) in *. set (Q := F2R (b * 60)) in *.
    set (Y := F2R (b * 60 * 1000)) in *. lra. }
  assert (Huh : is_finite (b * 60 / 1e-6) = true ->
            within_rel (/ 1000000000000000) (F2R b / / 60000000) (F2R (b * 60 / 1e-6))).
  { intros Hy. pose proof (div_operand_finite _ _ normal_micro Hy) as Hq.
    destruct (mul_grow b 60 normal_60 ltac:(rewrite F2R_60; lra) Hb Hq) as [Hqn W1].
    destruct (div_grow (b * 60) 1e-6 normal_micro ltac:(rewrite F2R_micro; lra) Hqn Hy)
      as [_ W2].
    unfold within, within_rel, delta in *. rewrite F2R_60 in W1. rewrite F2R_micro in W2.
    set (X := F2R b) in *. set (Q := F2R (b * 60)) in *.
    set (Y := F2R (b * 60 / 1e-6)) in *. lra. }
  refine (registry_cases
            (fun k => is_finite (from_base_fn k b) = true ->
               within_rel (/ 1000000000000000) (F2R b / base_factor k) (F2R (from_base_fn k b)))
            _ _ _ _ _ _ _ _ _);
    unit_arith; assumption.
Qed.

Lemma base_factor_pos k : In k registry -> 0 < base_factor k.
Proof.
  revert k. refine (registry_cases (fun k => 0 < base_factor k) _ _ _ _ _ _ _ _ _);
    unfold base_factor, dict_get; simpl; lra.
Qed.

Lemma within_rel_compose (fi fo X B Y : R) :
  0 < fi -> 0 < fo -> 0 <= X ->
  within_rel (/ 1000000000000000) (X * fi) B ->
  within_rel (/ 1000000000000000) (B / fo) Y ->
  within_rel (/ 100000000000000) (X * fi / fo) Y.
Proof.
  unfold within_rel. intros Hfi Hfo HX [B1 B2] [Y1 Y2].
  assert (Hinv : 0 < / fo) by now apply Rinv_0_lt_compat.
  assert (HT : 0 <= X * fi / fo).
  { unfold Rdiv. apply Rmult_le_pos; [apply Rmult_le_pos; lra | lra]. }
  assert (U1 : X * fi / fo * (1 - / 1000000000000000) <= B / fo).
  { unfold Rdiv. replace (X * fi * / fo * (1 - / 1000000000000000))
      with (X * fi * (1 - / 1000000000000000) * / fo) by ring.
    apply Rmult_le_compat_r; lra. }
  assert (U2 : B / fo <= X * fi / fo * (1 + / 1000000000000000)).
  { unfold Rdiv. replace (X * fi * / fo * (1 + / 1000000000000000))
      with (X * fi * (1 + / 1000000000000000) * / fo) by ring.
    apply Rmult_le_compat_r; lra. }
  set (T := X * fi / fo) in *. set (U := B / fo) in *. split; lra.
Qed.

(** X14. Conversions are accurate: when the base value is a normal double
    and the result is finite, the result is within a relative error of 1e-14
    of the input times the exact decimal factor of the two units. *)
Theorem conversion_accurate (in_unit out_unit : str) (x : float) :
  In in_unit registry -> In out_unit registry ->
  (0x1p-1022 <=? to_base_fn in_unit x)%float = true ->
  is_finite (converted in_unit out_unit x) = true ->
  0 < F2R x /\
  within_rel (/ 100000000000000)
             (F2R x * base_factor in_unit / base_factor out_unit)
             (F2R (converted in_unit out_unit x)).
Proof.
  intros Hi Ho Hb Hy. unfold converted in *.
  assert (Hbf : is_finite (to_base_fn in_unit x) = true).
  { apply (scaled_operand_finite _ _ (from_base_scaled out_unit _ Ho) Hy). }
  pose proof (normal_base _ Hb Hbf) as Hbn.
  destruct (to_base_accurate in_unit x Hi Hbn) as [Hxn W1].
  pose proof (from_base_accurate out_unit _ Ho Hbn Hy) as W2.
  pose proof (pos_normal_value x Hxn) as HX. pose proof (pow2_pos (-1022)) as Hp.
  split; [lra|].
  apply (within_rel_compose _ _ _ (F2R (to_base_fn in_unit x)));
    auto using base_factor_pos. lra.
Qed.

Lemma conversion_accurate_witness :
  0 < F2R 250 /\
  within_rel (/ 100000000000000)
             (F2R 250 * base_factor (lit "mL/min") / base_factor (lit "L/h"))
             (F2R (converted (lit "mL/min") (lit "L/h") 250)).
Proof.
  apply (conversion_accurate (lit "mL/min") (lit "L/h") 250);
    try (unfold registry; simpl; tauto); reflexivity.
Defined.

End ConversionAccuracy.

(** ** Reading formatted text back *)

Lemma digit_cases c :
  FloatParse.is_digit c = true ->
  (c = 48 \/ c = 49 \/ c = 50 \/ c = 51 \/ c = 52 \/ c = 53 \/ c = 54 \/ c = 55 \/ c = 56
   \/ c = 57)%N.
Proof.
  unfold FloatParse.is_digit. intros H. apply andb_true_iff in H as [H1 H2].
  apply N.leb_le in H1, H2. lia.
Qed.

Lemma number_char_cases c :
  number_char c = true ->
  FloatParse.is_digit c = true \/
  (c = 45 \/ c = 43 \/ c = 46 \/ c = 101 \/ c = 105 \/ c = 110 \/ c = 102)%N.
Proof.
  unfold number_char. intros H.
  repeat (apply orb_true_iff in H as [H | H]); try (apply N.eqb_eq in H); tauto.
Qed.

Lemma number_char_plain c :
  number_char c = true ->
  is_space c = false /\ FloatParse.float_space c = false /\ (c =? 44)%N = false.
Proof.
  intros H. apply number_char_cases in H as [H | H].
  - apply digit_cases in H. repeat (destruct H as [-> | H]; [repeat split|]). subst. repeat split.
  - repeat (destruct H as [-> | H]; [repeat split|]). subst. repeat split.
Qed.


Lemma number_text_rev s : number_text s -> number_text (rev s).
Proof. apply Forall_rev. Qed.



Lemma ltrim_number s : number_text s -> FloatParse.ltrim s = s.
Proof.
  intros H. destruct H as [|c s Hc _]; [reflexivity|]. simpl.
  now destruct (number_char_plain c Hc) as (_ & -> & _).
Qed.

Lemma trim_number s : number_text s -> FloatParse.trim s = s.
Proof.
  intros H. unfold FloatParse.trim. rewrite (ltrim_number s H).
  rewrite ltrim_number by now apply number_text_rev. apply rev_involutive.
Qed.


Lemma all_digits_number s : all_digits s -> number_text s.
Proof.
  apply Forall_impl. intros c H. unfold number_char. now rewrite H.
Qed.

Lemma is_digit_decimal c : FloatParse.is_digit c = true -> FloatParse.is_decimal c = true.
Proof.
  intros H. apply digit_cases in H.
  repeat (destruct H as [-> | H]; [reflexivity|]). subst. reflexivity.
Qed.

Lemma digits_tail_run ds rest acc :
  all_digits ds -> ends_digits rest ->
  FloatParse.digits_tail (ds ++ rest) acc = (acc ++ ds, rest).
Proof.
  intros H Hr. revert acc. induction H as [|c ds Hc _ IH]; intros acc.
  - rewrite app_nil_r. simpl. destruct rest as [|c r]; [reflexivity|].
    destruct Hr as [-> | ->]; reflexivity.
  - simpl. rewrite (is_digit_decimal c Hc), IH, <- app_assoc. reflexivity.
Qed.

Lemma digitpart_run ds rest :
  all_digits ds -> ds <> [] -> ends_digits rest ->
  FloatParse.digitpart (ds ++ rest) = Some (ds, rest).
Proof.
  intros H Hne Hr. destruct H as [|c ds Hc Hds]; [congruence|].
  simpl. rewrite (is_digit_decimal c Hc). now rewrite digits_tail_run.
Qed.

Lemma exponent_part_ends E : exponent_part E -> ends_digits E.
Proof. intros [-> | (es & ex & -> & _)]; simpl; auto. Qed.

Lemma exponent_reads E : exponent_part E -> exists k, FloatParse.exponent E = Some k.
Proof.
  intros [-> | (es & ex & -> & Hes & Hex & Hne)]; [now exists 0%Z|].
  simpl.
  assert (Hd : FloatParse.digitpart ex = Some (ex, [])).
  { rewrite <- (app_nil_r ex) at 1. now apply digitpart_run. }
  destruct Hes as [-> | ->]; simpl; rewrite Hd; eauto.
Qed.

Lemma point_and_ends p fp E :
  exponent_part E -> ends_digits (point_and p fp ++ E).
Proof.
  intros HE. destruct p; simpl; [now apply exponent_part_ends | auto].
Qed.

Lemma number_reads ip p fp E :
  all_digits ip -> ip <> [] -> all_digits fp -> List.length fp = p -> exponent_part E ->
  FloatParse.number (ip ++ point_and p fp ++ E) = Some (ip, fp, E).
Proof.
  intros Hip Hne Hfp Hlen HE. unfold FloatParse.number.
  rewrite digitpart_run by (auto using point_and_ends).
  destruct p as [|p]; simpl point_and.
  - destruct fp; [|discriminate]. simpl.
    destruct HE as [-> | (es & ex & -> & _)]; reflexivity.
  - simpl. rewrite digitpart_run; auto using exponent_part_ends.
    destruct fp; [discriminate | discriminate].
Qed.

Lemma take_sign_digits sg B :
  starts_digit B -> FloatParse.take_sign (Fmt.sign sg ++ B) = (sg, B).
Proof.
  intros H. destruct sg; [reflexivity|]. simpl.
  destruct B as [|c B]; [contradiction|]. simpl in H.
  apply digit_cases in H. repeat (destruct H as [-> | H]; [reflexivity|]). now subst.
Qed.

Lemma digits_not_word B :
  starts_digit B ->
  str_eqb (map FloatParse.lower B) (lit "inf") || str_eqb (map FloatParse.lower B) (lit "infinity")
    = false /\
  str_eqb (map FloatParse.lower B) (lit "nan") = false.
Proof.
  destruct B as [|c B]; [contradiction|]. simpl. intros H.
  apply digit_cases in H. repeat (destruct H as [-> | H]; [split; reflexivity|]).
  subst. split; reflexivity.
Qed.

Lemma sign_number sg : number_text (Fmt.sign sg).
Proof. destruct sg; repeat constructor. Qed.

Lemma exponent_part_number E : exponent_part E -> number_text E.
Proof.
  intros [-> | (es & ex & -> & Hes & Hex & _)]; [constructor|].
  simpl. constructor; [reflexivity|]. constructor.
  - destruct Hes as [-> | ->]; reflexivity.
  - now apply all_digits_number.
Qed.

Lemma point_and_number p fp : all_digits fp -> number_text (point_and p fp).
Proof.
  intros H. destruct p; simpl; [constructor|]. constructor; [reflexivity|].
  now apply all_digits_number.
Qed.

(** A decimal text: sign, digits, an optional point with digits, an optional
    exponent. [float] reads it. *)
Lemma decimal_reads sg ip p fp E :
  all_digits ip -> ip <> [] -> all_digits fp -> List.length fp = p -> exponent_part E ->
  let s := Fmt.sign sg ++ ip ++ point_and p fp ++ E in
  number_text s /\ exists y, FloatParse.py_float s = Some y.
Proof.
  intros Hip Hne Hfp Hlen HE s.
  assert (Hs : number_text s).
  { unfold s, number_text. rewrite !Forall_app. split; [apply sign_number|].
    split; [now apply all_digits_number|].
    split; [now apply point_and_number | now apply exponent_part_number]. }
  split; [exact Hs|].
  unfold FloatParse.py_float. rewrite (trim_number s Hs). unfold s.
  assert (Hd : starts_digit (ip ++ point_and p fp ++ E)) by now apply starts_digit_app.
  rewrite take_sign_digits by exact Hd.
  destruct (digits_not_word _ Hd) as [-> ->].
  rewrite number_reads by assumption.
  destruct (exponent_reads E HE) as [k ->]. eauto.
Qed.

Lemma fixed_reads p s :
  fixed_point_shape p s -> number_text s /\ exists y, FloatParse.py_float s = Some y.
Proof.
  intros (sg & ip & fp & -> & Hne & Hip & Hfp & Hlen).
  rewrite <- (app_nil_r (point_and p fp)).
  apply decimal_reads; auto. now left.
Qed.

Lemma sci_reads p s :
  scientific_shape p s -> number_text s /\ exists y, FloatParse.py_float s = Some y.
Proof.
  intros (sg & d & fp & es & ex & -> & Hd & Hfp & Hlen & Hes & Hex & Hex2).
  apply (decimal_reads sg [d] p fp (lit "e" ++ [es] ++ ex)); auto.
  - now repeat constructor.
  - discriminate.
  - right. exists es, ex. repeat split; auto. intros ->. simpl in Hex2. lia.
Qed.

Lemma fmt_text_cases cfg x :
  isna x = false ->
  fixed_point_shape (decimals cfg) (fmt cfg x) \/
  scientific_shape (decimals cfg) (fmt cfg x) \/
  fmt cfg x = lit "inf" \/ fmt cfg x = lit "-inf".
Proof.
  intros Hna. unfold fmt. rewrite Hna.
  destruct (is_finite x) eqn:Hfin.
  - destruct (use_sci cfg x); [right; left; now apply format_e_shape | left; now apply format_f_shape].
  - assert (Hinf : exists s, Prim2SF x = S754_infinity s).
    { rewrite Rounding.is_finite_SF in Hfin. unfold isna in Hna. 
      revert Hna Hfin. unfold is_nan. rewrite eqb_spec. unfold SFeqb.
      destruct (Prim2SF x) as [s | s | | s m e]; try discriminate; eauto. }
    destruct Hinf as [s Hs]. right. right.
    unfold Fmt.format_e, Fmt.format_f. rewrite Hs.
    destruct (use_sci cfg x), s; simpl; tauto.
Qed.


(** ** Accuracy of the formatted text *)

Section DecimalAccuracy.

Local Open Scope Z_scope.

Lemma round_half_even_spec N d :
  0 < d -> 2 * Z.abs (Fmt.round_half_even N d * d - N) <= d.
Proof.
  intros Hd. unfold Fmt.round_half_even.
  pose proof (Z.div_mod N d ltac:(lia)) as Hdm.
  pose proof (Z.mod_pos_bound N d Hd) as Hm.
  destruct (Z.compare_spec (2 * (N mod d)) d) as [H | H | H]; [destruct (Z.even (N / d))| |]; nia.
Qed.

Lemma round_half_even_mono N d a :
  0 < d -> a * d <= N -> a <= Fmt.round_half_even N d.
Proof.
  intros Hd H. unfold Fmt.round_half_even.
  assert (a <= N / d) by (apply Z.div_le_lower_bound; lia).
  destruct (2 * (N mod d) ?= d); [destruct (Z.even (N / d))| |]; lia.
Qed.

Lemma round_half_even_upper N d a :
  0 < d -> N <= a * d -> Fmt.round_half_even N d <= a.
Proof.
  intros Hd H. unfold Fmt.round_half_even.
  pose proof (Z.div_mod N d ltac:(lia)) as Hdm.
  pose proof (Z.mod_pos_bound N d Hd) as Hm.
  assert (Hq : N / d <= a) by (apply Z.div_le_upper_bound; lia).
  destruct (Z.eq_dec (N / d) a) as [He | He].
  - assert (N mod d = 0) by nia.
    destruct (Z.compare_spec (2 * (N mod d)) d) as [H1 | H1 | H1];
      [destruct (Z.even (N / d))| |]; lia.
  - destruct (2 * (N mod d) ?= d); [destruct (Z.even (N / d))| |]; lia.
Qed.

Lemma digit_value_digit n : FloatParse.digit_value (Fmt.digit n) = Some (n mod 10).
Proof.
  unfold FloatParse.digit_value, Fmt.digit, FloatParse.digit_zeros.
  pose proof (Z.mod_pos_bound n 10 ltac:(lia)) as H.
  cbn [find].
  assert (Hc : ((48 <=? Z.to_N (48 + n mod 10)) && (Z.to_N (48 + n mod 10) <? 48 + 10))%N = true).
  { apply andb_true_iff. split; [apply N.leb_le | apply N.ltb_lt]; lia. }
  rewrite Hc. f_equal. lia.
Qed.

Lemma read_digits_fixed w : forall n acc,
  fold_left (fun acc c => 10 * acc + match FloatParse.digit_value c with
                                     | Some d => d | None => 0 end)
            (Fmt.digits_fixed w n) acc
  = acc * 10 ^ Z.of_nat w + n mod 10 ^ Z.of_nat w.
Proof.
  induction w as [|w IH]; intros n acc.
  - simpl. rewrite Z.mod_1_r. lia.
  - cbn [Fmt.digits_fixed]. rewrite fold_left_app, IH. cbn [fold_left].
    rewrite digit_value_digit.
    replace (Z.of_nat (S w)) with (1 + Z.of_nat w) by lia.
    rewrite Z.pow_add_r by lia. change (10 ^ 1) with 10.
    rewrite (Z.rem_mul_r n 10 (10 ^ Z.of_nat w)) by lia. ring.
Qed.

Lemma ndigits_spec fuel : forall n,
  0 <= n < 2 ^ (Z.of_nat fuel + 1) ->
  n < 10 ^ Z.of_nat (Fmt.ndigits fuel n) /\
  (0 < n -> 10 ^ (Z.of_nat (Fmt.ndigits fuel n) - 1) <= n).
Proof.
  induction fuel as [|f IH]; intros n Hn.
  - simpl in *. change (2 ^ 1) with 2 in Hn. change (10 ^ 1) with 10. change (10 ^ (1-1)) with 1. lia.
  - cbn [Fmt.ndigits]. destruct (Z.ltb_spec n 10) as [Hlt | Hge].
    + change (Z.of_nat 1) with 1. change (10 ^ 1) with 10. change (10 ^ (1-1)) with 1. lia.
    + assert (Hn' : 0 <= n / 10 < 2 ^ (Z.of_nat f + 1)).
      { split; [apply Z.div_pos; lia|].
        apply Z.div_lt_upper_bound; [lia|].
        replace (Z.of_nat (S f) + 1) with (1 + (Z.of_nat f + 1)) in Hn by lia.
        rewrite Z.pow_add_r in Hn by lia. change (2 ^ 1) with 2 in Hn. lia. }
      destruct (IH (n / 10) Hn') as [H1 H2].
      assert (Hpos : 0 < n / 10) by (apply Z.div_str_pos; lia).
      specialize (H2 Hpos).
      pose proof (Z.div_mod n 10 ltac:(lia)) as Hdm.
      pose proof (Z.mod_pos_bound n 10 ltac:(lia)) as Hm.
      replace (Z.of_nat (S (Fmt.ndigits f (n / 10)))) with (1 + Z.of_nat (Fmt.ndigits f (n / 10))) by lia.
      rewrite Z.pow_add_r by lia. change (10 ^ 1) with 10.
      replace (1 + Z.of_nat (Fmt.ndigits f (n / 10)) - 1) with
        (1 + (Z.of_nat (Fmt.ndigits f (n / 10)) - 1)).
      2: lia.
      pose proof (ndigits_pos f (n / 10)) as Hp.
      rewrite Z.pow_add_r by lia. change (10 ^ 1) with 10. lia.
Qed.

Lemma num_digits_spec n :
  0 <= n ->
  n < 10 ^ Z.of_nat (Fmt.num_digits n) /\
  (0 < n -> 10 ^ (Z.of_nat (Fmt.num_digits n) - 1) <= n).
Proof.
  intros Hn. unfold Fmt.num_digits. apply ndigits_spec.
  split; [exact Hn|].
  destruct (Z.eq_dec n 0) as [-> | Hne]; [reflexivity|].
  rewrite Z2Nat.id by apply Z.log2_nonneg.
  pose proof (Z.log2_spec n ltac:(lia)) as H.
  replace (Z.log2 n + 1) with (Z.succ (Z.log2 n)) by lia. lia.
Qed.

Lemma read_digits_of a p b :
  0 <= a -> 0 <= b < 10 ^ Z.of_nat p ->
  FloatParse.int_of_digits (Fmt.digits_of a ++ Fmt.digits_fixed p b) = a * 10 ^ Z.of_nat p + b.
Proof.
  intros Ha Hb. unfold FloatParse.int_of_digits, Fmt.digits_of.
  rewrite fold_left_app, !read_digits_fixed.
  destruct (num_digits_spec a Ha) as [H _].
  rewrite (Z.mod_small a) by lia. rewrite (Z.mod_small b) by lia. ring.
Qed.

Local Open Scope R_scope.

Lemma pow10_pos k : 0 < pow10 k.
Proof. apply powerRZ_lt. lra. Qed.

Lemma pow10_add a b : pow10 (a + b) = pow10 a * pow10 b.
Proof. apply powerRZ_add. lra. Qed.

Lemma pow10_IZR n : (0 <= n)%Z -> pow10 n = IZR (10 ^ n).
Proof.
  intros Hn. unfold pow10. rewrite <- (Z2Nat.id n Hn) at 1.
  rewrite <- pow_powerRZ. rewrite pow_IZR. now rewrite Z2Nat.id.
Qed.

Lemma pow10_neg n : pow10 (- n) = / pow10 n.
Proof.
  assert (H : pow10 (- n) * pow10 n = 1).
  { rewrite <- pow10_add. replace (- n + n)%Z with 0%Z by lia. reflexivity. }
  pose proof (pow10_pos n). apply (Rmult_eq_reg_r (pow10 n)); [|lra].
  rewrite H. field. lra.
Qed.

Lemma ratio_value m e :
  let '(n, d) := Fmt.ratio m e in
  (0 < n)%Z /\ (0 < d)%Z /\ IZR n = IZR (Z.pos m) * pow2 e * IZR d.
Proof.
  unfold Fmt.ratio. destruct (Z.leb_spec 0 e) as [He | He].
  - assert (0 < 2 ^ e)%Z by (apply Z.pow_pos_nonneg; lia).
    split; [lia|]. split; [lia|]. rewrite mult_IZR, <- Rounding.pow2_IZR by lia. ring.
  - assert (0 < 2 ^ (- e))%Z by (apply Z.pow_pos_nonneg; lia).
    split; [lia|]. split; [lia|].
    replace e with (- (- e))%Z at 1 by lia. rewrite Rounding.pow2_neg by lia.
    field. apply not_0_IZR. lia.
Qed.

Lemma abs_F2R_finite x s m e :
  Prim2SF x = S754_finite s m e -> Rabs (F2R x) = IZR (Z.pos m) * pow2 e.
Proof.
  intros H. unfold F2R. rewrite H. simpl SF2R.
  pose proof (Rounding.pow2_pos e) as Hp.
  assert (0 < IZR (Z.pos m)) by (apply IZR_lt; lia).
  assert (0 < IZR (Z.pos m) * pow2 e) by nra.
  destruct s.
  - rewrite Rabs_left by lra. ring.
  - rewrite Rabs_pos_eq by lra. ring.
Qed.

(** Rounding [N/d] to an integer is off by at most one half. *)
Lemma round_half_even_R N d :
  (0 < d)%Z -> Rabs (IZR (Fmt.round_half_even N d) - IZR N / IZR d) <= / 2.
Proof.
  intros Hd. pose proof (round_half_even_spec N d Hd) as H.
  apply IZR_le in H. rewrite mult_IZR, abs_IZR, minus_IZR, mult_IZR in H.
  assert (HD : 0 < IZR d) by (apply IZR_lt; lia).
  set (r := IZR (Fmt.round_half_even N d)) in *.
  replace (r - IZR N / IZR d) with ((r * IZR d - IZR N) / IZR d) by (field; lra).
  unfold Rdiv. rewrite Rabs_mult, (Rabs_pos_eq (/ IZR d)).
  2: { left. now apply Rinv_0_lt_compat. }
  apply (Rmult_le_reg_r (IZR d)); [exact HD|].
  rewrite Rmult_assoc, Rinv_l by lra. lra.
Qed.

Lemma fixed_digits_value (n d : Z) (p : nat) (v : R) :
  (0 <= n)%Z -> (0 < d)%Z -> IZR n = v * IZR d ->
  let r := Fmt.round_half_even (n * 10 ^ Z.of_nat p) d in
  let ip := Fmt.digits_of (r / 10 ^ Z.of_nat p) in
  let fp := Fmt.digits_fixed p (r mod 10 ^ Z.of_nat p) in
  Rabs (shown_value (ip ++ fp) (- Z.of_nat p) - v) <= / 2 * pow10 (- Z.of_nat p).
Proof.
  intros Hn Hd Hv r ip fp.
  assert (HP : (0 < 10 ^ Z.of_nat p)%Z) by (apply Z.pow_pos_nonneg; lia).
  assert (Hr : (0 <= r)%Z) by (apply round_half_even_mono; nia).
  unfold shown_value, ip, fp.
  rewrite read_digits_of.
  2: now apply Z.div_pos.
  2: now apply Z.mod_pos_bound.
  rewrite Z.mul_comm, <- Z.div_mod by lia.
  pose proof (round_half_even_R (n * 10 ^ Z.of_nat p) d Hd) as H. fold r in H.
  rewrite mult_IZR, Hv in H.
  assert (HD : 0 < IZR d) by (apply IZR_lt; lia).
  replace (v * IZR d * IZR (10 ^ Z.of_nat p) / IZR d) with (v * IZR (10 ^ Z.of_nat p)) in H
    by (field; lra).
  rewrite pow10_neg, pow10_IZR by lia.
  assert (HPR : 0 < IZR (10 ^ Z.of_nat p)) by (apply IZR_lt; lia).
  set (P := IZR (10 ^ Z.of_nat p)) in *.
  replace (IZR r * / P - v) with ((IZR r - v * P) * / P) by (field; lra).
  rewrite Rabs_mult, (Rabs_pos_eq (/ P)).
  2: { left. now apply Rinv_0_lt_compat. }
  apply Rmult_le_compat_r; [left; now apply Rinv_0_lt_compat | exact H].
Qed.

(** X16. Fixed-point text is correctly rounded: the decimal number it shows
    differs from the absolute value of the float by at most half a unit of the
    last digit shown. *)
Theorem fixed_point_accuracy (cfg : FormatConfig) (x : float) :
  is_finite x = true -> use_sci cfg x = false ->
  let p := decimals cfg in
  exists ip fp,
    fmt cfg x = Fmt.sign (signbit x) ++ ip ++ point_and p fp /\
    ip <> [] /\ all_digits ip /\ all_digits fp /\ List.length fp = p /\
    Rabs (shown_value (ip ++ fp) (- Z.of_nat p) - Rabs (F2R x)) <= / 2 * pow10 (- Z.of_nat p).
Proof.
  intros Hfin Hsci p.
  assert (Hna : isna x = false).
  { unfold isna. unfold is_finite in Hfin. now destruct (is_nan x). }
  unfold fmt. rewrite Hna, Hsci. fold p. unfold Fmt.format_f, signbit.
  destruct (finite_cases x Hfin) as [(s & Hx) | (s & m & e & Hx)].
  - rewrite Hx. exists (Fmt.digits_of 0), (Fmt.digits_fixed p 0).
    rewrite frac_point_and.
    split; [reflexivity|]. split; [apply digits_of_nonempty|].
    split; [apply digits_fixed_digits|]. split; [apply digits_fixed_digits|].
    split; [apply digits_fixed_length|].
    assert (H0 : Rabs (F2R x) = 0) by (unfold F2R; rewrite Hx; apply Rabs_R0).
    rewrite H0.
    pose proof (fixed_digits_value 0 1 p 0 ltac:(lia) ltac:(lia) ltac:(simpl; ring)) as H.
    cbv zeta in H. simpl Z.mul in H.
    assert (Hr : Fmt.round_half_even 0 1 = 0%Z) by reflexivity.
    rewrite Hr in H. rewrite Z.div_0_l, Z.mod_0_l in H; try (apply Z.pow_nonzero; lia).
    exact H.
  - rewrite Hx. pose proof (ratio_value m e) as Hr.
    destruct (Fmt.ratio m e) as [n d]. destruct Hr as (Hn & Hd & Hv).
    eexists _, _. rewrite frac_point_and.
    split; [reflexivity|]. split; [apply digits_of_nonempty|].
    split; [apply digits_fixed_digits|]. split; [apply digits_fixed_digits|].
    split; [apply digits_fixed_length|].
    rewrite (abs_F2R_finite x s m e Hx).
    apply (fixed_digits_value n d p); [lia | exact Hd | exact Hv].
Qed.

Lemma fixed_point_accuracy_witness :
  exists ip fp,
    fmt cfg_default 2.5 = Fmt.sign (signbit 2.5) ++ ip ++ point_and 3 fp /\
    ip <> [] /\ all_digits ip /\ all_digits fp /\ List.length fp = 3%nat /\
    Rabs (shown_value (ip ++ fp) (- Z.of_nat 3) - Rabs (F2R 2.5)) <= / 2 * pow10 (- Z.of_nat 3).
Proof.
  apply (fixed_point_accuracy cfg_default 2.5); reflexivity.
Defined.

Lemma IZR_pow10 (n : nat) : IZR (10 ^ Z.of_nat n) = pow10 (Z.of_nat n).
Proof. rewrite pow10_IZR by lia. reflexivity. Qed.

Lemma dec_exponent_spec n d :
  (0 < n)%Z -> (0 < d)%Z ->
  let k := Fmt.dec_exponent n d in
  pow10 k <= IZR n / IZR d < pow10 (k + 1).
Proof.
  intros Hn Hd. unfold Fmt.dec_exponent.
  set (w := Fmt.num_digits d). set (q := (n * 10 ^ Z.of_nat w / d)%Z).
  cbv zeta.
  destruct (num_digits_spec d ltac:(lia)) as [Hdw _]. fold w in Hdw.
  assert (HW : (0 < 10 ^ Z.of_nat w)%Z) by (apply Z.pow_pos_nonneg; lia).
  assert (Hq : (1 <= q)%Z) by (apply Z.div_le_lower_bound; nia).
  destruct (num_digits_spec q ltac:(lia)) as [Hhi Hlo]. specialize (Hlo ltac:(lia)).
  set (nd := Fmt.num_digits q) in *.
  assert (Hnd : (1 <= Z.of_nat nd)%Z) by (pose proof (ndigits_pos (Z.to_nat (Z.log2 q)) q); unfold nd, Fmt.num_digits; lia).
  pose proof (Z.div_mod (n * 10 ^ Z.of_nat w) d ltac:(lia)) as Hdm. fold q in Hdm.
  pose proof (Z.mod_pos_bound (n * 10 ^ Z.of_nat w) d Hd) as Hm.
  assert (H1 : (10 ^ (Z.of_nat nd - 1) * d <= n * 10 ^ Z.of_nat w)%Z) by nia.
  assert (H2 : (n * 10 ^ Z.of_nat w < 10 ^ Z.of_nat nd * d)%Z) by nia.
  apply IZR_le in H1. apply IZR_lt in H2. rewrite !mult_IZR in H1, H2.
  rewrite <- pow10_IZR in H1 by lia. rewrite !IZR_pow10 in *.
  assert (HD : 0 < IZR d) by (apply IZR_lt; lia).
  pose proof (pow10_pos (Z.of_nat w)) as HPw.
  replace (Z.of_nat nd - 1 - Z.of_nat w)%Z with ((Z.of_nat nd - 1) + - Z.of_nat w)%Z by lia.
  replace (Z.of_nat nd - 1 + - Z.of_nat w + 1)%Z with (Z.of_nat nd + - Z.of_nat w)%Z by lia.
  rewrite !pow10_add, pow10_neg.
  split.
  - apply (Rmult_le_reg_r (IZR d * pow10 (Z.of_nat w))); [nra|].
    replace (pow10 (Z.of_nat nd - 1) * / pow10 (Z.of_nat w) * (IZR d * pow10 (Z.of_nat w)))
      with (pow10 (Z.of_nat nd - 1) * IZR d) by (field; lra).
    replace (IZR n / IZR d * (IZR d * pow10 (Z.of_nat w))) with (IZR n * pow10 (Z.of_nat w))
      by (field; lra).
    exact H1.
  - apply (Rmult_lt_reg_r (IZR d * pow10 (Z.of_nat w))); [nra|].
    replace (pow10 (Z.of_nat nd) * / pow10 (Z.of_nat w) * (IZR d * pow10 (Z.of_nat w)))
      with (pow10 (Z.of_nat nd) * IZR d) by (field; lra).
    replace (IZR n / IZR d * (IZR d * pow10 (Z.of_nat w))) with (IZR n * pow10 (Z.of_nat w))
      by (field; lra).
    exact H2.
Qed.

Lemma scaled_spec n d j :
  (0 < d)%Z -> Rabs (IZR (Fmt.scaled n d j) - IZR n / IZR d * pow10 j) <= / 2.
Proof.
  intros Hd. unfold Fmt.scaled.
  assert (HD : 0 < IZR d) by (apply IZR_lt; lia).
  destruct (Z.leb_spec 0 j) as [Hj | Hj].
  - pose proof (round_half_even_R (n * 10 ^ j) d Hd) as H.
    rewrite mult_IZR, <- pow10_IZR in H by lia.
    replace (IZR n / IZR d * pow10 j) with (IZR n * pow10 j / IZR d) by (field; lra).
    exact H.
  - assert (HP : (0 < 10 ^ (- j))%Z) by (apply Z.pow_pos_nonneg; lia).
    pose proof (round_half_even_R n (d * 10 ^ (- j)) ltac:(nia)) as H.
    rewrite mult_IZR, <- pow10_IZR in H by lia.
    pose proof (pow10_pos (- j)) as Hp.
    replace (IZR n / IZR d * pow10 j) with (IZR n / (IZR d * pow10 (- j))).
    + exact H.
    + rewrite (pow10_neg j). pose proof (pow10_pos j). field. split; lra.
Qed.

Lemma Rabs_bounds a b : Rabs a <= b -> - b <= a <= b.
Proof. unfold Rabs. destruct (Rcase_abs a); lra. Qed.

Lemma scale_back (r v : R) (j : Z) :
  Rabs (r - v * pow10 j) <= / 2 -> Rabs (r * pow10 (- j) - v) <= / 2 * pow10 (- j).
Proof.
  intros H. pose proof (pow10_pos j) as Hj. pose proof (pow10_pos (- j)) as Hnj.
  replace (r * pow10 (- j) - v) with ((r - v * pow10 j) * pow10 (- j)).
  - rewrite Rabs_mult, (Rabs_pos_eq (pow10 (- j))) by lra.
    apply Rmult_le_compat_r; lra.
  - rewrite (pow10_neg j). field. lra.
Qed.

Lemma pow10_succ k : pow10 (k + 1) = 10 * pow10 k.
Proof. rewrite pow10_add. change (pow10 1) with (10 * 1). ring. Qed.

Lemma sci_mantissa n d (p : nat) :
  (0 < n)%Z -> (0 < d)%Z ->
  let k := Fmt.dec_exponent n d in
  let r0 := Fmt.scaled n d (Z.of_nat p - k) in
  let rk := if (10 ^ Z.of_nat (S p) <=? r0)%Z then ((r0 / 10)%Z, (k + 1)%Z) else (r0, k) in
  (10 ^ Z.of_nat p <= fst rk < 10 ^ Z.of_nat (S p))%Z /\
  Rabs (IZR (fst rk) * pow10 (snd rk - Z.of_nat p) - IZR n / IZR d)
    <= / 2 * pow10 (snd rk - Z.of_nat p).
Proof.
  intros Hn Hd k r0.
  pose proof (dec_exponent_spec n d Hn Hd) as Hk. cbv zeta in Hk. fold k in Hk.
  pose proof (scaled_spec n d (Z.of_nat p - k) Hd) as Hs. fold r0 in Hs.
  set (v := IZR n / IZR d) in *.
  assert (HV : pow10 (Z.of_nat p) <= v * pow10 (Z.of_nat p - k) < pow10 (Z.of_nat p + 1)).
  { pose proof (pow10_pos (Z.of_nat p - k)) as Hp.
    assert (E1 : pow10 (Z.of_nat p) = pow10 k * pow10 (Z.of_nat p - k)).
    { rewrite <- pow10_add. f_equal. lia. }
    assert (E2 : pow10 (Z.of_nat p + 1) = pow10 (k + 1) * pow10 (Z.of_nat p - k)).
    { rewrite <- pow10_add. f_equal. lia. }
    rewrite E1, E2. split.
    - apply Rmult_le_compat_r; lra.
    - apply Rmult_lt_compat_r; lra. }
  assert (HSp : (10 ^ Z.of_nat (S p) = 10 * 10 ^ Z.of_nat p)%Z).
  { replace (Z.of_nat (S p)) with (1 + Z.of_nat p)%Z by lia. now rewrite Z.pow_add_r by lia. }
  assert (HP : (0 < 10 ^ Z.of_nat p)%Z) by (apply Z.pow_pos_nonneg; lia).
  assert (Hr0 : (10 ^ Z.of_nat p <= r0 <= 10 ^ Z.of_nat (S p))%Z).
  { rewrite pow10_succ, <- !IZR_pow10 in HV.
    assert (Ha := Rabs_bounds _ _ Hs).
    split.
    - assert (H : (10 ^ Z.of_nat p - 1 < r0)%Z); [|lia].
      apply lt_IZR. rewrite minus_IZR. lra.
    - assert (H : (r0 < 10 ^ Z.of_nat (S p) + 1)%Z); [|lia].
      apply lt_IZR. rewrite plus_IZR, HSp, mult_IZR. lra. }
  pose proof (scale_back _ _ _ Hs) as Hb.
  replace (- (Z.of_nat p - k))%Z with (k - Z.of_nat p)%Z in Hb by lia.
  destruct (Z.leb_spec (10 ^ Z.of_nat (S p)) r0) as [Hc | Hc]; cbn [fst snd].
  - assert (He : r0 = (10 * 10 ^ Z.of_nat p)%Z) by lia.
    assert (Hdiv : (r0 / 10 = 10 ^ Z.of_nat p)%Z).
    { rewrite He, Z.mul_comm. apply Z.div_mul. lia. }
    rewrite Hdiv. split; [lia|].
    replace (k + 1 - Z.of_nat p)%Z with ((k - Z.of_nat p) + 1)%Z by lia.
    rewrite pow10_succ.
    rewrite He, mult_IZR in Hb.
    pose proof (pow10_pos (k - Z.of_nat p)) as Hp.
    replace (IZR (10 ^ Z.of_nat p) * (10 * pow10 (k - Z.of_nat p)))
      with (10 * IZR (10 ^ Z.of_nat p) * pow10 (k - Z.of_nat p)) by ring.
    lra.
  - split; [lia | exact Hb].
Qed.

Lemma read_mantissa p r :
  (10 ^ Z.of_nat p <= r < 10 ^ Z.of_nat (S p))%Z ->
  exists d0 fp,
    Fmt.mantissa_text p r = [d0] ++ point_and p fp /\
    FloatParse.is_digit d0 = true /\ all_digits fp /\ List.length fp = p /\
    FloatParse.int_of_digits ([d0] ++ fp) = r.
Proof.
  intros Hr.
  assert (HP : (0 < 10 ^ Z.of_nat p)%Z) by (apply Z.pow_pos_nonneg; lia).
  assert (HSp : (10 ^ Z.of_nat (S p) = 10 * 10 ^ Z.of_nat p)%Z).
  { replace (Z.of_nat (S p)) with (1 + Z.of_nat p)%Z by lia. now rewrite Z.pow_add_r by lia. }
  exists (Fmt.digit (r / 10 ^ Z.of_nat p)), (Fmt.digits_fixed p (r mod 10 ^ Z.of_nat p)).
  unfold Fmt.mantissa_text. rewrite frac_point_and.
  split; [reflexivity|]. split; [apply digit_is_digit|].
  split; [apply digits_fixed_digits|]. split; [apply digits_fixed_length|].
  change [Fmt.digit (r / 10 ^ Z.of_nat p)] with (Fmt.digits_fixed 1 (r / 10 ^ Z.of_nat p)).
  unfold FloatParse.int_of_digits. rewrite fold_left_app, !read_digits_fixed.
  change (10 ^ Z.of_nat 1)%Z with 10%Z.
  assert (Ha : (0 <= r / 10 ^ Z.of_nat p < 10)%Z).
  { split; [apply Z.div_pos; lia | apply Z.div_lt_upper_bound; lia]. }
  rewrite (Z.mod_small (r / 10 ^ Z.of_nat p)) by lia.
  rewrite Z.mod_mod by lia.
  pose proof (Z.div_mod r (10 ^ Z.of_nat p) ltac:(lia)). lia.
Qed.

Lemma exponent_signed (sg : bool) ds :
  all_digits ds -> ds <> [] ->
  FloatParse.exponent (101%N :: (if sg then 45%N else 43%N) :: ds) =
  Some (if sg then - FloatParse.int_of_digits ds else FloatParse.int_of_digits ds)%Z.
Proof.
  intros Hd Hne.
  assert (Hp : FloatParse.digitpart ds = Some (ds, [])).
  { rewrite <- (app_nil_r ds) at 1. now apply digitpart_run. }
  destruct sg; cbn -[FloatParse.digitpart FloatParse.int_of_digits]; now rewrite Hp.
Qed.

Lemma exponent_reads_back k :
  FloatParse.exponent (lit "e" ++ Fmt.exponent_text k) = Some k.
Proof.
  set (ds := if (Z.abs k <? 10)%Z then Fmt.digits_fixed 2 (Z.abs k) else Fmt.digits_of (Z.abs k)).
  assert (Hds : all_digits ds /\ ds <> [] /\ FloatParse.int_of_digits ds = Z.abs k).
  { unfold ds. destruct (Z.ltb_spec (Z.abs k) 10) as [H | H].
    - split; [apply digits_fixed_digits|]. split; [discriminate|].
      unfold FloatParse.int_of_digits. rewrite read_digits_fixed.
      change (10 ^ Z.of_nat 2)%Z with 100%Z. rewrite Z.mod_small by lia. lia.
    - split; [apply digits_fixed_digits|]. split; [apply digits_of_nonempty|].
      unfold FloatParse.int_of_digits, Fmt.digits_of. rewrite read_digits_fixed.
      destruct (num_digits_spec (Z.abs k) ltac:(lia)) as [Hn _].
      rewrite Z.mod_small by lia. lia. }
  destruct Hds as (Hd & Hne & Hv).
  assert (Heq : lit "e" ++ Fmt.exponent_text k =
                101%N :: (if (k <? 0)%Z then 45%N else 43%N) :: ds).
  { unfold Fmt.exponent_text. fold ds. destruct (k <? 0)%Z; reflexivity. }
  rewrite Heq, exponent_signed by assumption. rewrite Hv.
  destruct (Z.ltb_spec k 0); f_equal; lia.
Qed.

Lemma use_sci_zero cfg x s : Prim2SF x = S754_zero s -> use_sci cfg x = false.
Proof.
  intros Hx. unfold use_sci, outside_threshold.
  rewrite eqb_zero_SF, Hx. cbn [negb andb]. rewrite orb_false_r.
  unfold float_gt_int, PyFloat.units. rewrite abs_spec, Hx. cbn [SFabs].
  assert (H : (0 < int_pow10 (thresh cfg))%Z) by (apply Z.pow_pos_nonneg; lia).
  destruct (Z.ltb_spec (int_pow10 (thresh cfg) * 2 ^ 1074) 0) as [H1 | H1]; [lia|].
  apply andb_false_r.
Qed.

(** X17. Scientific text is normalised and correctly rounded: the mantissa
    has a leading digit that is not zero, the exponent text reads back as the
    exponent, and the number shown differs from the absolute value of the
    float by at most half a unit of the last mantissa digit. *)
Theorem scientific_accuracy (cfg : FormatConfig) (x : float) :
  is_finite x = true -> use_sci cfg x = true ->
  let p := decimals cfg in
  exists d0 fp k,
    fmt cfg x = Fmt.sign (signbit x) ++ [d0] ++ point_and p fp
                ++ lit "e" ++ Fmt.exponent_text k /\
    FloatParse.is_digit d0 = true /\ all_digits fp /\ List.length fp = p /\
    (10 ^ Z.of_nat p <= FloatParse.int_of_digits ([d0] ++ fp) < 10 ^ Z.of_nat (S p))%Z /\
    FloatParse.exponent (lit "e" ++ Fmt.exponent_text k) = Some k /\
    Rabs (shown_value ([d0] ++ fp) (k - Z.of_nat p) - Rabs (F2R x))
      <= / 2 * pow10 (k - Z.of_nat p).
Proof.
  intros Hfin Hsci p.
  assert (Hna : isna x = false).
  { unfold isna. unfold is_finite in Hfin. now destruct (is_nan x). }
  unfold fmt. rewrite Hna, Hsci. fold p. unfold Fmt.format_e, signbit.
  destruct (finite_cases x Hfin) as [(s & Hx) | (s & m & e & Hx)].
  - rewrite (use_sci_zero cfg x s Hx) in Hsci. discriminate.
  - rewrite Hx. pose proof (ratio_value m e) as Hr.
    destruct (Fmt.ratio m e) as [n d]. destruct Hr as (Hn & Hd & Hv).
    pose proof (sci_mantissa n d p Hn Hd) as Hm. cbv zeta in Hm.
    destruct (10 ^ Z.of_nat (S p) <=? Fmt.scaled n d (Z.of_nat p - Fmt.dec_exponent n d))%Z;
      cbn [fst snd] in Hm; destruct Hm as [Hrange Hclose];
      destruct (read_mantissa p _ Hrange) as (d0 & fp & Hm & Hd0 & Hfp & Hlen & Hread);
      exists d0, fp; eexists; rewrite Hm, <- !app_assoc;
      (split; [reflexivity|]); (split; [exact Hd0|]); (split; [exact Hfp|]);
      (split; [exact Hlen|]); rewrite Hread; (split; [exact Hrange|]);
      (split; [apply exponent_reads_back|]);
      unfold shown_value; rewrite Hread, (abs_F2R_finite x s m e Hx);
      (replace (IZR (Z.pos m) * pow2 e) with (IZR n / IZR d);
       [exact Hclose | rewrite Hv; field; apply not_0_IZR; lia]).
Qed.

Lemma scientific_accuracy_witness :
  exists d0 fp k,
    fmt cfg_default 1234567.5 = Fmt.sign (signbit 1234567.5) ++ [d0] ++ point_and 3 fp
                ++ lit "e" ++ Fmt.exponent_text k /\
    FloatParse.is_digit d0 = true /\ all_digits fp /\ List.length fp = 3%nat /\
    (10 ^ Z.of_nat 3 <= FloatParse.int_of_digits ([d0] ++ fp) < 10 ^ Z.of_nat 4)%Z /\
    FloatParse.exponent (lit "e" ++ Fmt.exponent_text k) = Some k /\
    Rabs (shown_value ([d0] ++ fp) (k - Z.of_nat 3) - Rabs (F2R 1234567.5))
      <= / 2 * pow10 (k - Z.of_nat 3).
Proof.
  apply (scientific_accuracy cfg_default 1234567.5); reflexivity.
Defined.

End DecimalAccuracy.

(** ** Width of the formatted text *)

Section TextWidth.

Local Open Scope Z_scope.

Lemma num_digits_le a t :
  0 <= a <= 10 ^ Z.of_nat t -> (Fmt.num_digits a <= t + 1)%nat.
Proof.
  intros [Ha Hle]. destruct (Z.eq_dec a 0) as [-> | Hne].
  - change (Fmt.num_digits 0) with 1%nat. lia.
  - destruct (num_digits_spec a Ha) as [_ Hlo]. specialize (Hlo ltac:(lia)).
    pose proof (ndigits_pos (Z.to_nat (Z.log2 a)) a) as Hp. fold (Fmt.num_digits a) in Hp.
    assert (H : 10 ^ (Z.of_nat (Fmt.num_digits a) - 1) <= 10 ^ Z.of_nat t) by lia.
    apply Z.pow_le_mono_r_iff in H; lia.
Qed.

Lemma sign_length s : (List.length (Fmt.sign s) <= 1)%nat.
Proof. destruct s; simpl; lia. Qed.

Lemma frac_length p r : (List.length (Fmt.frac p r) <= p + 1)%nat.
Proof.
  destruct p; simpl; [lia|]. rewrite length_app, digits_fixed_length. simpl. lia.
Qed.

(** Below the threshold: [abs x <= 10^t], on the fraction of [x]. *)
Lemma under_threshold x s m e t :
  Prim2SF x = S754_finite s m e ->
  float_gt_int (abs x) (int_pow10 t) = false ->
  let '(n, d) := Fmt.ratio m e in n <= 10 ^ Z.of_nat t * d.
Proof.
  intros Hx. unfold float_gt_int, PyFloat.units. rewrite abs_spec, Hx. cbn [SFabs].
  intros H. apply Z.ltb_ge in H. unfold int_pow10 in H.
  destruct (Rounding.valid_range m e (Rounding.float_valid x s m e Hx)) as (He & _).
  unfold Fmt.ratio. destruct (Z.leb_spec 0 e) as [H0 | H0].
  - replace (e + 1074) with (e + 1074)%Z in H by lia.
    rewrite Z.pow_add_r in H by lia.
    assert (0 < 2 ^ 1074) by (apply Z.pow_pos_nonneg; lia). nia.
  - assert (E : 2 ^ 1074 = 2 ^ (- e) * 2 ^ (e + 1074)).
    { rewrite <- Z.pow_add_r by lia. f_equal. lia. }
    rewrite E in H.
    assert (0 < 2 ^ (e + 1074)) by (apply Z.pow_pos_nonneg; lia). nia.
Qed.

Lemma fixed_length cfg x :
  is_finite x = true -> sci_for_large cfg = true -> use_sci cfg x = false ->
  (List.length (fmt cfg x) <= thresh cfg + decimals cfg + 3)%nat.
Proof.
  intros Hfin Hon Hsci.
  assert (Hna : isna x = false).
  { unfold isna. unfold is_finite in Hfin. now destruct (is_nan x). }
  unfold fmt. rewrite Hna, Hsci. unfold Fmt.format_f.
  destruct (finite_cases x Hfin) as [(s & Hx) | (s & m & e & Hx)]; rewrite Hx.
  - rewrite !length_app. pose proof (sign_length s). pose proof (frac_length (decimals cfg) 0).
    simpl List.length at 2. lia.
  - unfold use_sci in Hsci. rewrite Hon in Hsci. cbn [andb] in Hsci.
    unfold outside_threshold in Hsci. apply orb_false_iff in Hsci as [Hgt _].
    pose proof (under_threshold x s m e (thresh cfg) Hx Hgt) as Hle.
    pose proof (ratio_value m e) as Hr.
    destruct (Fmt.ratio m e) as [n d]. destruct Hr as (Hn & Hd & _).
    set (P := 10 ^ Z.of_nat (decimals cfg)).
    assert (HP : 0 < P) by (apply Z.pow_pos_nonneg; lia).
    set (r := Fmt.round_half_even (n * P) d).
    assert (Hr0 : 0 <= r) by (apply round_half_even_mono; nia).
    assert (Hr1 : r <= 10 ^ Z.of_nat (thresh cfg) * P) by (apply round_half_even_upper; nia).
    assert (Ha : 0 <= r / P <= 10 ^ Z.of_nat (thresh cfg)).
    { split; [now apply Z.div_pos|]. apply Z.div_le_upper_bound; lia. }
    rewrite !length_app. unfold Fmt.digits_of. rewrite digits_fixed_length.
    pose proof (num_digits_le _ _ Ha). pose proof (sign_length s).
    pose proof (frac_length (decimals cfg) (r mod P)). lia.
Qed.

Local Open Scope R_scope.

Lemma pow10_lt_inv a b : pow10 a < pow10 b -> (a < b)%Z.
Proof.
  intros H. destruct (Z_lt_le_dec a b) as [Hlt | Hge]; [exact Hlt|]. exfalso.
  replace a with (b + (a - b))%Z in H by lia. rewrite pow10_add in H.
  rewrite (pow10_IZR (a - b)) in H by lia.
  assert (1 <= IZR (10 ^ (a - b))).
  { apply IZR_le. assert (0 < 10 ^ (a - b))%Z by (apply Z.pow_pos_nonneg; lia). lia. }
  pose proof (pow10_pos b). nra.
Qed.

Lemma float_magnitude x s m e :
  Prim2SF x = S754_finite s m e ->
  pow10 (-324) <= IZR (Z.pos m) * pow2 e < pow10 309.
Proof.
  intros Hx.
  destruct (Rounding.valid_range m e (Rounding.float_valid x s m e Hx)) as (He & Hm & _).
  assert (Hm1 : 1 <= IZR (Z.pos m)) by (apply IZR_le; lia).
  assert (Hm2 : IZR (Z.pos m) < IZR (2 ^ 53)) by (apply IZR_lt; exact Hm).
  rewrite <- Rounding.pow2_IZR in Hm2 by lia.
  pose proof (Rounding.pow2_le (-1074) e ltac:(lia)) as Hlo.
  pose proof (Rounding.pow2_le e 971 ltac:(lia)) as Hhi.
  pose proof (Rounding.pow2_pos e) as Hp.
  assert (H1 : pow10 (-324) <= pow2 (-1074)).
  { change (-324)%Z with (- (324))%Z. change (-1074)%Z with (- (1074))%Z.
    rewrite pow10_neg, Rounding.pow2_neg, pow10_IZR by lia.
    apply Rinv_le_contravar; [apply IZR_lt; reflexivity | apply IZR_le; vm_compute; discriminate]. }
  assert (H2 : pow2 53 * pow2 971 <= pow10 309).
  { rewrite <- Rounding.pow2_add. rewrite Rounding.pow2_IZR, pow10_IZR by lia.
    apply IZR_le. vm_compute. discriminate. }
  split; [nra|].
  apply Rlt_le_trans with (pow2 53 * pow2 971); [|exact H2].
  pose proof (Rounding.pow2_pos 53). pose proof (Rounding.pow2_pos 971). nra.
Qed.

Lemma dec_exponent_range x s m e :
  Prim2SF x = S754_finite s m e ->
  let '(n, d) := Fmt.ratio m e in (-324 <= Fmt.dec_exponent n d <= 308)%Z.
Proof.
  intros Hx. pose proof (float_magnitude x s m e Hx) as Hv.
  pose proof (ratio_value m e) as Hr.
  destruct (Fmt.ratio m e) as [n d]. destruct Hr as (Hn & Hd & Hnd).
  pose proof (dec_exponent_spec n d Hn Hd) as Hk. cbv zeta in Hk.
  assert (E : IZR n / IZR d = IZR (Z.pos m) * pow2 e).
  { rewrite Hnd. field. apply not_0_IZR. lia. }
  rewrite E in Hk.
  assert (H1 : pow10 (Fmt.dec_exponent n d) < pow10 309) by lra.
  assert (H2 : pow10 (-324) < pow10 (Fmt.dec_exponent n d + 1)) by lra.
  apply pow10_lt_inv in H1, H2. lia.
Qed.

Lemma exponent_text_length k :
  (-999 <= k <= 999)%Z -> (List.length (Fmt.exponent_text k) <= 4)%nat.
Proof.
  intros Hk. unfold Fmt.exponent_text. rewrite length_app.
  assert (H1 : List.length (if (k <? 0)%Z then lit "-" else lit "+") = 1%nat)
    by now destruct (k <? 0)%Z.
  rewrite H1. destruct (Z.ltb_spec (Z.abs k) 10).
  - rewrite digits_fixed_length. lia.
  - unfold Fmt.digits_of. rewrite digits_fixed_length.
    assert (H2 : (0 <= Z.abs k <= 10 ^ Z.of_nat 3)%Z) by (change (10 ^ Z.of_nat 3)%Z with 1000%Z; lia).
    apply num_digits_le in H2.
    destruct (Nat.eq_dec (Fmt.num_digits (Z.abs k)) 4) as [E | E]; [|lia].
    destruct (num_digits_spec (Z.abs k) ltac:(lia)) as [_ Hlo]. specialize (Hlo ltac:(lia)).
    rewrite E in Hlo. change (10 ^ (Z.of_nat 4 - 1))%Z with 1000%Z in Hlo. lia.
Qed.

Lemma mantissa_length p r : (List.length (Fmt.mantissa_text p r) <= p + 2)%nat.
Proof.
  unfold Fmt.mantissa_text. rewrite length_app, digits_fixed_length.
  pose proof (frac_length p (r mod 10 ^ Z.of_nat p)). lia.
Qed.

Lemma sci_length cfg x :
  is_finite x = true -> use_sci cfg x = true ->
  (List.length (fmt cfg x) <= decimals cfg + 8)%nat.
Proof.
  intros Hfin Hsci.
  assert (Hna : isna x = false).
  { unfold isna. unfold is_finite in Hfin. now destruct (is_nan x). }
  unfold fmt. rewrite Hna, Hsci. unfold Fmt.format_e.
  destruct (finite_cases x Hfin) as [(s & Hx) | (s & m & e & Hx)]; rewrite Hx.
  - rewrite (use_sci_zero cfg x s Hx) in Hsci. discriminate.
  - pose proof (dec_exponent_range x s m e Hx) as Hk.
    destruct (Fmt.ratio m e) as [n d].
    destruct (10 ^ Z.of_nat (S (decimals cfg)) <=? _)%Z;
      rewrite !length_app; simpl (List.length (lit "e"));
      match goal with |- context [Fmt.mantissa_text ?p ?r] =>
        pose proof (mantissa_length p r) end;
      match goal with |- context [Fmt.exponent_text ?k] =>
        pose proof (exponent_text_length k ltac:(lia)) end;
      pose proof (sign_length s); lia.
Qed.

Lemma fmt_infinite cfg x s :
  Prim2SF x = S754_infinity s -> fmt cfg x = Fmt.sign s ++ lit "inf".
Proof.
  intros Hx. unfold fmt, isna. rewrite is_nan_SF, Hx.
  unfold Fmt.format_e, Fmt.format_f. rewrite Hx. now destruct (use_sci cfg x).
Qed.

(** X18. With scientific notation enabled the text of [fmt] is short: at most
    [decimals + max (thresh + 3) 8] characters, whatever the float. *)
Theorem fmt_width_bounded (cfg : FormatConfig) (x : float) :
  sci_for_large cfg = true ->
  (List.length (fmt cfg x) <= decimals cfg + Nat.max (thresh cfg + 3) 8)%nat.
Proof.
  intros Hon. destruct (is_finite x) eqn:Hfin.
  - destruct (use_sci cfg x) eqn:Hsci.
    + pose proof (sci_length cfg x Hfin Hsci). lia.
    + pose proof (fixed_length cfg x Hfin Hon Hsci). lia.
  - rewrite Rounding.is_finite_SF in Hfin.
    destruct (Prim2SF x) as [s | s | | s m e] eqn:Hx; try discriminate.
    + rewrite (fmt_infinite cfg x s Hx). destruct s; simpl; lia.
    + unfold fmt, isna. rewrite is_nan_SF, Hx. simpl. lia.
Qed.

Lemma fmt_width_bounded_witness :
  (List.length (fmt cfg_default 123456.789) <= 3 + Nat.max (6 + 3) 8)%nat.
Proof.
  apply (fmt_width_bounded cfg_default 123456.789). reflexivity.
Defined.

End TextWidth.

(** ** Values that are not zero *)

Section SmallValues.

Local Open Scope Z_scope.

Lemma round_half_even_pos N d : 0 < d -> d < 2 * N -> 1 <= Fmt.round_half_even N d.
Proof.
  intros Hd H. destruct (Z_lt_le_dec N d) as [Hlt | Hge].
  - unfold Fmt.round_half_even. rewrite Z.div_small, Z.mod_small by lia.
    destruct (Z.compare_spec (2 * N) d); lia.
  - apply round_half_even_mono; lia.
Qed.

Local Open Scope R_scope.

(** [a <? b] is false on two positive finite floats: [a] is at least [b]. *)
Lemma ltb_false_ge a b m e M E :
  Prim2SF a = S754_finite false m e -> Prim2SF b = S754_finite false M E ->
  (a <? b)%float = false ->
  IZR (Z.pos M) * pow2 E <= IZR (Z.pos m) * pow2 e.
Proof.
  intros Ha Hb. rewrite ltb_spec, Ha, Hb. unfold SFltb, SFcompare.
  destruct (Rounding.valid_range m e (Rounding.float_valid a _ _ _ Ha)) as (He & Hm & Hn & _).
  destruct (Rounding.valid_range M E (Rounding.float_valid b _ _ _ Hb)) as (HE & HM & _).
  pose proof (Rounding.pow2_pos E) as HpE.
  destruct (Z.compare_spec e E) as [Heq | Hlt | Hgt].
  - subst E. change (PosDef.Pos.compare_cont Eq m M) with (Pos.compare m M).
    destruct (Pos.compare_spec m M) as [H | H | H]; try discriminate; intros _.
    + subst. lra.
    + assert (IZR (Z.pos M) <= IZR (Z.pos m)) by (apply IZR_le; lia). nra.
  - discriminate.
  - intros _. destruct Hn as [Hn | Hn]; [lia|].
    pose proof (Rounding.pow2_le (E + 1) e ltac:(lia)) as Hle.
    rewrite Rounding.pow2_add in Hle. change (pow2 1) with (2 * 1) in Hle.
    assert (H1 : IZR (2 ^ 52) <= IZR (Z.pos m)) by (apply IZR_le; exact Hn).
    assert (H2 : IZR (Z.pos M) < IZR (2 ^ 53)) by (apply IZR_lt; exact HM).
    change (IZR (2 ^ 52)) with 4503599627370496 in H1.
    change (IZR (2 ^ 53)) with 9007199254740992 in H2.
    nra.
Qed.

(** The float [10**(-t)] for the thresholds of the number input: it is at
    least nine tenths of the decimal it stands for. *)
Lemma threshold_value t :
  (t <= 12)%nat ->
  exists M E, Prim2SF (float_pow10_neg t) = S754_finite false M E /\
              (E < 0)%Z /\ (9 * 2 ^ (- E) <= 10 * Z.pos M * 10 ^ Z.of_nat t)%Z.
Proof.
  intros Ht.
  do 13 (destruct t as [|t];
         [eexists _, _; split; [vm_compute; reflexivity|];
          split; [reflexivity | vm_compute; discriminate]|]).
  lia.
Qed.

Lemma filter_all_digits s : all_digits s -> filter FloatParse.is_digit s = s.
Proof.
  induction 1 as [|c s Hc _ IH]; [reflexivity|]. simpl. now rewrite Hc, IH.
Qed.

Lemma filter_sign s : filter FloatParse.is_digit (Fmt.sign s) = [].
Proof. now destruct s. Qed.

Lemma filter_frac p r :
  filter FloatParse.is_digit (Fmt.frac p r) = Fmt.digits_fixed p r.
Proof.
  destruct p; [reflexivity|]. unfold Fmt.frac. rewrite filter_app.
  change (filter FloatParse.is_digit (lit ".")) with (@nil char).
  apply filter_all_digits, digits_fixed_digits.
Qed.

Lemma shown_digits_fixed s a p b :
  (0 <= a)%Z -> (0 <= b < 10 ^ Z.of_nat p)%Z ->
  shown_digits (Fmt.sign s ++ Fmt.digits_of a ++ Fmt.frac p b) = (a * 10 ^ Z.of_nat p + b)%Z.
Proof.
  intros Ha Hb. unfold shown_digits. rewrite !filter_app, filter_sign, filter_frac.
  rewrite (filter_all_digits (Fmt.digits_of a)) by apply digits_fixed_digits.
  now apply read_digits_of.
Qed.

Lemma shown_digits_zero cfg z :
  (z =? 0)%float = true -> shown_digits (fmt cfg z) = 0%Z /\ ~ In 101%N (fmt cfg z).
Proof.
  intros Hz. rewrite eqb_zero_SF in Hz.
  destruct (Prim2SF z) as [s | s | | s m e] eqn:E; try discriminate.
  assert (Hf : fmt cfg z = Fmt.sign s ++ Fmt.digits_of 0 ++ Fmt.frac (decimals cfg) 0).
  { unfold fmt, isna. rewrite is_nan_SF, E, (use_sci_zero cfg z s E).
    unfold Fmt.format_f. now rewrite E. }
  rewrite Hf. split.
  - rewrite shown_digits_fixed; [reflexivity | lia |].
    split; [lia | apply Z.pow_pos_nonneg; lia].
  - apply (fixed_point_no_e (decimals cfg)). apply fixed_body_shape.
Qed.

Lemma over_threshold x s m e t :
  (t <= 12)%nat ->
  Prim2SF x = S754_finite s m e ->
  (abs x <? float_pow10_neg t)%float = false ->
  let '(n, d) := Fmt.ratio m e in (9 * d <= 10 * n * 10 ^ Z.of_nat t)%Z.
Proof.
  intros Ht Hx Hlt.
  destruct (threshold_value t Ht) as (M & E & HF & HE & HM).
  assert (Ha : Prim2SF (abs x) = S754_finite false m e) by (rewrite abs_spec, Hx; reflexivity).
  pose proof (ltb_false_ge _ _ _ _ _ _ Ha HF Hlt) as Hge.
  pose proof (ratio_value m e) as Hr.
  destruct (Fmt.ratio m e) as [n d]. destruct Hr as (Hn & Hd & Hv).
  apply le_IZR. rewrite !mult_IZR, Hv.
  apply IZR_le in HM. rewrite !mult_IZR in HM.
  assert (HD : 0 < IZR d) by (apply IZR_lt; lia).
  assert (HT : 0 < IZR (10 ^ Z.of_nat t)) by (apply IZR_lt; apply Z.pow_pos_nonneg; lia).
  assert (HP : pow2 E * IZR (2 ^ (- E)) = 1).
  { rewrite <- Rounding.pow2_IZR by lia. rewrite <- Rounding.pow2_add.
    replace (E + - E)%Z with 0%Z by lia. reflexivity. }
  pose proof (Rounding.pow2_pos E) as HpE.
  assert (H9 : 9 <= 10 * (IZR (Z.pos M) * pow2 E) * IZR (10 ^ Z.of_nat t)).
  { replace 9 with (9 * (pow2 E * IZR (2 ^ (- E)))) by (rewrite HP; ring).
    replace (10 * (IZR (Z.pos M) * pow2 E) * IZR (10 ^ Z.of_nat t))
      with (pow2 E * (10 * IZR (Z.pos M) * IZR (10 ^ Z.of_nat t))) by ring.
    replace (9 * (pow2 E * IZR (2 ^ (- E)))) with (pow2 E * (9 * IZR (2 ^ (- E)))) by ring.
    apply Rmult_le_compat_l; lra. }
  change (IZR 9) with 9. change (IZR 10) with 10.
  set (V := IZR (Z.pos m) * pow2 e) in *. set (W := IZR (Z.pos M) * pow2 E) in *.
  set (T := IZR (10 ^ Z.of_nat t)) in *.
  assert (H9' : 9 <= 10 * V * T) by nra.
  replace (10 * (V * IZR d) * T) with ((10 * V * T) * IZR d) by ring.
  nra.
Qed.

(** X19. With scientific notation enabled and at least as many decimals as
    the threshold power (itself at most 12, the largest the number input
    allows), a finite value that is not zero is never written like a zero. *)
Theorem nonzero_not_shown_as_zero (cfg : FormatConfig) (x z : float) :
  sci_for_large cfg = true ->
  (thresh cfg <= decimals cfg)%nat -> (thresh cfg <= 12)%nat ->
  is_finite x = true -> (x =? 0)%float = false -> (z =? 0)%float = true ->
  fmt cfg x <> fmt cfg z.
Proof.
  intros Hon Htd Ht Hfin Hx0 Hz Heq.
  destruct (shown_digits_zero cfg z Hz) as [Hz0 Hze].
  destruct (use_sci cfg x) eqn:Hsci.
  - apply Hze. rewrite <- Heq. apply (scientific_has_e (decimals cfg)).
    unfold fmt. assert (Hna : isna x = false).
    { unfold isna. unfold is_finite in Hfin. now destruct (is_nan x). }
    rewrite Hna, Hsci. now apply format_e_shape.
  - rewrite eqb_zero_SF in Hx0.
    destruct (finite_cases x Hfin) as [(s & Hx) | (s & m & e & Hx)];
      [rewrite Hx in Hx0; discriminate|].
    assert (Hlt : (abs x <? float_pow10_neg (thresh cfg))%float = false).
    { unfold use_sci in Hsci. rewrite Hon in Hsci. cbn [andb] in Hsci.
      unfold outside_threshold in Hsci. apply orb_false_iff in Hsci as [_ H].
      rewrite eqb_zero_SF, Hx in H. exact H. }
    pose proof (over_threshold x s m e (thresh cfg) Ht Hx Hlt) as Hov.
    pose proof (ratio_value m e) as Hr.
    assert (Hf : fmt cfg x = Fmt.format_f (decimals cfg) x).
    { unfold fmt, isna. rewrite is_nan_SF, Hx, Hsci. reflexivity. }
    rewrite Hf in Heq. unfold Fmt.format_f in Heq. rewrite Hx in Heq.
    destruct (Fmt.ratio m e) as [n d]. destruct Hr as (Hn & Hd & _).
    set (P := (10 ^ Z.of_nat (decimals cfg))%Z) in *.
    assert (HP : (0 < P)%Z) by (apply Z.pow_pos_nonneg; lia).
    assert (HT : (0 < 10 ^ Z.of_nat (thresh cfg) <= P)%Z).
    { split; [apply Z.pow_pos_nonneg; lia|]. apply Z.pow_le_mono_r; lia. }
    set (r := Fmt.round_half_even (n * P) d) in *.
    assert (Hr1 : (1 <= r)%Z) by (apply round_half_even_pos; nia).
    apply (f_equal shown_digits) in Heq.
    rewrite shown_digits_fixed, Hz0 in Heq.
    + rewrite Z.mul_comm, <- Z.div_mod in Heq by lia. lia.
    + apply Z.div_pos; lia.
    + now apply Z.mod_pos_bound.
Qed.

Lemma nonzero_not_shown_as_zero_witness :
  fmt {| decimals := 6; sci_for_large := true; thresh := 6 |} 0.0000014 <>
  fmt {| decimals := 6; sci_for_large := true; thresh := 6 |} 0.
Proof.
  apply (nonzero_not_shown_as_zero {| decimals := 6; sci_for_large := true; thresh := 6 |});
    try reflexivity; simpl; lia.
Defined.

End SmallValues.

(** ** The threshold of [fmt], on the value of the float *)

Section ThresholdValues.

Import Rounding.
Local Open Scope R_scope.

Lemma F2R_abs x : F2R (abs x) = Rabs (F2R x).
Proof.
  unfold F2R at 1. rewrite abs_spec.
  destruct (Prim2SF x) as [s | s | | s m e] eqn:Hx;
    try (unfold F2R; rewrite Hx; simpl; now rewrite Rabs_R0).
  rewrite (abs_F2R_finite x s m e Hx). simpl. ring.
Qed.

Lemma finite_abs x :
  is_finite x = true ->
  Prim2SF (abs x) = S754_zero false \/ exists m e, Prim2SF (abs x) = S754_finite false m e.
Proof.
  intros H. rewrite abs_spec.
  destruct (finite_cases x H) as [(s & ->) | (s & m & e & ->)]; simpl; eauto.
Qed.

(** [x > n] compares the value of the float with the integer. *)
Lemma gt_int_value x n :
  is_finite x = true -> (0 <= n)%Z ->
  (float_gt_int (abs x) n = true <-> IZR n < Rabs (F2R x)).
Proof.
  intros Hfin Hn. rewrite <- F2R_abs. unfold float_gt_int.
  pose proof (pow2_pos 1074) as Hp.
  destruct (finite_abs x Hfin) as [Ha | (m & e & Ha)]; rewrite Ha.
  - unfold PyFloat.units, F2R. rewrite Ha. simpl SF2R.
    assert (0 <= IZR n) by now apply IZR_le.
    assert (0 < 2 ^ 1074)%Z by (apply Z.pow_pos_nonneg; lia).
    split; [intros H1; apply Z.ltb_lt in H1; nia | lra].
  - rewrite Z.ltb_lt. pose proof (units_R (abs x) m e Ha) as Hu.
    split; intros H.
    + apply IZR_lt in H. rewrite mult_IZR, <- pow2_IZR, Hu in H by lia. nra.
    + apply lt_IZR. rewrite mult_IZR, <- pow2_IZR, Hu by lia. nra.
Qed.

(** [a <? b] is true on two positive finite floats: [a] is below [b]. *)
Lemma ltb_true_lt a b m e M E :
  Prim2SF a = S754_finite false m e -> Prim2SF b = S754_finite false M E ->
  (a <? b)%float = true ->
  IZR (Z.pos m) * pow2 e < IZR (Z.pos M) * pow2 E.
Proof.
  intros Ha Hb. rewrite ltb_spec, Ha, Hb. unfold SFltb, SFcompare.
  destruct (valid_range m e (float_valid a _ _ _ Ha)) as (He & Hm & _).
  destruct (valid_range M E (float_valid b _ _ _ Hb)) as (HE & HM & Hn & _).
  pose proof (pow2_pos e) as Hpe.
  destruct (Z.compare_spec e E) as [Heq | Hlt | Hgt].
  - subst E. change (PosDef.Pos.compare_cont Eq m M) with (Pos.compare m M).
    destruct (Pos.compare_spec m M) as [H | H | H]; try discriminate; intros _.
    assert (IZR (Z.pos m) < IZR (Z.pos M)) by (apply IZR_lt; lia). nra.
  - intros _. destruct Hn as [Hn | Hn]; [lia|].
    pose proof (pow2_le (e + 1) E ltac:(lia)) as Hle.
    rewrite pow2_add in Hle. change (pow2 1) with (2 * 1) in Hle.
    assert (H1 : IZR (2 ^ 52) <= IZR (Z.pos M)) by (apply IZR_le; exact Hn).
    assert (H2 : IZR (Z.pos m) < IZR (2 ^ 53)) by (apply IZR_lt; exact Hm).
    change (IZR (2 ^ 52)) with 4503599627370496 in H1.
    change (IZR (2 ^ 53)) with 9007199254740992 in H2.
    pose proof (pow2_pos E). nra.
  - discriminate.
Qed.

(** [a < b] on a float that is zero or positive and a positive float
    compares their values. *)
Lemma ltb_value a b M E :
  Prim2SF a = S754_zero false \/ (exists m e, Prim2SF a = S754_finite false m e) ->
  Prim2SF b = S754_finite false M E ->
  ((a <? b)%float = true <-> F2R a < F2R b).
Proof.
  intros Ha Hb.
  assert (HB : F2R b = IZR (Z.pos M) * pow2 E) by (unfold F2R; rewrite Hb; simpl; ring).
  assert (HBpos : 0 < F2R b).
  { rewrite HB. apply Rmult_lt_0_compat; [apply IZR_lt; lia | apply pow2_pos]. }
  destruct Ha as [Ha | (m & e & Ha)].
  - assert (HA : F2R a = 0) by (unfold F2R; now rewrite Ha).
    rewrite HA, ltb_spec, Ha, Hb. simpl. split; [intros _; exact HBpos | reflexivity].
  - assert (HA : F2R a = IZR (Z.pos m) * pow2 e) by (unfold F2R; rewrite Ha; simpl; ring).
    rewrite HA, HB. split.
    + now apply (ltb_true_lt a b).
    + intros Hlt. destruct (a <? b)%float eqn:E1; [reflexivity|]. exfalso.
      pose proof (ltb_false_ge a b m e M E Ha Hb E1). lra.
Qed.

Lemma eqb_zero_value x :
  is_finite x = true -> ((x =? 0)%float = true <-> F2R x = 0).
Proof.
  intros Hfin. rewrite eqb_zero_SF. unfold F2R.
  destruct (finite_cases x Hfin) as [(s & ->) | (s & m & e & ->)]; simpl.
  - tauto.
  - split; [discriminate|]. intros H. exfalso.
    assert (0 < IZR (Z.pos m) * pow2 e).
    { apply Rmult_lt_0_compat; [apply IZR_lt; lia | apply pow2_pos]. }
    destruct s; lra.
Qed.

(** The threshold test of [fmt], on the value of a finite float. *)
Lemma outside_threshold_value t x :
  (t <= 12)%nat -> is_finite x = true ->
  (outside_threshold t x = true <->
   IZR (int_pow10 t) < Rabs (F2R x) \/
   (F2R x <> 0 /\ Rabs (F2R x) < F2R (float_pow10_neg t))).
Proof.
  intros Ht Hfin. unfold outside_threshold.
  assert (HN : (0 <= int_pow10 t)%Z) by (apply Z.pow_nonneg; lia).
  destruct (threshold_value t Ht) as (M & E & HF & _).
  pose proof (ltb_value (abs x) (float_pow10_neg t) M E (finite_abs x Hfin) HF) as Hlt.
  rewrite F2R_abs in Hlt.
  rewrite orb_true_iff, andb_true_iff, negb_true_iff, (gt_int_value x _ Hfin HN), Hlt.
  pose proof (eqb_zero_value x Hfin) as Hz.
  destruct (x =? 0)%float; intuition (try discriminate; try congruence).
Qed.

(** The double [10**(-t)] is the decimal [10^(-t)] up to rounding. *)
Lemma threshold_nearest t :
  (t <= 12)%nat ->
  Rabs (F2R (float_pow10_neg t) * IZR (int_pow10 t) - 1) <= / IZR (2 ^ 53).
Proof.
  intros Ht.
  assert (H : exists M E, Prim2SF (float_pow10_neg t) = S754_finite false M E /\ (E < 0)%Z /\
                (Z.abs (Z.pos M * int_pow10 t - 2 ^ (- E)) * 2 ^ 53 <= 2 ^ (- E))%Z).
  { do 13 (destruct t as [|t];
           [eexists _, _; split; [vm_compute; reflexivity|];
            split; [reflexivity | vm_compute; discriminate]|]).
    lia. }
  destruct H as (M & E & HF & HE & HZ).
  unfold F2R. rewrite HF. simpl SF2R. rewrite Rmult_1_l.
  replace E with (- (- E))%Z at 1 by lia. rewrite pow2_neg by lia.
  assert (HP : (0 < 2 ^ (- E))%Z) by (apply Z.pow_pos_nonneg; lia).
  assert (HPR : 0 < IZR (2 ^ (- E))) by now apply IZR_lt.
  apply IZR_le in HZ. rewrite mult_IZR, abs_IZR, minus_IZR, mult_IZR in HZ.
  set (P := IZR (2 ^ (- E))) in *. set (N := IZR (int_pow10 t)) in *.
  set (m := IZR (Z.pos M)) in *.
  replace (m * / P * N - 1) with ((m * N - P) * / P) by (field; lra).
  rewrite Rabs_mult, (Rabs_pos_eq (/ P)) by (left; now apply Rinv_0_lt_compat).
  assert (H53 : 0 < IZR (2 ^ 53)) by (apply IZR_lt; reflexivity).
  apply (Rmult_le_reg_r (P * IZR (2 ^ 53))); [nra|].
  replace (Rabs (m * N - P) * / P * (P * IZR (2 ^ 53)))
    with (Rabs (m * N - P) * IZR (2 ^ 53)) by (field; lra).
  replace (/ IZR (2 ^ 53) * (P * IZR (2 ^ 53))) with P by (field; lra).
  exact HZ.
Qed.

End ThresholdValues.

Lemma infinite_text cfg x :
  is_infinity x = true -> fmt cfg x = Fmt.sign (signbit x) ++ lit "inf".
Proof.
  rewrite is_infinity_SF. unfold signbit.
  destruct (Prim2SF x) as [s | s | | s m e] eqn:Hx; try discriminate. intros _.
  now apply fmt_infinite.
Qed.

Lemma inf_text_shapes sg p :
  ~ scientific_shape p (Fmt.sign sg ++ lit "inf") /\
  ~ fixed_point_shape p (Fmt.sign sg ++ lit "inf").
Proof.
  split.
  - intros H. apply scientific_has_e in H. destruct sg; simpl in H; intuition discriminate.
  - intros (sg' & ip & fp & H & Hne & Hip & _).
    destruct ip as [|c ip]; [congruence|]. inversion Hip as [|? ? Hc _]; subst.
    apply digit_cases in Hc.
    destruct sg, sg'; simpl in H; injection H as H; subst;
      try (repeat (destruct Hc as [Hc | Hc]; try discriminate Hc)).
    all: destruct ip as [|c' ip]; simpl in *; try discriminate;
         injection H as H; subst;
         repeat (destruct Hc as [Hc | Hc]; try discriminate Hc).
Qed.

(** C3, as the code has it. [fmt] gives the empty string on NaN and "inf" or
    "-inf" on an infinity. Otherwise it uses the [e] format exactly when the
    checkbox is on and the value is beyond the threshold, and the [f] format
    in every other case. On a finite value, and for a threshold power of at
    most 12 (the largest the number input allows), being beyond the threshold
    is: the absolute value is above [10^thresh], or the value is not zero and
    its absolute value is below the double [10**(-thresh)], which is
    [10^(-thresh)] up to a relative error of 2^-53. The [e] text is scientific
    notation with [decimals] digits after the point of the mantissa and the
    [f] text is fixed-point with exactly [decimals] digits after the point.
    With 3 decimals and threshold 6: 999999.9 gives "999999.900", 1000001
    gives "1.000e+06", 0 gives "0.000" and 1e-7 gives "1.000e-07". *)
Theorem fmt_notation (cfg : FormatConfig) (x : float) :
  let p := decimals cfg in
  let t := thresh cfg in
  let beyond := (IZR (int_pow10 t) < Rabs (F2R x) \/
                 (F2R x <> 0 /\ Rabs (F2R x) < F2R (float_pow10_neg t)))%R in
  (isna x = true -> fmt cfg x = lit "") /\
  (isna x = false ->
     (sci_for_large cfg = true /\ outside_threshold t x = true ->
      fmt cfg x = Fmt.format_e p x) /\
     (~ (sci_for_large cfg = true /\ outside_threshold t x = true) ->
      fmt cfg x = Fmt.format_f p x)) /\
  (is_infinity x = true -> fmt cfg x = Fmt.sign (signbit x) ++ lit "inf") /\
  (is_finite x = true -> t <= 12 ->
     (outside_threshold t x = true <-> beyond) /\
     (scientific_shape p (fmt cfg x) <-> sci_for_large cfg = true /\ beyond) /\
     (fixed_point_shape p (fmt cfg x) <-> ~ (sci_for_large cfg = true /\ beyond))) /\
  (t <= 12 ->
   (Rabs (F2R (float_pow10_neg t) * IZR (int_pow10 t) - 1) <= / IZR (2 ^ 53))%R) /\
  fmt cfg_default 999999.9 = lit "999999.900" /\
  fmt cfg_default 1000001 = lit "1.000e+06" /\
  fmt cfg_default 0 = lit "0.000" /\
  fmt cfg_default 1e-7 = lit "1.000e-07".
Proof.
  intros p t beyond.
  assert (Hbranch : isna x = false ->
     (sci_for_large cfg = true /\ outside_threshold t x = true ->
      fmt cfg x = Fmt.format_e p x) /\
     (~ (sci_for_large cfg = true /\ outside_threshold t x = true) ->
      fmt cfg x = Fmt.format_f p x)).
  { intros Hna. unfold fmt, use_sci. rewrite Hna. fold t p. split.
    - intros [-> ->]. reflexivity.
    - intros Hn. destruct (sci_for_large cfg); [|reflexivity].
      destruct (outside_threshold t x); [|reflexivity].
      exfalso. apply Hn. split; reflexivity. }
  split; [|split; [exact Hbranch|split; [|split; [|split]]]].
  - intros Hna. unfold fmt. now rewrite Hna.
  - apply infinite_text.
  - intros Hfin Ht.
    assert (Hna : isna x = false).
    { unfold isna. unfold is_finite in Hfin. now destruct (is_nan x). }
    destruct (Hbranch Hna) as [He Hf].
    pose proof (outside_threshold_value t x Ht Hfin) as Hval. fold beyond in Hval.
    split; [exact Hval|].
    assert (Hdec : {sci_for_large cfg = true /\ outside_threshold t x = true} +
                   {~ (sci_for_large cfg = true /\ outside_threshold t x = true)}).
    { destruct (sci_for_large cfg); [|right; intros [H _]; discriminate].
      destruct (outside_threshold t x); [left; auto | right; intros [_ H]; discriminate]. }
    destruct Hdec as [Hc | Hc].
    + rewrite (He Hc). split; split; intros H.
      * rewrite <- Hval. exact Hc.
      * now apply format_e_shape.
      * exfalso. eapply shapes_disjoint; [|exact H]. now apply format_e_shape.
      * exfalso. apply H. rewrite <- Hval. exact Hc.
    + rewrite (Hf Hc). split; split; intros H.
      * exfalso. eapply shapes_disjoint; [exact H|]. now apply format_f_shape.
      * exfalso. apply Hc. rewrite Hval. exact H.
      * rewrite <- Hval. exact Hc.
      * now apply format_f_shape.
  - apply threshold_nearest.
  - repeat split; vm_compute; reflexivity.
Qed.

Lemma fmt_notation_witness :
  fmt cfg_default nan = lit "" /\
  fmt cfg_default neg_infinity = lit "-inf" /\
  scientific_shape 3 (fmt cfg_default 1e-7) /\
  fixed_point_shape 3 (fmt cfg_default 999999.9).
Proof.
  split; [|split; [|split]].
  - apply (proj1 (fmt_notation cfg_default nan)). reflexivity.
  - apply (proj1 (proj2 (proj2 (fmt_notation cfg_default neg_infinity)))). reflexivity.
  - destruct (proj1 (proj2 (proj2 (proj2 (fmt_notation cfg_default 1e-7)))))
      as (Hv & Hs & _); [reflexivity | simpl; lia |].
    apply Hs. split; [reflexivity|]. apply Hv. reflexivity.
  - destruct (proj1 (proj2 (proj2 (proj2 (fmt_notation cfg_default 999999.9)))))
      as (Hv & _ & Hf); [reflexivity | simpl; lia |].
    apply Hf. intros [_ H]. apply Hv in H. vm_compute in H. discriminate H.
Defined.

(** C3, the claim as written, fails: an infinity is not NaN, and its text
    "inf" is neither scientific notation nor fixed-point with three digits
    after the point, with the checkbox on (where it is beyond the threshold)
    or off. And the threshold below is the double [10**(-thresh)], not the
    decimal: the double 1e-6 is not zero and lies below [10^(-6)], yet with
    threshold 6 it is written in fixed-point, as "0.000". *)
Lemma fmt_infinity_is_neither :
  (isna infinity = false /\
   sci_for_large cfg_default = true /\
   outside_threshold (thresh cfg_default) infinity = true /\
   fmt cfg_default infinity = lit "inf" /\
   ~ scientific_shape 3 (fmt cfg_default infinity) /\
   ~ fixed_point_shape 3 (fmt cfg_default infinity) /\
   fmt {| decimals := 3; sci_for_large := false; thresh := 6 |} infinity = lit "inf" /\
   ~ fixed_point_shape 3 (fmt {| decimals := 3; sci_for_large := false; thresh := 6 |} infinity)) /\
  (is_finite 1e-6 = true /\ (1e-6 =? 0)%float = false /\
   (0 < F2R 1e-6 < / IZR (int_pow10 6))%R /\
   fmt cfg_default 1e-6 = lit "0.000" /\
   ~ scientific_shape 3 (fmt cfg_default 1e-6)).
Proof.
  assert (H1 : fmt cfg_default infinity = Fmt.sign false ++ lit "inf") by reflexivity.
  assert (H2 : fmt {| decimals := 3; sci_for_large := false; thresh := 6 |} infinity
               = Fmt.sign false ++ lit "inf") by reflexivity.
  destruct (inf_text_shapes false 3) as [Hs Hf].
  split.
  - repeat split; try reflexivity; rewrite ?H1, ?H2; assumption.
  - split; [reflexivity|]. split; [reflexivity|]. split; [|split].
    + rewrite F2R_micro. change (IZR (int_pow10 6)) with 1000000%R. lra.
    + vm_compute. reflexivity.
    + intros H. apply scientific_has_e in H. vm_compute in H. intuition discriminate.
Qed.

(** ** The alphabet of numbers *)

Lemma ltrim_split s :
  exists pre, s = pre ++ FloatParse.ltrim s /\ in_alphabet pre.
Proof.
  induction s as [|c s (pre & IH & Hpre)]; [exists []; split; [reflexivity | constructor]|].
  simpl. destruct (FloatParse.float_space c) eqn:E.
  - exists (c :: pre). split; [simpl; now rewrite <- IH|].
    constructor; [|exact Hpre]. unfold number_alphabet. now rewrite E.
  - exists []. split; [reflexivity | constructor].
Qed.

Lemma in_alphabet_rev s : in_alphabet s -> in_alphabet (rev s).
Proof. apply Forall_rev. Qed.

Lemma trim_split s :
  exists pre post, s = pre ++ FloatParse.trim s ++ post /\ in_alphabet pre /\ in_alphabet post.
Proof.
  destruct (ltrim_split s) as (pre & Hs & Hpre).
  destruct (ltrim_split (rev (FloatParse.ltrim s))) as (pre' & Hr & Hpre').
  exists pre, (rev pre'). split; [|split; [exact Hpre | now apply in_alphabet_rev]].
  unfold FloatParse.trim. rewrite <- rev_app_distr, <- Hr, rev_involutive. exact Hs.
Qed.

Lemma take_sign_chars s neg r c :
  FloatParse.take_sign s = (neg, r) -> In c s -> number_alphabet c = true \/ In c r.
Proof.
  destruct s as [|a s]; simpl; [intros _ []|].
  destruct (a =? 45)%N eqn:E1; [|destruct (a =? 43)%N eqn:E2].
  - intros H. injection H as <- <-. intros [<- | H]; [left | now right].
    apply N.eqb_eq in E1. now subst.
  - intros H. injection H as <- <-. intros [<- | H]; [left | now right].
    apply N.eqb_eq in E2. now subst.
  - intros H. injection H as <- <-. now right.
Qed.

Lemma digits_tail_chars n : forall s acc acc' rest c,
  List.length s <= n ->
  FloatParse.digits_tail s acc = (acc', rest) -> In c s ->
  number_alphabet c = true \/ In c rest.
Proof.
  induction n as [|n IH]; intros s acc acc' rest c Hlen H Hin.
  - destruct s; [contradiction | simpl in Hlen; lia].
  - destruct s as [|a s]; [contradiction|]. simpl in Hlen, H.
    destruct (FloatParse.is_decimal a) eqn:Ea.
    + destruct Hin as [<- | Hin].
      * left. unfold number_alphabet. rewrite Ea. apply orb_true_iff. left.
        apply orb_true_iff. left. apply orb_true_r.
      * apply (IH s _ _ _ c ltac:(lia) H Hin).
    + destruct (a =? 95)%N eqn:Eu.
      * destruct s as [|b s'].
        -- injection H as <- <-. now right.
        -- destruct (FloatParse.is_decimal b) eqn:Eb.
           ++ simpl in Hlen. destruct Hin as [<- | [<- | Hin]].
              ** left. apply N.eqb_eq in Eu. now subst.
              ** left. unfold number_alphabet. rewrite Eb. apply orb_true_iff. left.
                 apply orb_true_iff. left. apply orb_true_r.
              ** apply (IH s' _ _ _ c ltac:(lia) H Hin).
           ++ injection H as <- <-. now right.
      * injection H as <- <-. now right.
Qed.

Lemma digitpart_chars s ds rest c :
  FloatParse.digitpart s = Some (ds, rest) -> In c s ->
  number_alphabet c = true \/ In c rest.
Proof.
  destruct s as [|a s]; [discriminate|]. simpl.
  destruct (FloatParse.is_decimal a) eqn:Ea; [|discriminate].
  intros H. injection H as H. intros [<- | Hin].
  - left. unfold number_alphabet. rewrite Ea. apply orb_true_iff. left.
    apply orb_true_iff. left. apply orb_true_r.
  - destruct (FloatParse.digits_tail s [a]) as [acc' rest'] eqn:E.
    injection H as <- <-.
    apply (digits_tail_chars (List.length s) s _ _ _ c (le_n _) E Hin).
Qed.

Lemma point_alphabet c : (c =? 46)%N = true -> number_alphabet c = true.
Proof. intros H. apply N.eqb_eq in H. now subst. Qed.

Lemma number_chars s ip fp rest c :
  FloatParse.number s = Some (ip, fp, rest) -> In c s ->
  number_alphabet c = true \/ In c rest.
Proof.
  unfold FloatParse.number.
  destruct (FloatParse.digitpart s) as [[ip0 rest0]|] eqn:E0.
  - intros H Hin. destruct (digitpart_chars s ip0 rest0 c E0 Hin) as [Ha | Hr]; [now left|].
    destruct rest0 as [|a rest1]; [contradiction|].
    destruct (a =? 46)%N eqn:Ep.
    + destruct (FloatParse.digitpart rest1) as [[fp1 rest2]|] eqn:E1.
      * injection H as <- <- <-. destruct Hr as [<- | Hr]; [left; now apply point_alphabet|].
        apply (digitpart_chars rest1 fp1 rest2 c E1 Hr).
      * injection H as <- <- <-. destruct Hr as [<- | Hr]; [left; now apply point_alphabet|].
        now right.
    + injection H as <- <- <-. now right.
  - destruct s as [|a s']; [discriminate|].
    destruct (a =? 46)%N eqn:Ep; [|discriminate].
    destruct (FloatParse.digitpart s') as [[fp1 rest1]|] eqn:E1; [|discriminate].
    intros H. injection H as <- <- <-. intros [<- | Hin]; [left; now apply point_alphabet|].
    apply (digitpart_chars s' fp1 rest1 c E1 Hin).
Qed.

Lemma exponent_chars s k c :
  FloatParse.exponent s = Some k -> In c s -> number_alphabet c = true.
Proof.
  destruct s as [|a s]; [intros _ []|]. simpl.
  destruct (FloatParse.lower a =? 101)%N eqn:Ee; [|discriminate].
  destruct (FloatParse.take_sign s) as [neg s'] eqn:Es.
  destruct (FloatParse.digitpart s') as [[ds rest]|] eqn:Ed; [|discriminate].
  destruct rest; [|discriminate]. intros _ [<- | Hin].
  - unfold number_alphabet. apply N.eqb_eq in Ee. rewrite Ee. apply orb_true_r.
  - destruct (take_sign_chars s neg s' c Es Hin) as [Ha | Hin']; [exact Ha|].
    destruct (digitpart_chars s' ds [] c Ed Hin') as [Ha | []]. exact Ha.
Qed.

Lemma word_chars s w c :
  str_eqb (map FloatParse.lower s) w = true ->
  Forall (fun l => existsb (N.eqb l) (lit "einftya") = true) w ->
  In c s -> number_alphabet c = true.
Proof.
  intros Heq Hw Hin. apply str_eqb_eq in Heq. rewrite Forall_forall in Hw.
  unfold number_alphabet. rewrite (Hw (FloatParse.lower c)); [apply orb_true_r|].
  rewrite <- Heq. now apply in_map.
Qed.

(** Whatever [float] accepts is written in the alphabet of numbers. *)
Lemma py_float_alphabet text y :
  FloatParse.py_float text = Some y -> in_alphabet text.
Proof.
  intros H. apply Forall_forall. intros c Hin.
  destruct (trim_split text) as (pre & post & Ht & Hpre & Hpost).
  rewrite Ht in Hin. unfold in_alphabet in Hpre, Hpost. rewrite Forall_forall in Hpre, Hpost.
  apply in_app_or in Hin as [Hin | Hin]; [now apply Hpre|].
  apply in_app_or in Hin as [Hin | Hin]; [|now apply Hpost].
  unfold FloatParse.py_float in H.
  destruct (FloatParse.take_sign (FloatParse.trim text)) as [neg s] eqn:Es.
  destruct (take_sign_chars _ neg s c Es Hin) as [Ha | Hs]; [exact Ha|].
  destruct (str_eqb (map FloatParse.lower s) (lit "inf")) eqn:E1.
  { apply (word_chars s (lit "inf") c E1); [repeat constructor | exact Hs]. }
  destruct (str_eqb (map FloatParse.lower s) (lit "infinity")) eqn:E2.
  { apply (word_chars s (lit "infinity") c E2); [repeat constructor | exact Hs]. }
  cbn [orb] in H.
  destruct (str_eqb (map FloatParse.lower s) (lit "nan")) eqn:E3.
  { apply (word_chars s (lit "nan") c E3); [repeat constructor | exact Hs]. }
  destruct (FloatParse.number s) as [[[ip fp] rest]|] eqn:En; [|discriminate].
  destruct (FloatParse.exponent rest) as [k|] eqn:Ee; [|discriminate].
  destruct (number_chars s ip fp rest c En Hs) as [Ha | Hr]; [exact Ha|].
  apply (exponent_chars rest k c Ee Hr).
Qed.

(** X20. A line that, once cleaned, has a character outside the alphabet of
    numbers is rejected by [float]: it gives no value and the batch block
    shows the warning with its line number. *)
Theorem stray_character_warned (float_repr : float -> str) (cfg : FormatConfig)
    (raw batch_unit : str) (n : nat) (line : str) (c : char) :
  nth_error (splitlines raw) n = Some line ->
  In c (cleaned line) -> number_alphabet c = false ->
  FloatParse.py_float (cleaned line) = None /\
  line_value line = None /\
  In (Warning (Z.of_nat n + 1) line) (fst (convert_batch float_repr cfg raw batch_unit)).
Proof.
  intros Hnth Hin Hc.
  assert (Hp : FloatParse.py_float (cleaned line) = None).
  { destruct (FloatParse.py_float (cleaned line)) as [y|] eqn:E; [|reflexivity].
    apply py_float_alphabet in E. unfold in_alphabet in E. rewrite Forall_forall in E.
    rewrite (E c Hin) in Hc. discriminate. }
  assert (Hne : str_eqb (cleaned line) [] = false).
  { destruct (str_eqb (cleaned line) []) eqn:E; [|reflexivity].
    apply str_eqb_nil in E. rewrite E in Hin. contradiction. }
  split; [exact Hp|]. split.
  - unfold line_value. now rewrite Hne.
  - assert (Hw : In (Warning (Z.of_nat n + 1) line) (expected_warnings (splitlines raw))).
    { apply warnings_from_In. split; [lia|]. split.
      - replace (Z.to_nat (Z.of_nat n + 1 - 1)) with n by lia. exact Hnth.
      - unfold fails. now rewrite Hne, Hp. }
    rewrite <- (convert_batch_warnings float_repr cfg raw batch_unit) in Hw.
    apply filter_In in Hw. tauto.
Qed.

Lemma stray_character_warned_witness :
  FloatParse.py_float (cleaned (lit "5 mL")) = None /\
  line_value (lit "5 mL") = None /\
  In (Warning (Z.of_nat 1 + 1) (lit "5 mL"))
     (fst (convert_batch float_repr_17 cfg_default (lit "1" ++ [10%N] ++ lit "5 mL") (lit "L/h"))).
Proof.
  apply (stray_character_warned float_repr_17 cfg_default
           (lit "1" ++ [10%N] ++ lit "5 mL") (lit "L/h") 1 (lit "5 mL") 109%N).
  - reflexivity.
  - simpl. tauto.
  - reflexivity.
Defined.

(** ** Quoting in the exported file *)

Lemma plain_field_chars s c :
  plain_field s -> (c = 44 \/ c = 34 \/ c = 10 \/ c = 13)%N -> ~ In c s.
Proof.
  unfold plain_field, needs_quote. intros H Hc Hin.
  assert (Ht : existsb (fun c => (c =? 44) || (c =? 34) || (c =? 10) || (c =? 13))%N s = true).
  { apply existsb_exists. exists c. split; [exact Hin|].
    destruct Hc as [-> | [-> | [-> | ->]]]; reflexivity. }
  congruence.
Qed.

Lemma quote_plain s : plain_field s -> quote_field s = s.
Proof. unfold plain_field, quote_field. now intros ->. Qed.

Lemma number_text_plain s : number_text s -> plain_field s.
Proof.
  intros H. unfold plain_field, needs_quote.
  match goal with |- ?t = false => destruct t eqn:E end; [|reflexivity]. exfalso.
  apply existsb_exists in E as (c & Hin & Hc).
  unfold number_text in H. rewrite Forall_forall in H. specialize (H c Hin).
  apply number_char_cases in H as [H | H].
  - apply digit_cases in H. repeat (destruct H as [-> | H]; [discriminate Hc|]). subst. discriminate Hc.
  - repeat (destruct H as [-> | H]; [discriminate Hc|]). subst. discriminate Hc.
Qed.

Lemma fmt_number_text cfg x : number_text (fmt cfg x).
Proof.
  destruct (isna x) eqn:Hna.
  - unfold fmt. rewrite Hna. constructor.
  - destruct (fmt_text_cases cfg x Hna) as [H | [H | [-> | ->]]].
    + now apply (fixed_reads (decimals cfg)).
    + now apply (sci_reads (decimals cfg)).
    + repeat constructor.
    + repeat constructor.
Qed.

Lemma alias_plain k : In k registry -> plain_field (dict_get ALIAS k k).
Proof. revert k. apply registry_cases; reflexivity. Qed.

Lemma header_plain : Forall plain_field export_header.
Proof. repeat constructor. Qed.

Section PlainExport.

Variable float_repr : float -> str.
Hypothesis float_repr_plain : forall x, plain_field (float_repr x).

Lemma cell_plain c :
  match c with CStr s => plain_field s | CFloat _ => True end ->
  plain_field (cell_text float_repr c).
Proof.
  destruct c as [x | s]; simpl; [intros _ | auto].
  destruct (isna x); [reflexivity | apply float_repr_plain].
Qed.

Lemma row_plain cfg batch_unit v :
  In batch_unit registry ->
  Forall plain_field (export_row float_repr cfg batch_unit v) /\
  List.length (export_row float_repr cfg batch_unit v) = 16.
Proof.
  intros Hk. split; [|reflexivity].
  unfold export_row. apply Forall_map. unfold batch_columns. apply Forall_app. split.
  - constructor; [apply cell_plain; exact I|].
    constructor; [apply cell_plain; now apply alias_plain | constructor].
  - unfold unit_columns. apply Forall_flat_map. apply Forall_forall. intros u _.
    constructor; [apply cell_plain; exact I|].
    constructor; [|constructor]. apply cell_plain. apply number_text_plain, fmt_number_text.
Qed.

End PlainExport.

Lemma occurrences_app c a b : occurrences c (a ++ b) = occurrences c a + occurrences c b.
Proof. apply count_occ_app. Qed.

Lemma occurrences_absent c s : ~ In c s -> occurrences c s = 0.
Proof. apply count_occ_not_In. Qed.

Lemma commas_in_record fields :
  Forall plain_field fields ->
  occurrences 44%N (join (lit ",") fields) = List.length fields - 1 /\
  occurrences 10%N (join (lit ",") fields) = 0 /\
  occurrences 34%N (join (lit ",") fields) = 0.
Proof.
  induction 1 as [|f fields Hf Hfs IH]; [repeat split|].
  assert (H44 : occurrences 44%N f = 0) by (apply occurrences_absent, plain_field_chars; auto).
  assert (H10 : occurrences 10%N f = 0) by (apply occurrences_absent, plain_field_chars; auto).
  assert (H34 : occurrences 34%N f = 0) by (apply occurrences_absent, plain_field_chars; auto).
  destruct fields as [|g fields].
  - simpl. rewrite H44, H10, H34. repeat split.
  - change (join (lit ",") (f :: g :: fields))
      with (f ++ lit "," ++ join (lit ",") (g :: fields)).
    destruct IH as (I44 & I10 & I34).
    rewrite !occurrences_app, H44, H10, H34, I44, I10, I34. simpl List.length.
    repeat split. simpl. lia.
Qed.

Lemma map_quote_plain fields : Forall plain_field fields -> map quote_field fields = fields.
Proof.
  induction 1 as [|f fields Hf _ IH]; [reflexivity|]. simpl. now rewrite quote_plain, IH.
Qed.

(** X21. The exported file needs no quoting (given a float writer whose
    text needs none): every record is its 16 fields joined by 15 commas and
    ended by one line feed, with no double quote in it. *)
Theorem csv_export_plain (float_repr : float -> str) (cfg : FormatConfig)
    (raw batch_unit : str) :
  (forall x, plain_field (float_repr x)) ->
  In batch_unit registry ->
  expected_values (splitlines raw) <> [] ->
  let records := export_header ::
                 map (export_row float_repr cfg batch_unit) (expected_values (splitlines raw)) in
  exists view csv,
    fst (convert_batch float_repr cfg raw batch_unit) =
      expected_warnings (splitlines raw) ++ [Dataframe view; DownloadButton csv] /\
    csv = flat_map (fun fields => join (lit ",") fields ++ [10%N]) records /\
    Forall (fun fields =>
              List.length fields = 16 /\
              occurrences 44%N (csv_line fields) = 15 /\
              occurrences 10%N (csv_line fields) = 1 /\
              occurrences 34%N (csv_line fields) = 0) records.
Proof.
  intros Hplain Hk Hv records.
  assert (Hrec : Forall (fun fields => Forall plain_field fields /\ List.length fields = 16)
                        records).
  { constructor; [split; [apply header_plain | reflexivity]|].
    apply Forall_forall. intros fields Hin. apply in_map_iff in Hin as (v & <- & _).
    now apply row_plain. }
  do 2 eexists. split; [|split].
  - rewrite batch_with_values by assumption. reflexivity.
  - unfold to_csv, batch_columns, input_columns. cbn [app]. rewrite csv_records_fill.
    change (flat_map csv_line records =
            flat_map (fun fields => join (lit ",") fields ++ [10%N]) records).
    induction Hrec as [|fields rs [Hf _] _ IH]; [reflexivity|].
    simpl. rewrite IH. unfold csv_line. now rewrite map_quote_plain.
  - apply Forall_impl with (2 := Hrec). intros fields [Hf Hlen].
    split; [exact Hlen|]. unfold csv_line. rewrite map_quote_plain by exact Hf.
    destruct (commas_in_record fields Hf) as (H44 & H10 & H34).
    rewrite !occurrences_app, H44, H10, H34, Hlen. repeat split.
Qed.

Lemma float_repr_17_plain x : plain_field (float_repr_17 x).
Proof.
  unfold float_repr_17. destruct (is_finite x) eqn:Hfin.
  - apply number_text_plain. now apply (sci_reads 16), format_e_shape.
  - rewrite Rounding.is_finite_SF in Hfin. unfold Fmt.format_e.
    destruct (Prim2SF x) as [s | s | | s m e]; try discriminate; [destruct s|]; reflexivity.
Qed.

Lemma csv_export_plain_witness :
  exists view csv,
    fst (convert_batch float_repr_17 cfg_default (lit "7") (lit "mL/h")) =
      expected_warnings (splitlines (lit "7")) ++ [Dataframe view; DownloadButton csv] /\
    csv = flat_map (fun fields => join (lit ",") fields ++ [10%N])
            (export_header ::
             map (export_row float_repr_17 cfg_default (lit "mL/h"))
                 (expected_values (splitlines (lit "7")))) /\
    Forall (fun fields =>
              List.length fields = 16 /\
              occurrences 44%N (csv_line fields) = 15 /\
              occurrences 10%N (csv_line fields) = 1 /\
              occurrences 34%N (csv_line fields) = 0)
           (export_header ::
            map (export_row float_repr_17 cfg_default (lit "mL/h"))
                (expected_values (splitlines (lit "7")))).
Proof.
  apply (csv_export_plain float_repr_17 cfg_default (lit "7") (lit "mL/h")).
  - apply float_repr_17_plain.
  - unfold registry. simpl. tauto.
  - vm_compute. discriminate.
Defined.
